(** * The connector of the Go Geode client: value codec, message exchange
      and connection pool.

    A shallow embedding of [connector/protobuf.go] and [connector/pool.go].
    Go values of static type [interface{}] are an inductive type; fixed-width
    integers are [Z] with the conversions written out; the pointers to
    connections are indices into a heap; the network, the server and the
    JSON library are parameters of the development. *)

From Stdlib Require Import ZArith Ascii String List Bool Lia.
From stdpp Require Import gmap strings list pretty.

Local Open Scope string_scope.
Local Open Scope Z_scope.

(** ** Go errors *)

(** The dynamic types of [error] that the connector tells apart: a
    [*net.OpError] (type switch in [writeMessage]), its own
    [*RetryableError], and everything else, which is only ever asked for
    its message and is kept as [errors.New] of that message. *)
Inductive error : Type :=
| errors_New (text : string)
| net_OpError (Op Net : string) (Source Addr : option string) (Err : error)
| RetryableError (Err : error).

(** [io.EOF] and [io.ErrUnexpectedEOF], as package [io] declares them. *)
Definition io_EOF : error := errors_New "EOF".
Definition io_ErrUnexpectedEOF : error := errors_New "unexpected EOF".

(** The [Error()] method. For [*net.OpError] this is the method of package
    [net]; for [*RetryableError] it is protobuf.go line 31. *)
Fixpoint Error (e : error) : string :=
  match e with
  | errors_New text => text
  | net_OpError op net src addr err =>
      let s := op in
      let s := if String.eqb net "" then s else s ++ " " ++ net in
      let s := match src with Some a => s ++ " " ++ a | None => s end in
      let s := match addr with
               | Some a => (match src with Some _ => s ++ "->" | None => s ++ " " end) ++ a
               | None => s
               end in
      s ++ ": " ++ Error err
  | RetryableError err => Error err
  end.

(** The type assertion on [*RetryableError] in [doOperation]. *)
Definition is_RetryableError (e : error) : bool :=
  match e with RetryableError _ => true | _ => false end.

(** What a Go call that returns [(T, error)] can do: return a value, return
    an error, or panic. *)
Inductive outcome (A : Type) : Type :=
| Ret (a : A)
| Fail (e : error)
| Panic (msg : string).
Arguments Ret {A} a.
Arguments Fail {A} e.
Arguments Panic {A} msg.

Definition bind {A B} (m : outcome A) (k : A -> outcome B) : outcome B :=
  match m with
  | Ret a => k a
  | Fail e => Fail e
  | Panic msg => Panic msg
  end.

(** ** Fixed-width conversions *)

(** [int32(k)]: the low 32 bits, read as a signed number. *)
Definition to_int32 (k : Z) : Z := (k + 2 ^ 31) mod 2 ^ 32 - 2 ^ 31.
(** [int64(k)], the wrap-around of the 64-bit counters. *)
Definition to_int64 (k : Z) : Z := (k + 2 ^ 63) mod 2 ^ 64 - 2 ^ 63.
(** [uint8(k)]. *)
Definition to_uint8 (k : Z) : Z := k mod 2 ^ 8.

Definition in_int16 (k : Z) : Prop := - 2 ^ 15 <= k < 2 ^ 15.
Definition in_int32 (k : Z) : Prop := - 2 ^ 31 <= k < 2 ^ 31.
Definition in_int64 (k : Z) : Prop := - 2 ^ 63 <= k < 2 ^ 63.
Definition in_uint8 (k : Z) : Prop := 0 <= k < 2 ^ 8.

(** ** The value codec (protobuf.go, lines 597-740) *)

(** Modelled from the spec: the generated oneof [v1.EncodedValue.Value] is
    not among the sources; its variants are the tags the spec lists (16, 32
    and 64-bit integer, byte, boolean, double, float, binary, string, null,
    JSON object), each carrying the Go field type that [EncodeValue] stores
    in it. [EncodedValue_Unknown] stands for any further wrapper type, which
    [DecodeValue] sends to its [default] branch. *)
Inductive isEncodedValue_Value : Type :=
| EncodedValue_IntResult (IntResult : Z)
| EncodedValue_ShortResult (ShortResult : Z)
| EncodedValue_LongResult (LongResult : Z)
| EncodedValue_ByteResult (ByteResult : Z)
| EncodedValue_BooleanResult (BooleanResult : bool)
| EncodedValue_DoubleResult (DoubleResult : Z)
| EncodedValue_FloatResult (FloatResult : Z)
| EncodedValue_BinaryResult (BinaryResult : list Byte.byte)
| EncodedValue_StringResult (StringResult : string)
| EncodedValue_JsonObjectResult (JsonObjectResult : string)
| EncodedValue_NullResult
| EncodedValue_Unknown (typeName : string).

(** [v1.EncodedValue]: the oneof field may be unset. A [*v1.EncodedValue]
    is an [option EncodedValue], [None] being the nil pointer. *)
Record EncodedValue : Type := { Value : option isEncodedValue_Value }.

(** [GetValue()], which is nil-safe on its receiver. *)
Definition GetValue (value : option EncodedValue) : option isEncodedValue_Value :=
  match value with
  | Some ev => Value ev
  | None => None
  end.

(** [v1.EncodedValueList] and [v1.Table]. *)
Record EncodedValueList : Type := { Element : list (option EncodedValue) }.
Record Table : Type :=
  { FieldName : list string; Row : list (option EncodedValueList) }.

(** Modelled from the spec: the generated messages [v1.Entry], [v1.Error],
    [v1.KeyedError] and [v1.GetAllResponse], with the fields the connector
    reads. Pointer fields that the wire may leave out are options. *)
Record Entry : Type :=
  { Entry_Key : option EncodedValue; Entry_Value : option EncodedValue }.
Record v1_Error : Type := { Message : string; ErrorCode : Z }.
Record KeyedError : Type :=
  { KeyedError_Key : option EncodedValue; KeyedError_Error : option v1_Error }.
Record GetAllResponse : Type :=
  { Entries : list Entry; Failures : list KeyedError }.
Record PutAllResponse : Type := { FailedKeys : list KeyedError }.

(** Go's [==] on floating-point numbers given by their bit patterns, with
    [e] exponent bits and [m] fraction bits: a NaN equals nothing, the two
    zeros are equal. *)
Definition ieee_isNaN (e m x : Z) : bool := (2 ^ e - 1) * 2 ^ m <? x mod 2 ^ (e + m).
Definition ieee_isZero (e m x : Z) : bool := x mod 2 ^ (e + m) =? 0.
Definition ieee_eq (e m x y : Z) : bool :=
  if ieee_isNaN e m x || ieee_isNaN e m y then false
  else if ieee_isZero e m x && ieee_isZero e m y then true
  else x =? y.

Definition nil_dereference : string :=
  "runtime error: invalid memory address or nil pointer dereference".
Definition unhashable : string := "runtime error: hash of unhashable type".
Definition index_out_of_range : string := "runtime error: index out of range".
Definition makeslice_cap_out_of_range : string :=
  "runtime error: makeslice: cap out of range".

Section Codec.

(** The dynamic types an [interface{}] can hold besides the ten the type
    switch of [EncodeValue] names, with what package [encoding/json] does
    on them. *)
Variable Other : Type.
Variable json_Marshal : Other -> string + error.
Variable json_Unmarshal : string -> Other -> Other + error.
(** Go's [==] on two values of such a type, and whether the type can be a
    map key at all. *)
Variable Other_hashable : Other -> bool.
Variable Other_eq : Other -> Other -> bool.
(** The [%v] verb of package [fmt]. *)
Variable fmt_v : forall A : Type, A -> string.

(** A value of static type [interface{}]. Integers carry their number,
    floats their IEEE 754 bit pattern. *)
Inductive GoValue : Type :=
| V_int (k : Z)
| V_int16 (k : Z)
| V_int32 (k : Z)
| V_int64 (k : Z)
| V_byte (k : Z)
| V_bool (k : bool)
| V_float64 (k : Z)
| V_float32 (k : Z)
| V_bytes (k : list Byte.byte)
| V_string (k : string)
| V_nil
| V_other (k : Other).

(** The numbers a value of each type can hold ([int] is 64 bits wide). *)
Definition well_typed (v : GoValue) : Prop :=
  match v with
  | V_int k => in_int64 k
  | V_int16 k => in_int16 k
  | V_int32 k => in_int32 k
  | V_int64 k => in_int64 k
  | V_byte k => in_uint8 k
  | V_float64 k => 0 <= k < 2 ^ 64
  | V_float32 k => 0 <= k < 2 ^ 32
  | _ => True
  end.

(** The kinds the type switch of [EncodeValue] names. *)
Definition scalar (v : GoValue) : bool :=
  match v with
  | V_nil | V_other _ => false
  | _ => true
  end.

(** [EncodeValue] (lines 597-636). *)
Definition EncodeValue (val : GoValue) : outcome EncodedValue :=
  match val with
  | V_int k => Ret {| Value := Some (EncodedValue_IntResult (to_int32 k)) |}
  | V_int16 k => Ret {| Value := Some (EncodedValue_ShortResult (to_int32 k)) |}
  | V_int32 k => Ret {| Value := Some (EncodedValue_IntResult k) |}
  | V_int64 k => Ret {| Value := Some (EncodedValue_LongResult k) |}
  | V_byte k => Ret {| Value := Some (EncodedValue_ByteResult (to_int32 k)) |}
  | V_bool k => Ret {| Value := Some (EncodedValue_BooleanResult k) |}
  | V_float64 k => Ret {| Value := Some (EncodedValue_DoubleResult k) |}
  | V_float32 k => Ret {| Value := Some (EncodedValue_FloatResult k) |}
  | V_bytes k => Ret {| Value := Some (EncodedValue_BinaryResult k) |}
  | V_string k => Ret {| Value := Some (EncodedValue_StringResult k) |}
  | V_nil => Ret {| Value := Some EncodedValue_NullResult |}
  | V_other k =>
      match json_Marshal k with
      | inr err => Fail err
      | inl j => Ret {| Value := Some (EncodedValue_JsonObjectResult j) |}
      end
  end.

(** [json.Unmarshal(data, ref)] on a template of type [interface{}]: the
    library refuses nil and everything that is not a pointer. *)
Definition type_name (v : GoValue) : string :=
  match v with
  | V_int _ => "int" | V_int16 _ => "int16" | V_int32 _ => "int32"
  | V_int64 _ => "int64" | V_byte _ => "uint8" | V_bool _ => "bool"
  | V_float64 _ => "float64" | V_float32 _ => "float32"
  | V_bytes _ => "[]uint8" | V_string _ => "string"
  | V_nil => "nil" | V_other k => fmt_v Other k
  end.

Definition Unmarshal_into (data : string) (ref : GoValue) : outcome GoValue :=
  match ref with
  | V_other k =>
      match json_Unmarshal data k with
      | inl k' => Ret (V_other k')
      | inr err => Fail err
      end
  | V_nil => Fail (errors_New "json: Unmarshal(nil)")
  | _ => Fail (errors_New ("json: Unmarshal(non-pointer " ++ type_name ref ++ ")"))
  end.

(** [DecodeValue] (lines 689-725). *)
Definition DecodeValue (value : option EncodedValue) (ref : GoValue) : outcome GoValue :=
  match GetValue value with
  | Some (EncodedValue_IntResult v) => Ret (V_int32 v)
  | Some (EncodedValue_ShortResult v) => Ret (V_int32 v)
  | Some (EncodedValue_LongResult v) => Ret (V_int64 v)
  | Some (EncodedValue_ByteResult v) => Ret (V_byte (to_uint8 v))
  | Some (EncodedValue_BooleanResult v) => Ret (V_bool v)
  | Some (EncodedValue_DoubleResult v) => Ret (V_float64 v)
  | Some (EncodedValue_FloatResult v) => Ret (V_float32 v)
  | Some (EncodedValue_BinaryResult v) => Ret (V_bytes v)
  | Some (EncodedValue_StringResult v) => Ret (V_string v)
  | Some (EncodedValue_JsonObjectResult v) => Unmarshal_into v ref
  | Some EncodedValue_NullResult | None => Ret V_nil
  | Some (EncodedValue_Unknown t) => Fail (errors_New ("unable to decode type: " ++ t))
  end.

(** Encoding, then decoding what was encoded. *)
Definition roundtrip (x ref : GoValue) : outcome GoValue :=
  bind (EncodeValue x) (fun ev => DecodeValue (Some ev) ref).

(** [EncodeList] (lines 638-655). The argument is [Some l] when its kind is
    slice or array, [l] being its elements as [interface{}] values. *)
Fixpoint EncodeList_loop (l : list GoValue) (encodedEntries : list (option EncodedValue))
  : outcome (list (option EncodedValue)) :=
  match l with
  | [] => Ret encodedEntries
  | x :: rest =>
      match EncodeValue x with
      | Ret key => EncodeList_loop rest (encodedEntries ++ [Some key])%list
      | Fail err => Fail err
      | Panic msg => Panic msg
      end
  end.

Definition EncodeList (lst : option (list GoValue)) : outcome (list (option EncodedValue)) :=
  match lst with
  | None => Fail (errors_New "argument must be a slice or array")
  | Some l => EncodeList_loop l []
  end.

(** A value that encodes, and the element of the encoded list it becomes. *)
Definition encodable (v : GoValue) : Prop := exists e, EncodeValue v = Ret e.
Definition encoded_as (v : GoValue) (ev : option EncodedValue) : Prop :=
  exists e, EncodeValue v = Ret e /\ ev = Some e.

(** [EncodeValueList] (lines 657-664). *)
Definition EncodeValueList (lst : option (list GoValue)) : outcome EncodedValueList :=
  match EncodeList lst with
  | Ret encodedList => Ret {| Element := encodedList |}
  | Fail err => Fail err
  | Panic msg => Panic msg
  end.

(** Whether a value carries the JSON tag: then [DecodeValue] returns the
    template itself, a pointer, after unmarshalling into it. *)
Definition is_json (value : option EncodedValue) : bool :=
  match GetValue value with
  | Some (EncodedValue_JsonObjectResult _) => true
  | _ => false
  end.

(** The loop of [DecodeValueList] (lines 730-737). Every element is
    decoded with the same template: an element with the JSON tag is
    unmarshalled into the template as the elements before left it, and its
    position holds the pointer to the template ([None]); the other
    positions hold a value of their own. The loop also yields the template
    as the last element left it. *)
Fixpoint DecodeValueList_loop (l : list (option EncodedValue)) (ref : GoValue)
  : outcome (list (option GoValue) * GoValue) :=
  match l with
  | [] => Ret ([], ref)
  | v :: rest =>
      match DecodeValue v ref with
      | Ret val =>
          let '(slot, ref) := if is_json v then (None, val) else (Some val, ref) in
          match DecodeValueList_loop rest ref with
          | Ret (slots, final) => Ret (slot :: slots, final)
          | Fail err => Fail err
          | Panic msg => Panic msg
          end
      | Fail err => Fail err
      | Panic msg => Panic msg
      end
  end.

(** [DecodeValueList] (lines 727-740), [None] being the nil list: the
    values as the caller finds them, the positions that point to the
    template all showing what the last unmarshalling left in it. *)
Definition DecodeValueList (lst : option EncodedValueList) (ref : GoValue)
  : outcome (list GoValue) :=
  match DecodeValueList_loop (match lst with Some l => Element l | None => [] end) ref with
  | Ret (slots, final) =>
      Ret (map (fun slot => match slot with Some v => v | None => final end) slots)
  | Fail err => Fail err
  | Panic msg => Panic msg
  end.

(** [decodedFunctionResults] (lines 470-483). *)
Fixpoint decodedFunctionResults (results : list (option EncodedValue))
  : outcome (list GoValue) :=
  match results with
  | [] => Ret []
  | entry :: rest =>
      match DecodeValue entry V_nil with
      | Fail err =>
          Fail (errors_New ("unable to decode function result value: " ++ Error err))
      | Panic msg => Panic msg
      | Ret value =>
          match decodedFunctionResults rest with
          | Ret values => Ret (value :: values)
          | other => other
          end
      end
  end.

(** The loop of [QueryTableResult] (lines 421-428) over the column names,
    [i] being the index of the column and [ref] what [cloneStruct] makes
    of the reference of the query, a new one for every column. *)
Fixpoint QueryTableResult_columns (columns : list string) (i : nat)
    (valueList : list (option EncodedValueList)) (ref : GoValue)
    (results : gmap string (list GoValue)) : outcome (gmap string (list GoValue)) :=
  match columns with
  | [] => Ret results
  | columnName :: rest =>
      match valueList !! i with
      | None => Panic index_out_of_range
      | Some row =>
          match DecodeValueList row ref with
          | Fail err =>
              Fail (errors_New ("unable to decode query result: " ++ Error err))
          | Panic msg => Panic msg
          | Ret val =>
              QueryTableResult_columns rest (S i) valueList ref
                (<[columnName := val]> results)
          end
      end
  end.

(** Lines 416-430 of [QueryTableResult]: the table of the response, nil
    when the response holds no table, turned into a map from column name
    to values. *)
Definition QueryTableResult_table (table : option Table) (ref : GoValue)
  : outcome (gmap string (list GoValue)) :=
  match table with
  | None => Ret ∅
  | Some t => QueryTableResult_columns (FieldName t) 0 (Row t) ref ∅
  end.

(** The loop of [EncodeTable] (lines 670-679) over the entries of the map
    in the order [range] happens to yield them; [idx] counts the columns
    written so far. A store past the end of a slice panics. *)
Fixpoint EncodeTable_range (order : list (string * list GoValue)) (idx : nat)
    (columnNames : list string) (columns : list (option EncodedValueList))
  : outcome (list string * list (option EncodedValueList)) :=
  match order with
  | [] => Ret (columnNames, columns)
  | (k, v) :: rest =>
      if decide (idx < length columnNames)%nat then
        let columnNames := <[idx := k]> columnNames in
        match EncodeValueList (Some v) with
        | Fail err => Fail err
        | Panic msg => Panic msg
        | Ret lst =>
            if decide (idx < length columns)%nat then
              EncodeTable_range rest (idx + 1)%nat columnNames (<[idx := Some lst]> columns)
            else Panic index_out_of_range
        end
      else Panic index_out_of_range
  end.

(** [EncodeTable] (lines 666-687) when [range] yields the entries of
    [table] as [order]. *)
Definition EncodeTable_order (table : gmap string (list GoValue))
    (order : list (string * list GoValue)) : outcome Table :=
  match EncodeTable_range order 0
          (replicate (size table) "") (replicate (size table) None) with
  | Ret (columnNames, columns) => Ret {| FieldName := columnNames; Row := columns |}
  | Fail err => Fail err
  | Panic msg => Panic msg
  end.

(** [EncodeTable]: Go leaves the iteration order of a map open, so the
    function is a relation between the table and its results. *)
Definition EncodeTable (table : gmap string (list GoValue))
    (result : outcome Table) : Prop :=
  exists order, order ≡ₚ map_to_list table /\ EncodeTable_order table order = result.

(** *** Maps keyed by [interface{}] *)

(** Go's [==] on two interface values: the same dynamic type and equal
    values. Slices are never compared: hashing one panics first. *)
Definition go_eq (a b : GoValue) : bool :=
  match a, b with
  | V_int x, V_int y => x =? y
  | V_int16 x, V_int16 y => x =? y
  | V_int32 x, V_int32 y => x =? y
  | V_int64 x, V_int64 y => x =? y
  | V_byte x, V_byte y => x =? y
  | V_bool x, V_bool y => Bool.eqb x y
  | V_float64 x, V_float64 y => ieee_eq 11 52 x y
  | V_float32 x, V_float32 y => ieee_eq 8 23 x y
  | V_string x, V_string y => String.eqb x y
  | V_nil, V_nil => true
  | V_other x, V_other y => Other_eq x y
  | _, _ => false
  end.

Definition hashable (k : GoValue) : bool :=
  match k with
  | V_bytes _ => false
  | V_other o => Other_hashable o
  | _ => true
  end.

(** A [map[interface{}]V] is the list of its entries, oldest first. An
    assignment to a key that is already present keeps the stored key. *)
Fixpoint mapassign {V : Type} (m : list (GoValue * V)) (k : GoValue) (v : V)
  : list (GoValue * V) :=
  match m with
  | [] => [(k, v)]
  | (k', v') :: m' =>
      if go_eq k' k then (k', v) :: m' else (k', v') :: mapassign m' k v
  end.

(** The statement [m[k] = v]. *)
Definition store {V : Type} (m : list (GoValue * V)) (k : GoValue) (v : V)
  : outcome (list (GoValue * V)) :=
  if hashable k then Ret (mapassign m k v) else Panic unhashable.

(** [k] is a key of [m]: some stored key is [k] itself or [==] to it (a
    NaN is stored, but [==] to nothing). *)
Definition holds {V : Type} (m : list (GoValue * V)) (k : GoValue) : Prop :=
  exists k' v, In (k', v) m /\ (k' = k \/ go_eq k' k = true).


(** A key that decodes, without a template, to a value a map can hold. *)
Definition key_ok (key : option EncodedValue) : Prop :=
  exists k, DecodeValue key V_nil = Ret k /\ hashable k = true.

(** *** The result maps of [GetAll] (lines 164-196) *)

(** The loop over [Entries] (lines 167-180). *)
Fixpoint GetAll_entries (entries : list Entry)
    (decodedEntries : list (GoValue * GoValue)) (decodedFailures : list (GoValue * error))
  : outcome (list (GoValue * GoValue) * list (GoValue * error)) :=
  match entries with
  | [] => Ret (decodedEntries, decodedFailures)
  | entry :: rest =>
      match DecodeValue (Entry_Key entry) V_nil with
      | Fail err =>
          Fail (errors_New ("unable to decode GetAll response key: " ++ Error err))
      | Panic msg => Panic msg
      | Ret key =>
          match DecodeValue (Entry_Value entry) V_nil with
          | Fail err =>
              let e := errors_New ("unable to decode GetAll value for key: "
                                     ++ fmt_v GoValue key ++ ": " ++ Error err) in
              match store decodedFailures key e with
              | Ret decodedFailures => GetAll_entries rest decodedEntries decodedFailures
              | Fail err => Fail err
              | Panic msg => Panic msg
              end
          | Panic msg => Panic msg
          | Ret value =>
              match store decodedEntries key value with
              | Ret decodedEntries => GetAll_entries rest decodedEntries decodedFailures
              | Fail err => Fail err
              | Panic msg => Panic msg
              end
          end
      end
  end.

(** The loop over [Failures] (lines 182-189). *)
Fixpoint GetAll_failures (failures : list KeyedError) (decodedFailures : list (GoValue * error))
  : outcome (list (GoValue * error)) :=
  match failures with
  | [] => Ret decodedFailures
  | failure :: rest =>
      match DecodeValue (KeyedError_Key failure) V_nil with
      | Fail err =>
          Fail (errors_New ("unable to decode GetAll failure response for key: "
                              ++ fmt_v (option EncodedValue) (KeyedError_Key failure)
                              ++ ": " ++ Error err))
      | Panic msg => Panic msg
      | Ret key =>
          match KeyedError_Error failure with
          | None => Panic nil_dereference
          | Some e =>
              match store decodedFailures key
                      (errors_New (Message e ++ " (" ++ pretty (ErrorCode e) ++ ")")) with
              | Ret decodedFailures => GetAll_failures rest decodedFailures
              | Fail err => Fail err
              | Panic msg => Panic msg
              end
          end
      end
  end.

(** The loop of [PutAll] over the failed keys (lines 242-249). *)
Fixpoint PutAll_failures (failedKeys : list KeyedError) (failures : list (GoValue * error))
  : outcome (list (GoValue * error)) :=
  match failedKeys with
  | [] => Ret failures
  | k :: rest =>
      match DecodeValue (KeyedError_Key k) V_nil with
      | Fail err =>
          Fail (errors_New ("unable to decode failed PutAll response key: " ++ Error err))
      | Panic msg => Panic msg
      | Ret key =>
          match KeyedError_Error k with
          | None => Panic nil_dereference
          | Some e =>
              match store failures key
                      (errors_New (Message e ++ " (" ++ pretty (ErrorCode e) ++ ")")) with
              | Ret failures => PutAll_failures rest failures
              | Fail err => Fail err
              | Panic msg => Panic msg
              end
          end
      end
  end.

(** Lines 240-255 of [PutAll], from the response of the server on;
    [response] is what [GetPutAllResponse()] returns, and the getter of
    its failed keys accepts nil. *)
Definition PutAll_results (response : option PutAllResponse)
  : outcome (option (list (GoValue * error))) :=
  match PutAll_failures (match response with Some r => FailedKeys r | None => [] end) [] with
  | Fail err => Fail err
  | Panic msg => Panic msg
  | Ret failures =>
      if (length failures =? 0)%nat then Ret None else Ret (Some failures)
  end.

(** Lines 164-196 of [GetAll], from the response of the server on: the two
    maps, the second one nil ([None]) when it is empty. [response] is what
    [GetGetAllResponse()] returns, nil for a message of another kind. *)
Definition GetAll_results (response : option GetAllResponse)
  : outcome (list (GoValue * GoValue) * option (list (GoValue * error))) :=
  match response with
  | None => Panic nil_dereference
  | Some r =>
      match GetAll_entries (Entries r) [] [] with
      | Fail err => Fail err
      | Panic msg => Panic msg
      | Ret (decodedEntries, decodedFailures) =>
          match GetAll_failures (Failures r) decodedFailures with
          | Fail err => Fail err
          | Panic msg => Panic msg
          | Ret decodedFailures =>
              if (length decodedFailures =? 0)%nat then Ret (decodedEntries, None)
              else Ret (decodedEntries, Some decodedFailures)
          end
      end
  end.

End Codec.

Arguments V_int {Other} k.
Arguments V_int16 {Other} k.
Arguments V_int32 {Other} k.
Arguments V_int64 {Other} k.
Arguments V_byte {Other} k.
Arguments V_bool {Other} k.
Arguments V_float64 {Other} k.
Arguments V_float32 {Other} k.
Arguments V_bytes {Other} k.
Arguments V_string {Other} k.
Arguments V_nil {Other}.
Arguments V_other {Other} k.
Arguments well_typed {Other} v.
Arguments scalar {Other} v.

(** The kinds whose tag [DecodeValue] turns back into the Go type that
    [EncodeValue] took: every scalar kind but [int] and [int16]. *)
Definition same_type_kind {Other : Type} (v : GoValue Other) : bool :=
  match v with
  | V_int32 _ | V_int64 _ | V_byte _ | V_bool _ | V_float64 _ | V_float32 _
  | V_bytes _ | V_string _ => true
  | _ => false
  end.

(** ** A sample of other dynamic types

    Two Go types outside the type switch, used to run the codec on concrete
    values: the array type [[2]int32], which package [encoding/json] writes
    as a JSON array and which, not being a pointer, it refuses to unmarshal
    into; and the channel type [chan int], which it cannot marshal. *)
Module Sample.

Inductive other : Type :=
| Array2 (x y : Z)
| Chan.

Definition json_Marshal (o : other) : string + error :=
  match o with
  | Array2 x y => inl ("[" ++ pretty x ++ "," ++ pretty y ++ "]")
  | Chan => inr (errors_New "json: unsupported type: chan int")
  end.

Definition json_Unmarshal (data : string) (o : other) : other + error :=
  match o with
  | Array2 _ _ => inr (errors_New "json: Unmarshal(non-pointer [2]int32)")
  | Chan => inr (errors_New "json: Unmarshal(non-pointer chan int)")
  end.

Definition hashable (o : other) : bool := true.

Definition eq (a b : other) : bool :=
  match a, b with
  | Array2 x y, Array2 x' y' => (x =? x') && (y =? y')
  | Chan, Chan => true
  | _, _ => false
  end.

Definition fmt_v (A : Type) (a : A) : string := "%v".

Definition EncodeValue := EncodeValue other json_Marshal.
Definition DecodeValue := DecodeValue other json_Unmarshal fmt_v.
Definition roundtrip := roundtrip other json_Marshal json_Unmarshal fmt_v.
Definition EncodeTable_order := EncodeTable_order other json_Marshal.
Definition EncodeTable := EncodeTable other json_Marshal.
Definition GetAll_results := GetAll_results other json_Unmarshal hashable eq fmt_v.

(** A table of one column that holds a channel. *)
Definition channel_table : gmap string (list (GoValue other)) :=
  {[ "a" := [V_other Chan] ]}.

(** A table of two columns. *)
Definition int_table : gmap string (list (GoValue other)) :=
  {[ "a" := [V_int32 1; V_int32 2]; "b" := [V_int32 3; V_int32 4] ]}.

(** String keys and values on the wire, and a value and a key that carry
    the JSON tag. *)
Definition str (s : string) : option EncodedValue :=
  Some {| Value := Some (EncodedValue_StringResult s) |}.
Definition json (s : string) : option EncodedValue :=
  Some {| Value := Some (EncodedValue_JsonObjectResult s) |}.

(** The answer to a [GetAll] of k1, k2, k3 in which the value stored under
    k2 is a JSON object. *)
Definition value_fails : GetAllResponse :=
  {| Entries := [ {| Entry_Key := str "k1"; Entry_Value := str "v1" |};
                  {| Entry_Key := str "k2"; Entry_Value := json "[1,2]" |};
                  {| Entry_Key := str "k3"; Entry_Value := str "v3" |} ];
     Failures := [] |}.


(** A key on the wire that carries the binary tag. *)
Definition binary (b : list Byte.byte) : option EncodedValue :=
  Some {| Value := Some (EncodedValue_BinaryResult b) |}.




End Sample.

(** ** A sample template

    A Go type that package [encoding/json] can unmarshal into: the pointer
    type [*[2]int32], a value being known by the array it points to. The
    two texts that the sample knows are unmarshalled as the library does;
    it refuses the others. *)
Module SamplePointer.

Inductive other : Type := ArrayPtr (x y : Z).

Definition json_Marshal (o : other) : string + error :=
  match o with
  | ArrayPtr x y => inl ("[" ++ pretty x ++ "," ++ pretty y ++ "]")
  end.

Definition json_Unmarshal (data : string) (o : other) : other + error :=
  if String.eqb data "[1,2]" then inl (ArrayPtr 1 2)
  else if String.eqb data "[3,4]" then inl (ArrayPtr 3 4)
  else inr (errors_New "json: cannot unmarshal into Go value of type [2]int32").

Definition fmt_v (A : Type) (a : A) : string := "%v".

Definition DecodeValueList := DecodeValueList other json_Unmarshal fmt_v.

(** A list of a string and two JSON arrays. *)
Definition mixed : EncodedValueList :=
  {| Element := [ Sample.json "[1,2]"; Sample.str "s"; Sample.json "[3,4]" ] |}.

End SamplePointer.

(** ** The message exchange (protobuf.go, lines 485-566) *)

(** Modelled from the spec: the generated envelope [v1.Message] is not
    among the sources. A response either carries the error that the server
    reports (the pointer to it may be nil), or the answer to a [GetAll], or
    a message of another kind. *)
Inductive v1_Message : Type :=
| Message_ErrorResponse (err : option v1_Error)
| Message_GetAllResponse (r : GetAllResponse)
| Message_Other (kind : string).

(** The case [*net.OpError] of the type switch in [writeMessage], with its
    test on [Op]. *)
Definition is_write_OpError (err : error) : bool :=
  match err with
  | net_OpError op _ _ _ _ => String.eqb op "write"
  | _ => false
  end.

(** The test [err.Error() == "EOF"] of [doOperationWithConnection]. *)
Definition is_EOF (err : error) : bool := String.eqb (Error err) "EOF".

(** [writeMessage] (lines 531-550): [encoded] is the error that
    [p.EncodeMessage] returns and [written] the one that [connection.Write]
    returns, [None] being nil. *)
Definition writeMessage (encoded written : option error) : option error :=
  match encoded with
  | Some err => Some err
  | None =>
      match written with
      | Some err => if is_write_OpError err then Some (RetryableError err) else Some err
      | None => None
      end
  end.

(** What the transport and the server do in one round trip: the errors of
    the two steps of the write, and what [readResponse] returns. *)
Record Exchange : Type :=
  { encoded : option error; written : option error; response : v1_Message + error }.

(** [doOperationWithConnection] (lines 506-529). *)
Definition doOperationWithConnection (x : Exchange) : outcome v1_Message :=
  match writeMessage (encoded x) (written x) with
  | Some err => Fail err
  | None =>
      match response x with
      | inr err => if is_EOF err then Fail (RetryableError err) else Fail err
      | inl (Message_ErrorResponse None) => Panic nil_dereference
      | inl (Message_ErrorResponse (Some e)) =>
          Fail (errors_New (Message e ++ " (" ++ pretty (ErrorCode e) ++ ")"))
      | inl response => Ret response
      end
  end.

(** Whether [doOperation] takes a result for a reason to start over. *)
Definition retried {A : Type} (r : outcome A) : bool :=
  match r with
  | Fail err => is_RetryableError err
  | _ => false
  end.

(** A colon somewhere in a string. *)
Fixpoint has_colon (s : string) : bool :=
  match s with
  | EmptyString => false
  | String c s' => Ascii.eqb c ":"%char || has_colon s'
  end.

(** ** The connection pool (pool.go) *)

(** A [net.Conn] is known by a number, and so is a [*GeodeConnection]: the
    index of the connection in the heap. *)
Abbreviation net_Conn := nat.
Abbreviation pointer := nat.

(** Modelled from the spec: the struct [GeodeConnection] is declared
    outside the sources; it wraps one transport and has the three flags
    that [AddConnection] sets. *)
Record GeodeConnection : Type :=
  { rawConn : net_Conn;
    handshakeDone : bool;
    authenticationDone : bool;
    inUse : bool }.

Global Instance GeodeConnection_inhabited : Inhabited GeodeConnection :=
  populate {| rawConn := 0%nat; handshakeDone := false;
              authenticationDone := false; inUse := false |}.

(** The provider that [AddServer] registers. *)
Record serverConnectionProvider : Type := { host : string; port : Z }.

(** [Pool], without its lock. *)
Record Pool : Type :=
  { recentConnections : list pointer;
    providers : list serverConnectionProvider;
    authenticationEnabled : bool;
    username : string;
    password : string }.

(** What the lock protects. *)
Inductive field : Type :=
| field_recentConnections
| field_providers
| field_credentials
| field_inUse (c : pointer).

(** What an operation does that can be seen from outside, in order: taking
    and releasing the lock of the pool, storing into a field, asking a
    provider for a connection, the handshake and the authentication on a
    connection, one round trip on a transport, closing a transport. *)
Inductive event : Type :=
| Lock
| Unlock
| Store (f : field)
| Dial (p : serverConnectionProvider)
| Handshake (c : pointer)
| Authenticate (c : pointer)
| RoundTrip (c : net_Conn)
| Close (c : net_Conn).

(** Whether every store of a trace happens between a [Lock] and the next
    [Unlock], [held] telling whether the lock is held at its start. *)
Fixpoint guarded (held : bool) (t : list event) : bool :=
  match t with
  | [] => true
  | Lock :: t' => guarded true t'
  | Unlock :: t' => guarded false t'
  | Store _ :: t' => held && guarded held t'
  | _ :: t' => guarded held t'
  end.

(** Kinds of events. *)
Definition is_lock (e : event) : bool :=
  match e with Lock | Unlock => true | _ => false end.
Definition is_dial (e : event) : bool :=
  match e with Dial _ => true | _ => false end.
Definition is_store_inUse (e : event) : bool :=
  match e with Store (field_inUse _) => true | _ => false end.
Definition is_setup (e : event) : bool :=
  match e with Handshake _ | Authenticate _ => true | _ => false end.
(** The events of the steps that [GetConnection] makes under its lock
    before it marks a connection. *)
Definition is_inner (e : event) : bool := negb (is_lock e) && negb (is_store_inUse e).

(** The round trips of [doOperation] among the events. *)
Definition is_roundtrip (e : event) : bool :=
  match e with RoundTrip _ => true | _ => false end.

Definition no_roundtrip (t : list event) : bool :=
  forallb (fun e => negb (is_roundtrip e)) t.

Section Pool.

(** The network and the servers: their state, and what they answer to a
    provider that dials, to the handshake and the authentication on a
    transport, and to a request. *)
Variable World : Type.
Variable dial : serverConnectionProvider -> World -> option net_Conn * World.
Variable handshake_io : net_Conn -> World -> option error * World.
Variable authenticate_io : net_Conn -> string -> string -> World -> option error * World.
Variable exchange : net_Conn -> v1_Message -> World -> Exchange * World.

(** The pool, the connections it points to, the three [expvar] counters of
    the package, the world, and the events so far. *)
Record State : Type :=
  { heap : list GeodeConnection;
    pool : Pool;
    activeConnections : Z;
    connectionsCreated : Z;
    discardedConnections : Z;
    world : World;
    trace : list event }.

Definition set_heap (h : list GeodeConnection) (s : State) : State :=
  {| heap := h; pool := pool s; activeConnections := activeConnections s;
     connectionsCreated := connectionsCreated s;
     discardedConnections := discardedConnections s;
     world := world s; trace := trace s |}.

Definition set_pool (p : Pool) (s : State) : State :=
  {| heap := heap s; pool := p; activeConnections := activeConnections s;
     connectionsCreated := connectionsCreated s;
     discardedConnections := discardedConnections s;
     world := world s; trace := trace s |}.

Definition set_world (w : World) (s : State) : State :=
  {| heap := heap s; pool := pool s; activeConnections := activeConnections s;
     connectionsCreated := connectionsCreated s;
     discardedConnections := discardedConnections s;
     world := w; trace := trace s |}.

Definition emit (e : event) (s : State) : State :=
  {| heap := heap s; pool := pool s; activeConnections := activeConnections s;
     connectionsCreated := connectionsCreated s;
     discardedConnections := discardedConnections s;
     world := world s; trace := (trace s ++ [e])%list |}.

(** [expvar.Int.Add], an atomic addition on an [int64]. *)
Definition activeConnections_Add (d : Z) (s : State) : State :=
  {| heap := heap s; pool := pool s;
     activeConnections := to_int64 (activeConnections s + d);
     connectionsCreated := connectionsCreated s;
     discardedConnections := discardedConnections s;
     world := world s; trace := trace s |}.

Definition connectionsCreated_Add (d : Z) (s : State) : State :=
  {| heap := heap s; pool := pool s; activeConnections := activeConnections s;
     connectionsCreated := to_int64 (connectionsCreated s + d);
     discardedConnections := discardedConnections s;
     world := world s; trace := trace s |}.

Definition discardedConnections_Add (d : Z) (s : State) : State :=
  {| heap := heap s; pool := pool s; activeConnections := activeConnections s;
     connectionsCreated := connectionsCreated s;
     discardedConnections := to_int64 (discardedConnections s + d);
     world := world s; trace := trace s |}.

(** The stores into the fields of the pool. *)
Definition store_recentConnections (l : list pointer) (s : State) : State :=
  emit (Store field_recentConnections)
    (set_pool {| recentConnections := l; providers := providers (pool s);
                 authenticationEnabled := authenticationEnabled (pool s);
                 username := username (pool s); password := password (pool s) |} s).

Definition store_providers (l : list serverConnectionProvider) (s : State) : State :=
  emit (Store field_providers)
    (set_pool {| recentConnections := recentConnections (pool s); providers := l;
                 authenticationEnabled := authenticationEnabled (pool s);
                 username := username (pool s); password := password (pool s) |} s).

Definition store_inUse (c : pointer) (b : bool) (s : State) : State :=
  let g := heap s !!! c in
  emit (Store (field_inUse c))
    (set_heap (<[c := {| rawConn := rawConn g; handshakeDone := handshakeDone g;
                         authenticationDone := authenticationDone g;
                         inUse := b |}]> (heap s)) s).

(** [&GeodeConnection{...}]: a new connection in the heap. *)
Definition new_GeodeConnection (g : GeodeConnection) (s : State) : pointer * State :=
  (length (heap s), set_heap (heap s ++ [g])%list s).

(** [NewPool] (lines 33-37), in a world [w] in which nothing happened. *)
Definition NewPool (w : World) : State :=
  {| heap := [];
     pool := {| recentConnections := []; providers := [];
                authenticationEnabled := false; username := ""; password := "" |};
     activeConnections := 0; connectionsCreated := 0; discardedConnections := 0;
     world := w; trace := [] |}.

(** [AddConnection] (lines 39-48). *)
Definition AddConnection (c : net_Conn) (handshakeDone : bool) (s : State) : State :=
  let '(gConn, s) :=
    new_GeodeConnection {| rawConn := c; handshakeDone := handshakeDone;
                           authenticationDone := false; inUse := false |} s in
  store_recentConnections (recentConnections (pool s) ++ [gConn])%list s.

(** [AddLocator] (lines 50-52). *)
Definition AddLocator (host : string) (port : Z) (s : State) : State := s.

(** [AddServer] (lines 54-59). *)
Definition AddServer (host : string) (port : Z) (s : State) : State :=
  store_providers (providers (pool s) ++ [{| host := host; port := port |}])%list s.

(** [AddCredentials] (lines 143-147). *)
Definition AddCredentials (username password : string) (s : State) : State :=
  emit (Store field_credentials)
    (set_pool {| recentConnections := recentConnections (pool s);
                 providers := providers (pool s);
                 authenticationEnabled := true;
                 username := username; password := password |} s).

(** Modelled from the spec: [serverConnectionProvider.GetGeodeConnection]
    is outside the sources; the provider yields a new connection on a
    transport to its address, or nothing. *)
Definition GetGeodeConnection (p : serverConnectionProvider) (s : State)
  : option pointer * State :=
  let '(c, w) := dial p (world s) in
  let s := emit (Dial p) (set_world w s) in
  match c with
  | None => (None, s)
  | Some c =>
      let '(gConn, s) :=
        new_GeodeConnection {| rawConn := c; handshakeDone := false;
                               authenticationDone := false; inUse := false |} s in
      (Some gConn, s)
  end.

(** Modelled from the spec: [GeodeConnection.handshake] is outside the
    sources; it does nothing on a connection whose handshake is done, and
    otherwise exchanges the handshake with the server and records its
    success. *)
Definition handshake (gConn : pointer) (s : State) : option error * State :=
  let g := heap s !!! gConn in
  if handshakeDone g then (None, s)
  else
    let '(err, w) := handshake_io (rawConn g) (world s) in
    let s := emit (Handshake gConn) (set_world w s) in
    match err with
    | Some err => (Some err, s)
    | None =>
        (None, set_heap (<[gConn := {| rawConn := rawConn g; handshakeDone := true;
                                      authenticationDone := authenticationDone g;
                                      inUse := inUse g |}]> (heap s)) s)
    end.

(** Modelled from the spec: [GeodeConnection.authenticate] is outside the
    sources; it authenticates a connection once. *)
Definition authenticate (gConn : pointer) (username password : string) (s : State)
  : option error * State :=
  let g := heap s !!! gConn in
  if authenticationDone g then (None, s)
  else
    let '(err, w) := authenticate_io (rawConn g) username password (world s) in
    let s := emit (Authenticate gConn) (set_world w s) in
    match err with
    | Some err => (Some err, s)
    | None =>
        (None, set_heap (<[gConn := {| rawConn := rawConn g;
                                      handshakeDone := handshakeDone g;
                                      authenticationDone := true;
                                      inUse := inUse g |}]> (heap s)) s)
    end.

(** The first loop of [GetConnection] (lines 69-73): the last connection
    of the scan that is not in use. *)
Fixpoint scan_recent (h : list GeodeConnection) (recent : list pointer)
    (gConn : option pointer) : option pointer :=
  match recent with
  | [] => gConn
  | c :: rest =>
      if negb (inUse (h !!! c)) then scan_recent h rest (Some c)
      else scan_recent h rest gConn
  end.

(** The loop over the providers (lines 76-82); [n] is [i + 1]. *)
Fixpoint ask_providers (n : nat) (s : State) : outcome (option pointer) * State :=
  match n with
  | O => (Ret None, s)
  | S i =>
      match providers (pool s) !! i with
      | None => (Panic index_out_of_range, s)
      | Some p =>
          let '(gConn, s) := GetGeodeConnection p s in
          match gConn with
          | Some c => (Ret (Some c), s)
          | None =>
              ask_providers i
                (store_providers (take i (providers (pool s))
                                    ++ drop (S i) (providers (pool s)))%list s)
          end
      end
  end.

(** The loop of [discardConnection] (lines 124-129) removes the first
    occurrence of the pointer. *)
Fixpoint remove_first (gConn : pointer) (l : list pointer) : list pointer :=
  match l with
  | [] => []
  | c :: rest => if Nat.eqb gConn c then rest else c :: remove_first gConn rest
  end.

Definition mem (gConn : pointer) (l : list pointer) : bool :=
  existsb (Nat.eqb gConn) l.

(** [discardConnection] (lines 123-132). *)
Definition discardConnection (gConn : pointer) (s : State) : State :=
  let s :=
    if mem gConn (recentConnections (pool s))
    then store_recentConnections (remove_first gConn (recentConnections (pool s))) s
    else s in
  emit (Close (rawConn (heap s !!! gConn))) s.

(** The choice of a connection in [GetConnection] (lines 68-88): an idle
    one among the recent connections, or else a new one from a provider. *)
Definition select_connection (s : State) : outcome (option pointer) * State :=
  match scan_recent (heap s) (recentConnections (pool s)) None with
  | Some c => (Ret (Some c), s)
  | None =>
      let '(asked, s) := ask_providers (length (providers (pool s))) s in
      match asked with
      | Ret (Some c) =>
          let s := store_recentConnections (recentConnections (pool s) ++ [c])%list s in
          (Ret (Some c), connectionsCreated_Add 1 s)
      | other => (other, s)
      end
  end.

(** The handshake and the authentication in [GetConnection] (lines
    94-106): the error of the first step that fails. *)
Definition setup_connection (gConn : pointer) (s : State) : option error * State :=
  let '(err, s) := handshake gConn s in
  match err with
  | Some err => (Some err, s)
  | None =>
      if authenticationEnabled (pool s)
      then authenticate gConn (username (pool s)) (password (pool s)) s
      else (None, s)
  end.

(** [GetConnection] (lines 61-112). The deferred [Unlock] runs on every
    way out. *)
Definition GetConnection (s : State) : outcome pointer * State :=
  let s := emit Lock s in
  let '(found, s) := select_connection s in
  match found with
  | Panic msg => (Panic msg, emit Unlock s)
  | Fail err => (Fail err, emit Unlock s)
  | Ret None => (Fail (errors_New "no connections available"), emit Unlock s)
  | Ret (Some gConn) =>
      let '(err, s) := setup_connection gConn s in
      match err with
      | Some err => (Fail err, emit Unlock (discardConnection gConn s))
      | None =>
          let s := store_inUse gConn true s in
          let s := activeConnections_Add 1 s in
          (Ret gConn, emit Unlock s)
      end
  end.

(** [ReturnConnection] (lines 114-120). *)
Definition ReturnConnection (gConn : pointer) (s : State) : State :=
  let s := emit Lock s in
  let s := store_inUse gConn false s in
  let s := activeConnections_Add (-1) s in
  emit Unlock s.

(** [DiscardConnection] (lines 135-141). *)
Definition DiscardConnection (gConn : pointer) (s : State) : State :=
  let s := emit Lock s in
  let s := discardConnection gConn s in
  let s := emit Unlock s in
  discardedConnections_Add 1 s.

(** [doOperation] (lines 485-504). The function calls itself without a
    bound; [fuel] bounds the depth of the calls, and [None] means that the
    bound was reached. The deferred [ReturnConnection] runs when the call
    returns, after the calls it made. *)
Fixpoint doOperation (fuel : nat) (request : v1_Message) (s : State)
  : option (outcome v1_Message * State) :=
  match fuel with
  | O => None
  | S fuel =>
      let '(got, s) := GetConnection s in
      match got with
      | Panic msg => Some (Panic msg, s)
      | Fail err => Some (Fail err, s)
      | Ret gConn =>
          let c := rawConn (heap s !!! gConn) in
          let '(x, w) := exchange c request (world s) in
          let s := emit (RoundTrip c) (set_world w s) in
          match doOperationWithConnection x with
          | Panic msg => Some (Panic msg, ReturnConnection gConn s)
          | Ret message => Some (Ret message, ReturnConnection gConn s)
          | Fail err =>
              let s := DiscardConnection gConn s in
              if is_RetryableError err then
                match doOperation fuel request s with
                | None => None
                | Some (r, s) => Some (r, ReturnConnection gConn s)
                end
              else Some (Fail err, ReturnConnection gConn s)
          end
      end
  end.

(** *** Runs of the public operations *)

(** A call of one of the public operations of the pool. *)
Inductive operation : Type :=
| Call_AddConnection (c : net_Conn) (handshakeDone : bool)
| Call_AddLocator (host : string) (port : Z)
| Call_AddServer (host : string) (port : Z)
| Call_AddCredentials (username password : string)
| Call_GetConnection
| Call_ReturnConnection (gConn : pointer)
| Call_DiscardConnection (gConn : pointer).

(** One call: what [GetConnection] returned, if it is one, and the state
    after the call. *)
Definition call (op : operation) (s : State) : list (outcome pointer) * State :=
  match op with
  | Call_AddConnection c handshakeDone => ([], AddConnection c handshakeDone s)
  | Call_AddLocator host port => ([], AddLocator host port s)
  | Call_AddServer host port => ([], AddServer host port s)
  | Call_AddCredentials username password => ([], AddCredentials username password s)
  | Call_GetConnection => let '(r, s) := GetConnection s in ([r], s)
  | Call_ReturnConnection gConn => ([], ReturnConnection gConn s)
  | Call_DiscardConnection gConn => ([], DiscardConnection gConn s)
  end.

(** Calls made one after the other: the results of the calls of
    [GetConnection], in order, and the last state. *)
Fixpoint calls (ops : list operation) (s : State) : list (outcome pointer) * State :=
  match ops with
  | [] => ([], s)
  | op :: rest =>
      let '(r1, s) := call op s in
      let '(r2, s) := calls rest s in
      ((r1 ++ r2)%list, s)
  end.

(** A connection of the heap that is checked out, and one that the pool
    no longer holds. *)
Definition checked_out (gConn : pointer) (s : State) : Prop :=
  (gConn < length (heap s))%nat /\ inUse (heap s !!! gConn) = true.
Definition retired (gConn : pointer) (s : State) : Prop :=
  (gConn < length (heap s))%nat /\ ~ In gConn (recentConnections (pool s)).

(** The state in which [doOperation] finds the pool after the round trip
    on the transport [c] of the connection it got in state [s]. *)
Definition after_exchange (c : net_Conn) (request : v1_Message) (s : State) : State :=
  emit (RoundTrip c) (set_world (snd (exchange c request (world s))) s).

(** The pointers of the pool are distinct and point into the heap. *)
Definition pool_wf (s : State) : Prop :=
  NoDup (recentConnections (pool s)) /\
  Forall (fun c => (c < length (heap s))%nat) (recentConnections (pool s)).

(** What the steps inside the lock leave alone: [frame s s'] says that
    [s'] has the two counters of connections in use and discarded of [s],
    at least its heap, the same transports
    and in-use flags on the connections of [s], and the trace of [s]
    followed by events [t]. *)
Definition frame (s s' : State) (t : list event) : Prop :=
  activeConnections s' = activeConnections s /\
  discardedConnections s' = discardedConnections s /\
  (length (heap s) <= length (heap s'))%nat /\
  (forall p, (p < length (heap s))%nat ->
             inUse (heap s' !!! p) = inUse (heap s !!! p) /\
             rawConn (heap s' !!! p) = rawConn (heap s !!! p)) /\
  trace s' = (trace s ++ t)%list.

End Pool.

Arguments heap {World} s.
Arguments pool {World} s.
Arguments activeConnections {World} s.
Arguments connectionsCreated {World} s.
Arguments discardedConnections {World} s.
Arguments world {World} s.
Arguments trace {World} s.
Arguments frame {World} s s' t.

(** ** Reading a message (protobuf.go, lines 552-595) *)

Section Framing.

(** The transport and the libraries: [connection.Read] into a buffer of
    [n] bytes and [io.ReadFull] into one of [n] bytes, each with the bytes
    it has read and its error; [proto.DecodeVarint], with the number
    decoded, a [uint64], and the count of bytes it took; and
    [p.DecodeMessage] on the bytes of a buffer. *)
Variable World : Type.
Variable net_Read : net_Conn -> nat -> World -> (list Byte.byte * option error) * World.
Variable io_ReadFull : net_Conn -> nat -> World -> (list Byte.byte * option error) * World.
Variable DecodeVarint : list Byte.byte -> Z * Z.
Variable DecodeMessage : list Byte.byte -> v1_Message + error.
(** The largest capacity that [make] grants to a slice of bytes; beyond
    it the runtime panics. *)
Variable maxAlloc : Z.

(** The loop of [readRawMessage] (lines 585-592): [data] is
    [data[0:bytesRead]], the bytes read so far. The loop has no bound of
    its own; [fuel] bounds its iterations, [None] meaning that the bound
    was reached. *)
Fixpoint read_more (fuel : nat) (connection : net_Conn) (data : list Byte.byte)
    (messageLength : Z) (w : World) : option (outcome (list Byte.byte) * World) :=
  if Z.of_nat (length data) <? messageLength then
    match fuel with
    | O => None
    | S fuel =>
        let '((got, err), w) :=
          io_ReadFull connection (Z.to_nat (messageLength - Z.of_nat (length data))) w in
        match err with
        | Some err => Some (Fail err, w)
        | None => read_more fuel connection (data ++ got)%list messageLength w
        end
    end
  else Some (Ret data, w).

(** The length that [readRawMessage] computes (lines 576-577) from the
    buffer of 4096 bytes that holds the first bytes read: [int(m) + n]. *)
Definition messageLength_of (chunk : list Byte.byte) : Z :=
  let data := (chunk ++ replicate (4096 - length chunk) Byte.x00)%list in
  let '(m, n) := DecodeVarint data in
  to_int64 (to_int64 m + n).

(** [readRawMessage] (lines 568-595). Growing the buffer (lines 579-583)
    changes its capacity only, or panics when the capacity asked for is
    more than the runtime grants. *)
Definition readRawMessage (fuel : nat) (connection : net_Conn) (w : World)
  : option (outcome (list Byte.byte) * World) :=
  let '((chunk, err), w) := net_Read connection 4096 w in
  match err with
  | Some err => Some (Fail err, w)
  | None =>
      let messageLength := messageLength_of chunk in
      if (4096 <? messageLength) && (maxAlloc <? messageLength)
      then Some (Panic makeslice_cap_out_of_range, w)
      else read_more fuel connection chunk messageLength w
  end.

(** [readResponse] (lines 552-566). *)
Definition readResponse (fuel : nat) (connection : net_Conn) (w : World)
  : option (outcome v1_Message * World) :=
  match readRawMessage fuel connection w with
  | None => None
  | Some (Ret data, w) =>
      match DecodeMessage data with
      | inl response => Some (Ret response, w)
      | inr err => Some (Fail err, w)
      end
  | Some (Fail err, w) => Some (Fail err, w)
  | Some (Panic msg, w) => Some (Panic msg, w)
  end.

(** What a frame is: the bytes of the first read, continued up to the
    length announced, or the bytes of the first read alone when that read
    brought as many or more. *)
Definition frame_of (chunk out : list Byte.byte) : Prop :=
  chunk `prefix_of` out /\
  Z.of_nat (length out) = Z.max (Z.of_nat (length chunk)) (messageLength_of chunk).

(** What the documentation of [io.ReadFull] promises: without an error
    the buffer was filled. *)
Definition ReadFull_fills : Prop :=
  forall connection n w got w',
    io_ReadFull connection n w = ((got, None), w') -> length got = n.

End Framing.

(** ** The operations on a region (protobuf.go, lines 41-196, 258-276) *)

Section Facade.

Variable Other : Type.
Variable json_Marshal : Other -> string + error.
Variable json_Unmarshal : string -> Other -> Other + error.
Variable Other_hashable : Other -> bool.
Variable Other_eq : Other -> Other -> bool.
Variable fmt_v : forall A : Type, A -> string.

Variable World : Type.
Variable dial : serverConnectionProvider -> World -> option net_Conn * World.
Variable handshake_io : net_Conn -> World -> option error * World.
Variable authenticate_io : net_Conn -> string -> string -> World -> option error * World.
Variable exchange : net_Conn -> v1_Message -> World -> Exchange * World.

(** Modelled from the spec: the generated request messages are not among
    the sources; each is the envelope around the fields that the connector
    sets. *)
Variable Message_PutRequest : string -> EncodedValue -> EncodedValue -> v1_Message.
Variable Message_PutIfAbsentRequest : string -> EncodedValue -> EncodedValue -> v1_Message.
Variable Message_RemoveRequest : string -> EncodedValue -> v1_Message.
Variable Message_GetAllRequest : string -> list (option EncodedValue) -> v1_Message.

(** A request sent for its effect: the response is dropped. *)
Definition send (fuel : nat) (request : v1_Message) (s : State World)
  : option (outcome unit * State World) :=
  match doOperation World dial handshake_io authenticate_io exchange fuel request s with
  | None => None
  | Some (Ret _, s) => Some (Ret tt, s)
  | Some (Fail err, s) => Some (Fail err, s)
  | Some (Panic msg, s) => Some (Panic msg, s)
  end.

(** The key and the value of [Put] and [PutIfAbsent], encoded in this
    order (lines 42-50 and 73-81). *)
Definition encode_entry (k v : GoValue Other) : outcome (EncodedValue * EncodedValue) :=
  match EncodeValue Other json_Marshal k with
  | Fail err => Fail err
  | Panic msg => Panic msg
  | Ret key =>
      match EncodeValue Other json_Marshal v with
      | Fail err => Fail err
      | Panic msg => Panic msg
      | Ret value => Ret (key, value)
      end
  end.

(** [Put] (lines 41-70). *)
Definition Put (fuel : nat) (region : string) (k v : GoValue Other) (s : State World)
  : option (outcome unit * State World) :=
  match encode_entry k v with
  | Fail err => Some (Fail err, s)
  | Panic msg => Some (Panic msg, s)
  | Ret (key, value) => send fuel (Message_PutRequest region key value) s
  end.

(** [PutIfAbsent] (lines 72-101). *)
Definition PutIfAbsent (fuel : nat) (region : string) (k v : GoValue Other)
    (s : State World) : option (outcome unit * State World) :=
  match encode_entry k v with
  | Fail err => Some (Fail err, s)
  | Panic msg => Some (Panic msg, s)
  | Ret (key, value) => send fuel (Message_PutIfAbsentRequest region key value) s
  end.

(** [Remove] (lines 258-276). *)
Definition Remove (fuel : nat) (region : string) (k : GoValue Other) (s : State World)
  : option (outcome unit * State World) :=
  match EncodeValue Other json_Marshal k with
  | Fail err => Some (Fail err, s)
  | Panic msg => Some (Panic msg, s)
  | Ret key => send fuel (Message_RemoveRequest region key) s
  end.

(** [GetGetAllResponse()]: nil for a message of another kind. *)
Definition GetGetAllResponse (m : v1_Message) : option GetAllResponse :=
  match m with
  | Message_GetAllResponse r => Some r
  | _ => None
  end.

(** [GetAll] (lines 133-196); [keys] is [None] when the argument is no
    slice and no array. The loop over the keys (lines 139-147) is that of
    [EncodeList]. *)
Definition GetAll (fuel : nat) (region : string) (keys : option (list (GoValue Other)))
    (s : State World)
  : option (outcome (list (GoValue Other * GoValue Other)
                     * option (list (GoValue Other * error))) * State World) :=
  match keys with
  | None => Some (Fail (errors_New "keys must be a slice or array"), s)
  | Some l =>
      match EncodeList_loop Other json_Marshal l [] with
      | Fail err => Some (Fail err, s)
      | Panic msg => Some (Panic msg, s)
      | Ret encodedKeys =>
          match doOperation World dial handshake_io authenticate_io exchange fuel
                  (Message_GetAllRequest region encodedKeys) s with
          | None => None
          | Some (Fail err, s) => Some (Fail err, s)
          | Some (Panic msg, s) => Some (Panic msg, s)
          | Some (Ret response, s) =>
              Some (GetAll_results Other json_Unmarshal Other_hashable Other_eq fmt_v
                      (GetGetAllResponse response), s)
          end
      end
  end.

End Facade.

(** ** A sample network

    A world that counts the round trips made so far. The server on port
    40404 accepts connections, the others refuse them; the handshake fails
    on transport 13; the only password is "secret"; the first round trip
    ends in an end of stream, the later ones are answered. *)
Module SampleNet.

Definition World : Type := nat.

Definition dial (p : serverConnectionProvider) (w : World) : option net_Conn * World :=
  if port p =? 40404 then (Some 7%nat, w) else (None, w).

Definition handshake_io (c : net_Conn) (w : World) : option error * World :=
  if Nat.eqb c 13 then (Some (errors_New "handshake refused"), w) else (None, w).

Definition authenticate_io (c : net_Conn) (username password : string) (w : World)
  : option error * World :=
  if String.eqb password "secret" then (None, w)
  else (Some (errors_New "authentication failed"), w).

Definition exchange (c : net_Conn) (request : v1_Message) (w : World) : Exchange * World :=
  ({| encoded := None; written := None;
      response := if Nat.eqb w 0 then inr io_EOF else inl (Message_Other "PutResponse") |},
   S w).

Definition NewPool : State World := NewPool World 0%nat.
Definition GetConnection := GetConnection World dial handshake_io authenticate_io.
Definition select_connection := select_connection World dial.
Definition setup_connection := setup_connection World handshake_io authenticate_io.
Definition doOperation := doOperation World dial handshake_io authenticate_io exchange.
Definition AddConnection := AddConnection World.
Definition AddServer := AddServer World.
Definition AddCredentials := AddCredentials World.
Definition ReturnConnection := ReturnConnection World.
Definition DiscardConnection := DiscardConnection World.

(** A pool with one server that refuses connections and one that accepts. *)
Definition two_servers : State World :=
  AddServer "b" 40404 (AddServer "a" 1 NewPool).

(** A pool whose servers all refuse connections. *)
Definition no_server : State World :=
  AddServer "b" 2 (AddServer "a" 1 NewPool).

(** A pool with three connections given to it, the handshake done. *)
Definition three_connections : State World :=
  AddConnection 3%nat true (AddConnection 2%nat true (AddConnection 1%nat true NewPool)).

(** A pool with a connection on which the handshake fails. *)
Definition bad_handshake : State World := AddConnection 13%nat false NewPool.

(** A pool with a good connection and a wrong password. *)
Definition bad_password : State World :=
  AddCredentials "user" "guess" (AddConnection 1%nat true NewPool).


(** A server that answers every request with an error. *)
Definition refusing (c : net_Conn) (request : v1_Message) (w : World) : Exchange * World :=
  ({| encoded := None; written := None;
      response := inl (Message_ErrorResponse
                         (Some {| Message := "region not found"; ErrorCode := 5 |})) |},
   S w).

(** A server that answers every request. *)
Definition answering (c : net_Conn) (request : v1_Message) (w : World) : Exchange * World :=
  ({| encoded := None; written := None;
      response := inl (Message_Other "PutResponse") |}, S w).

End SampleNet.

(** ** A sample stream
    The bytes still to come on a connection; [Read] returns at most two of
    them at a time, [io.ReadFull] fills its buffer or fails, and the sample
    varint is one byte long. *)

Module SampleStream.

Definition World : Type := list Byte.byte.

Definition net_Read (connection : net_Conn) (n : nat) (w : World)
  : (list Byte.byte * option error) * World :=
  match w with
  | [] => (([], Some io_EOF), w)
  | _ => ((take (Nat.min n 2) w, None), drop (Nat.min n 2) w)
  end.

Definition io_ReadFull (connection : net_Conn) (n : nat) (w : World)
  : (list Byte.byte * option error) * World :=
  if (n <=? length w)%nat then ((take n w, None), drop n w)
  else ((w, Some (if (length w =? 0)%nat then io_EOF else io_ErrUnexpectedEOF)), []).

Definition DecodeVarint (data : list Byte.byte) : Z * Z :=
  match data with
  | b :: _ => (Z.of_N (Byte.to_N b), 1)
  | [] => (0, 0)
  end.

Definition DecodeMessage (data : list Byte.byte) : v1_Message + error :=
  inl (Message_Other "PutResponse").

Definition maxAlloc : Z := 2 ^ 47.

Definition readRawMessage :=
  readRawMessage World net_Read io_ReadFull DecodeVarint maxAlloc.
Definition readResponse :=
  readResponse World net_Read io_ReadFull DecodeVarint DecodeMessage maxAlloc.

(** A message of three bytes after its length, and the first byte of the
    next one. *)
Definition stream : World := [Byte.x03; Byte.x0a; Byte.x0b; Byte.x0c; Byte.x02].

End SampleStream.

(** ** Sample requests
    The operations on a region over the sample types and the sample
    network, with envelopes that keep the kind of the request only. *)

Module SampleFacade.

Definition Message_PutRequest (region : string) (key value : EncodedValue) : v1_Message :=
  Message_Other "PutRequest".
Definition Message_PutIfAbsentRequest (region : string) (key value : EncodedValue)
  : v1_Message := Message_Other "PutIfAbsentRequest".
Definition Message_RemoveRequest (region : string) (key : EncodedValue) : v1_Message :=
  Message_Other "RemoveRequest".
Definition Message_GetAllRequest (region : string) (keys : list (option EncodedValue))
  : v1_Message := Message_Other "GetAllRequest".

Definition Put :=
  Put Sample.other Sample.json_Marshal SampleNet.World SampleNet.dial
    SampleNet.handshake_io SampleNet.authenticate_io SampleNet.exchange
    Message_PutRequest.
Definition PutIfAbsent :=
  PutIfAbsent Sample.other Sample.json_Marshal SampleNet.World SampleNet.dial
    SampleNet.handshake_io SampleNet.authenticate_io SampleNet.exchange
    Message_PutIfAbsentRequest.
Definition Remove :=
  Remove Sample.other Sample.json_Marshal SampleNet.World SampleNet.dial
    SampleNet.handshake_io SampleNet.authenticate_io SampleNet.exchange
    Message_RemoveRequest.
Definition GetAll :=
  GetAll Sample.other Sample.json_Marshal Sample.json_Unmarshal Sample.hashable
    Sample.eq Sample.fmt_v SampleNet.World SampleNet.dial
    SampleNet.handshake_io SampleNet.authenticate_io SampleNet.exchange
    Message_GetAllRequest.

End SampleFacade.

(** * Properties *)

(** ** Fixed-width conversions *)

Lemma to_int32_id k : in_int32 k -> to_int32 k = k.
Proof.
  unfold in_int32, to_int32. intros H.
  rewrite Z.mod_small; lia.
Qed.

Lemma to_int32_range k : in_int32 (to_int32 k).
Proof.
  unfold in_int32, to_int32.
  pose proof (Z.mod_pos_bound (k + 2 ^ 31) (2 ^ 32)). lia.
Qed.

Lemma to_int64_id k : in_int64 k -> to_int64 k = k.
Proof.
  unfold in_int64, to_int64. intros H.
  rewrite Z.mod_small; lia.
Qed.

Lemma to_uint8_id k : in_uint8 k -> to_uint8 k = k.
Proof.
  unfold in_uint8, to_uint8. intros H.
  rewrite Z.mod_small; lia.
Qed.


(** ** The value codec *)

Section CodecProperties.

Context {Other : Type}.
Variable json_Marshal : Other -> string + error.
Variable json_Unmarshal : string -> Other -> Other + error.
Variable Other_hashable : Other -> bool.
Variable Other_eq : Other -> Other -> bool.
Variable fmt_v : forall A : Type, A -> string.

Local Abbreviation EncodeValue := (EncodeValue Other json_Marshal).
Local Abbreviation DecodeValue := (DecodeValue Other json_Unmarshal fmt_v).
Local Abbreviation roundtrip := (roundtrip Other json_Marshal json_Unmarshal fmt_v).

(** Every scalar kind encodes without error. *)
Lemma EncodeValue_scalar (x : GoValue Other) :
  scalar x = true -> exists ev, EncodeValue x = Ret ev.
Proof. destruct x; simpl; intros H; try discriminate; eauto. Qed.

(** X3 (EncodeValue, DecodeValue): An [int16] comes back as an [int32] holding the same number. *)
Lemma roundtrip_int16 (k : Z) (ref : GoValue Other) :
  in_int16 k -> roundtrip (V_int16 k) ref = Ret (V_int32 k).
Proof.
  intros H. unfold roundtrip. simpl. unfold DecodeValue. simpl.
  rewrite to_int32_id; [reflexivity |].
  unfold in_int16, in_int32 in *. lia.
Qed.

(** C1, as amended: a value of type [int32], [int64], [byte], [bool],
    [float64], [float32], [[]byte] or [string] is encoded and decoded to
    itself, the same value with the same type, whatever the template; a Go
    [int] is carried in the 32-bit slot and comes back as the [int32] that
    holds its low 32 bits, hence the same number when it fits in 32 bits. *)
Theorem scalar_roundtrip (x ref : GoValue Other) :
  well_typed x ->
  (same_type_kind x = true -> roundtrip x ref = Ret x) /\
  (forall k, x = V_int k ->
     roundtrip x ref = Ret (V_int32 (to_int32 k)) /\
     (in_int32 k -> to_int32 k = k)).
Proof.
  intros Hwt. split.
  - destruct x; simpl; intros Hk; try discriminate; try reflexivity.
    unfold roundtrip. simpl. unfold DecodeValue. simpl in *.
    rewrite to_int32_id.
    + rewrite to_uint8_id; [reflexivity | assumption].
    + unfold in_uint8, in_int32 in *. lia.
  - intros k ->. split; [reflexivity | apply to_int32_id].
Qed.


(** *** The result maps of [GetAll] *)

Local Abbreviation store := (store Other Other_hashable Other_eq).
Local Abbreviation mapassign := (mapassign Other Other_eq).
Local Abbreviation holds := (holds Other Other_eq).
Local Abbreviation key_ok := (key_ok Other json_Unmarshal Other_hashable fmt_v).
Local Abbreviation GetAll_entries :=
  (GetAll_entries Other json_Unmarshal Other_hashable Other_eq fmt_v).
Local Abbreviation GetAll_failures :=
  (GetAll_failures Other json_Unmarshal Other_hashable Other_eq fmt_v).
Local Abbreviation GetAll_results :=
  (GetAll_results Other json_Unmarshal Other_hashable Other_eq fmt_v).

Lemma DecodeValue_no_panic value ref msg : DecodeValue value ref <> Panic msg.
Proof.
  unfold DecodeValue.
  destruct (GetValue value) as [[] |]; simpl; try discriminate.
  destruct ref; simpl; try discriminate.
  destruct (json_Unmarshal _ _); discriminate.
Qed.

(** Without a template a JSON key never decodes. *)
Lemma DecodeValue_json_nil j :
  DecodeValue (Some {| Value := Some (EncodedValue_JsonObjectResult j) |}) V_nil
  = Fail (errors_New "json: Unmarshal(nil)").
Proof. reflexivity. Qed.

Lemma mapassign_holds_new {V : Type} (m : list (GoValue Other * V)) k v :
  holds (mapassign m k v) k.
Proof.
  induction m as [| [k' v'] m IH]; simpl.
  - exists k, v. split; left; reflexivity.
  - destruct (go_eq Other Other_eq k' k) eqn:E.
    + exists k', v. split; [left; reflexivity | right; exact E].
    + destruct IH as (k2 & v2 & Hin & H).
      exists k2, v2. split; [right; exact Hin | exact H].
Qed.

Lemma mapassign_holds_old {V : Type} (m : list (GoValue Other * V)) k v k0 :
  holds m k0 -> holds (mapassign m k v) k0.
Proof.
  induction m as [| [k' v'] m IH]; intros (k2 & v2 & Hin & H).
  - destruct Hin.
  - simpl. destruct (go_eq Other Other_eq k' k) eqn:E.
    + destruct Hin as [Heq | Hin].
      * inversion Heq; subst. exists k2, v. split; [left; reflexivity | exact H].
      * exists k2, v2. split; [right; exact Hin | exact H].
    + destruct Hin as [Heq | Hin].
      * inversion Heq; subst. exists k2, v2. split; [left; reflexivity | exact H].
      * destruct IH as (k3 & v3 & Hin3 & H3).
        { exists k2, v2. split; assumption. }
        exists k3, v3. split; [right; exact Hin3 | exact H3].
Qed.







(** *** Lists and tables *)

Local Abbreviation encodable := (encodable Other json_Marshal).
Local Abbreviation encoded_as := (encoded_as Other json_Marshal).
Local Abbreviation EncodeList_loop := (EncodeList_loop Other json_Marshal).
Local Abbreviation EncodeValueList := (EncodeValueList Other json_Marshal).
Local Abbreviation EncodeTable_range := (EncodeTable_range Other json_Marshal).
Local Abbreviation EncodeTable_order := (EncodeTable_order Other json_Marshal).
Local Abbreviation EncodeTable := (EncodeTable Other json_Marshal).

Lemma EncodeValue_no_panic x msg : EncodeValue x <> Panic msg.
Proof. destruct x; simpl; try discriminate. destruct (json_Marshal k); discriminate. Qed.

Lemma EncodeList_loop_ok (l : list (GoValue Other)) :
  Forall encodable l ->
  forall acc, exists evs,
    EncodeList_loop l acc = Ret (acc ++ evs)%list /\ Forall2 encoded_as l evs.
Proof.
  induction 1 as [| x l [e He] Hl IH]; intros acc.
  - exists []. simpl. rewrite app_nil_r. split; constructor.
  - simpl. rewrite He.
    destruct (IH (acc ++ [Some e])%list) as (evs & Hrun & Hall).
    exists (Some e :: evs). rewrite Hrun, <- app_assoc. split; [reflexivity |].
    constructor; [exists e; split; [exact He | reflexivity] | exact Hall].
Qed.

Lemma EncodeList_loop_inv (l : list (GoValue Other)) :
  forall acc r, EncodeList_loop l acc = Ret r -> Forall encodable l.
Proof.
  induction l as [| x l IH]; intros acc r Hrun; [constructor |].
  simpl in Hrun. destruct (EncodeValue x) as [e | err | msg] eqn:He; try discriminate.
  constructor; [exists e; exact He | exact (IH _ _ Hrun)].
Qed.

Lemma EncodeList_loop_no_panic (l : list (GoValue Other)) :
  forall acc msg, EncodeList_loop l acc <> Panic msg.
Proof.
  induction l as [| x l IH]; intros acc msg; simpl; [discriminate |].
  destruct (EncodeValue x) as [e | err | msg'] eqn:He; try discriminate.
  - apply IH.
  - exfalso. exact (EncodeValue_no_panic _ _ He).
Qed.

Lemma EncodeValueList_ok (l : list (GoValue Other)) :
  Forall encodable l ->
  exists evs, EncodeValueList (Some l) = Ret {| Element := evs |}
              /\ Forall2 encoded_as l evs.
Proof.
  intros H. destruct (EncodeList_loop_ok l H []) as (evs & Hrun & Hall).
  exists evs. unfold EncodeValueList, EncodeList. rewrite Hrun.
  split; [reflexivity | exact Hall].
Qed.

Lemma EncodeValueList_cases (l : list (GoValue Other)) :
  (exists r, EncodeValueList (Some l) = Ret r /\ Forall encodable l)
  \/ (exists err, EncodeValueList (Some l) = Fail err).
Proof.
  unfold EncodeValueList, EncodeList.
  destruct (EncodeList_loop l []) as [r | err | msg] eqn:Hrun.
  - left. eexists. split; [reflexivity | exact (EncodeList_loop_inv _ _ _ Hrun)].
  - right. eexists. reflexivity.
  - exfalso. exact (EncodeList_loop_no_panic _ _ _ Hrun).
Qed.

(** The loop of [EncodeTable], started at column [idx] with room for the
    columns to come: it fills the slots from [idx] on, one per entry and in
    the order of the entries, and leaves the slots before [idx] alone. *)
Lemma EncodeTable_range_ok (order : list (string * list (GoValue Other))) :
  forall (idx : nat) columnNames columns,
    length columnNames = length columns ->
    (idx + length order <= length columnNames)%nat ->
    Forall (fun kv => Forall encodable (snd kv)) order ->
    exists columnNames' columns',
      EncodeTable_range order idx columnNames columns = Ret (columnNames', columns') /\
      length columnNames' = length columnNames /\
      length columns' = length columns /\
      (forall j k vs, order !! j = Some (k, vs) ->
         columnNames' !! (idx + j)%nat = Some k /\
         exists evs, columns' !! (idx + j)%nat = Some (Some {| Element := evs |})
                     /\ Forall2 encoded_as vs evs) /\
      (forall j, (j < idx)%nat ->
         columnNames' !! j = columnNames !! j /\ columns' !! j = columns !! j).
Proof.
  induction order as [| [k v] rest IH]; intros idx names cols Hlen Hroom Hall.
  - exists names, cols. simpl.
    split; [reflexivity |]. split; [reflexivity |]. split; [reflexivity |].
    split; [intros j k vs Hj; discriminate | intros j Hj; split; reflexivity].
  - simpl in Hroom. inversion Hall as [| ? ? Hv Hrest]; subst. simpl in Hv.
    destruct (EncodeValueList_ok v Hv) as (evs & Henc & Hevs).
    simpl. rewrite Henc.
    destruct (decide (idx < length names)%nat) as [Hin |]; [| lia].
    destruct (decide (idx < length cols)%nat) as [Hin' |]; [| lia].
    destruct (IH (idx + 1)%nat (<[idx := k]> names)
                 (<[idx := Some {| Element := evs |}]> cols))
      as (names' & cols' & Hrun & Hn & Hc & Hnew & Hold).
    { rewrite !length_insert. exact Hlen. }
    { rewrite length_insert. lia. }
    { exact Hrest. }
    exists names', cols'. rewrite !length_insert in *.
    split; [exact Hrun |]. split; [exact Hn |]. split; [exact Hc |]. split.
    + intros [| j] k' vs Hj.
      * simpl in Hj. inversion Hj; subst. rewrite Nat.add_0_r.
        destruct (Hold idx ltac:(lia)) as [Hn' Hc']. rewrite Hn', Hc'.
        rewrite !list_lookup_insert_eq by lia.
        split; [reflexivity |]. exists evs. split; [reflexivity | exact Hevs].
      * simpl in Hj. replace (idx + S j)%nat with (idx + 1 + j)%nat by lia.
        exact (Hnew j k' vs Hj).
    + intros j Hj. destruct (Hold j ltac:(lia)) as [Hn' Hc']. rewrite Hn', Hc'.
      rewrite !list_lookup_insert_ne by lia. split; reflexivity.
Qed.

(** With room for its columns the loop does not panic, and a value that
    does not encode makes it return an error. *)
Lemma EncodeTable_range_fails (order : list (string * list (GoValue Other))) :
  forall (idx : nat) columnNames columns,
    length columnNames = length columns ->
    (idx + length order <= length columnNames)%nat ->
    Exists (fun kv => ~ Forall encodable (snd kv)) order ->
    exists err, EncodeTable_range order idx columnNames columns = Fail err.
Proof.
  induction order as [| [k v] rest IH]; intros idx names cols Hlen Hroom Hex.
  - inversion Hex.
  - simpl in Hroom. simpl.
    destruct (decide (idx < length names)%nat) as [Hin |]; [| lia].
    destruct (EncodeValueList_cases v) as [(r & Henc & Hv) | (err & Henc)];
      rewrite Henc; [| eauto].
    destruct (decide (idx < length cols)%nat) as [Hin' |]; [| lia].
    apply IH.
    + rewrite !length_insert. exact Hlen.
    + rewrite length_insert. lia.
    + inversion Hex as [? ? Hhead | ? ? Htail]; subst; [| exact Htail].
      simpl in Hhead. contradiction.
Qed.

(** C7, as amended: for every finite mapping from column name to value
    sequence whose values all encode, and whatever order the map is walked
    in, [EncodeTable] returns two parallel arrays of the length of the mapping:
    the column names, which are the keys of the mapping in some
    order, and for every index the element-wise encoding, in the order of
    the column, of the sequence stored under the name at that index. When
    a value of some column does not encode, [EncodeTable] returns an error
    and no table. *)
Theorem EncodeTable_parallel_columns (table : gmap string (list (GoValue Other)))
    (order : list (string * list (GoValue Other))) :
  order ≡ₚ map_to_list table ->
  ((forall name vs, table !! name = Some vs -> Forall encodable vs) ->
   exists t,
     EncodeTable_order table order = Ret t /\
     length (FieldName t) = size table /\
     length (Row t) = size table /\
     FieldName t ≡ₚ (map_to_list table).*1 /\
     (forall (i : nat) name, FieldName t !! i = Some name ->
        exists vs evs,
          table !! name = Some vs /\
          Row t !! i = Some (Some {| Element := evs |}) /\
          Forall2 encoded_as vs evs))
  /\
  ((exists name vs, table !! name = Some vs /\ ~ Forall encodable vs) ->
   exists err, EncodeTable_order table order = Fail err).
Proof.
  intros Hperm.
  assert (Hlen : length order = size table).
  { rewrite Hperm. apply length_map_to_list. }
  split.
  - intros Hall.
    destruct (EncodeTable_range_ok order 0
                (replicate (size table) "") (replicate (size table) None))
      as (names & cols & Hrun & Hn & Hc & Hnew & _).
    { rewrite !length_replicate. reflexivity. }
    { rewrite length_replicate. lia. }
    { apply List.Forall_forall. intros [k vs] Hin. simpl.
      apply (Hall k). apply elem_of_map_to_list. rewrite <- Hperm.
      apply list_elem_of_In. exact Hin. }
    rewrite length_replicate in Hn. rewrite length_replicate in Hc.
    exists {| FieldName := names; Row := cols |}.
    unfold EncodeTable_order. rewrite Hrun. simpl.
    assert (Hnames : names = order.*1).
    { apply list_eq. intros i. rewrite list_lookup_fmap.
      destruct (order !! i) as [[k vs] |] eqn:Hi; simpl.
      - exact (proj1 (Hnew i k vs Hi)).
      - apply lookup_ge_None. apply lookup_ge_None in Hi. lia. }
    split; [reflexivity |]. split; [exact Hn |]. split; [exact Hc |]. split.
    + rewrite Hnames, Hperm. reflexivity.
    + intros i name Hi.
      assert (Hlt : (i < length order)%nat).
      { apply lookup_lt_Some in Hi. lia. }
      apply lookup_lt_is_Some in Hlt. destruct Hlt as [[k vs] Hkv].
      destruct (Hnew i k vs Hkv) as [Hk (evs & Hcol & Hevs)]. simpl in Hk, Hcol.
      rewrite Hk in Hi. inversion Hi; subst.
      exists vs, evs. split; [| split; assumption].
      apply elem_of_map_to_list. rewrite <- Hperm.
      exact (list_elem_of_lookup_2 _ _ _ Hkv).
  - intros (name & vs & Hvs & Hbad).
    destruct (EncodeTable_range_fails order 0
                (replicate (size table) "") (replicate (size table) None))
      as (err & Hrun).
    { rewrite !length_replicate. reflexivity. }
    { rewrite length_replicate. lia. }
    { apply List.Exists_exists. exists (name, vs). split; [| exact Hbad].
      apply list_elem_of_In. rewrite Hperm. apply elem_of_map_to_list. exact Hvs. }
    exists err. unfold EncodeTable_order. rewrite Hrun. reflexivity.
Qed.

(** Some order exists, so [EncodeTable] always has a result. *)
Lemma EncodeTable_total (table : gmap string (list (GoValue Other))) :
  exists result, EncodeTable table result.
Proof.
  exists (EncodeTable_order table (map_to_list table)).
  exists (map_to_list table). split; reflexivity.
Qed.

(** *** More on values and lists *)

Local Abbreviation DecodeValueList_loop :=
  (DecodeValueList_loop Other json_Unmarshal fmt_v).
Local Abbreviation DecodeValueList := (DecodeValueList Other json_Unmarshal fmt_v).
Local Abbreviation decodedFunctionResults :=
  (decodedFunctionResults Other json_Unmarshal fmt_v).
Local Abbreviation EncodeList := (EncodeList Other json_Marshal).

(** X1 (EncodeValue): [EncodeValue] never panics, and it fails exactly on a value outside
    its type switch that the JSON encoder rejects, with the error of the
    encoder. *)
Theorem EncodeValue_fails_only_in_json (x : GoValue Other) :
  (forall msg, EncodeValue x <> Panic msg) /\
  (forall err, EncodeValue x = Fail err <->
               exists o, x = V_other o /\ json_Marshal o = inr err).
Proof.
  split; [intros msg; apply EncodeValue_no_panic |].
  intros err. split.
  - destruct x; simpl; try discriminate.
    destruct (json_Marshal k) as [j | e] eqn:Hm; [discriminate |].
    intros H. inversion H; subst. eauto.
  - intros (o & -> & Hm). simpl. rewrite Hm. reflexivity.
Qed.

Lemma DecodeValue_without_json (value : option EncodedValue) (ref : GoValue Other) :
  is_json value = false -> DecodeValue value ref = DecodeValue value V_nil.
Proof.
  unfold is_json, DecodeValue. intros Hj.
  destruct (GetValue value) as [[] |]; try discriminate; reflexivity.
Qed.

(** X2 (DecodeValue): A value that does not carry the JSON tag decodes without looking at
    the template, and never to an error unless its tag is unknown; an
    unset value, a nil pointer and the null tag decode to nil. *)
Theorem DecodeValue_template_only_for_json (value : option EncodedValue)
    (ref : GoValue Other) :
  is_json value = false ->
  DecodeValue value ref = DecodeValue value V_nil /\
  ((forall t, GetValue value <> Some (EncodedValue_Unknown t)) ->
   exists v, DecodeValue value ref = Ret v) /\
  (GetValue value = None \/ GetValue value = Some EncodedValue_NullResult ->
   DecodeValue value ref = Ret V_nil).
Proof.
  unfold is_json, DecodeValue. intros Hj.
  destruct (GetValue value) as [[] |]; try discriminate;
    (split; [reflexivity |]);
    (split; [intros H; try (eexists; reflexivity) |]);
    try (intros [H | H]; discriminate); try (intros; reflexivity).
  exfalso. eapply H. reflexivity.
Qed.

(** With a template that is nil or not a pointer, a value that carries
    the JSON tag never decodes. *)
Lemma DecodeValue_json_without_pointer (value : option EncodedValue) (ref : GoValue Other) :
  is_json value = true ->
  (forall o, ref <> V_other o) ->
  exists err, DecodeValue value ref = Fail err.
Proof.
  unfold is_json, DecodeValue. intros Hj Href.
  destruct (GetValue value) as [[] |]; try discriminate.
  destruct ref; simpl; eauto. exfalso. eapply Href. reflexivity.
Qed.

(** X4 (EncodeList): [EncodeList]: an argument that is no slice or array is refused;
    a sequence whose values all encode becomes the sequence of their
    encodings, in order; the first value that does not encode ends the
    encoding with its error. *)
Theorem EncodeList_elementwise :
  EncodeList None = Fail (errors_New "argument must be a slice or array") /\
  (forall l : list (GoValue Other),
     Forall encodable l ->
     exists evs, EncodeList (Some l) = Ret evs /\ Forall2 encoded_as l evs) /\
  (forall (l1 l2 : list (GoValue Other)) x err,
     Forall encodable l1 -> EncodeValue x = Fail err ->
     EncodeList (Some (l1 ++ x :: l2)%list) = Fail err).
Proof.
  split; [reflexivity |]. split.
  - intros l Hl. destruct (EncodeList_loop_ok l Hl []) as (evs & Hrun & Hall).
    exists evs. split; [exact Hrun | exact Hall].
  - intros l1 l2 x err Hl1 Hx. unfold EncodeList.
    generalize (@nil (option EncodedValue)).
    induction Hl1 as [| y l1 [e He] Hl1 IH]; intros acc; simpl.
    + rewrite Hx. reflexivity.
    + rewrite He. apply IH.
Qed.

Lemma same_type_roundtrip (x ref : GoValue Other) :
  well_typed x -> same_type_kind x = true -> roundtrip x ref = Ret x.
Proof.
  intros Hwt Hk. destruct x; try discriminate; try reflexivity.
  unfold roundtrip. simpl. unfold DecodeValue. simpl in *.
  rewrite to_int32_id.
  - rewrite to_uint8_id; [reflexivity | assumption].
  - unfold in_uint8, in_int32 in *. lia.
Qed.

(** Values whose tag gives their Go type back decode one by one to what
    was encoded, whatever the template. *)
Lemma DecodeValueList_loop_roundtrip (l : list (GoValue Other)) :
  Forall (fun v => same_type_kind v = true /\ well_typed v) l ->
  forall evs ref,
    Forall2 encoded_as l evs ->
    DecodeValueList_loop evs ref = Ret (map Some l, ref).
Proof.
  induction 1 as [| v l [Hk Hwt] Hl IH]; intros evs ref Henc.
  - inversion Henc; subst. reflexivity.
  - inversion Henc as [| ? ev ? evs' (e & He & ->) Hrest]; subst.
    pose proof (same_type_roundtrip v ref Hwt Hk) as Hrt.
    unfold roundtrip in Hrt. rewrite He in Hrt. simpl in Hrt.
    simpl. rewrite Hrt.
    assert (Hj : is_json (Some e) = false).
    { destruct v; try discriminate; simpl in He; inversion He; reflexivity. }
    rewrite Hj, (IH evs' ref Hrest). reflexivity.
Qed.

(** X5 (EncodeValueList, DecodeValueList): The round trip of a list: a sequence of values of type [int32],
    [int64], [byte], [bool], [float64], [float32], [[]byte] or [string]
    is encoded by [EncodeValueList] and decoded by [DecodeValueList] to
    itself, whatever the template. *)
Theorem list_roundtrip (l : list (GoValue Other)) :
  Forall (fun v => same_type_kind v = true /\ well_typed v) l ->
  exists evl,
    EncodeValueList (Some l) = Ret evl /\
    length (Element evl) = length l /\
    forall ref, DecodeValueList (Some evl) ref = Ret l.
Proof.
  intros Hl.
  assert (Henc : Forall encodable l).
  { eapply List.Forall_impl; [| exact Hl]. intros v [Hk _].
    apply EncodeValue_scalar. destruct v; try discriminate; reflexivity. }
  destruct (EncodeValueList_ok l Henc) as (evs & Hrun & Hall).
  exists {| Element := evs |}. split; [exact Hrun |].
  split; [symmetry; exact (Forall2_length _ _ _ Hall) |].
  intros ref. unfold DecodeValueList. simpl.
  rewrite (DecodeValueList_loop_roundtrip l Hl evs ref Hall).
  rewrite map_map. simpl. rewrite map_id. reflexivity.
Qed.

Lemma DecodeValueList_loop_slots (l : list (option EncodedValue)) :
  forall ref slots final,
    DecodeValueList_loop l ref = Ret (slots, final) ->
    length slots = length l /\
    forall (i : nat) v, l !! i = Some v ->
      if is_json v then slots !! i = Some None
      else exists val, slots !! i = Some (Some val) /\ DecodeValue v V_nil = Ret val.
Proof.
  induction l as [| v l IH]; intros ref slots final Hrun.
  - inversion Hrun; subst. split; [reflexivity |]. intros i v Hi. discriminate.
  - simpl in Hrun.
    destruct (DecodeValue v ref) as [val | err | msg] eqn:Hv; try discriminate.
    destruct (is_json v) eqn:Hj.
    + destruct (DecodeValueList_loop l val) as [[slots' final'] | |] eqn:Hrest;
        try discriminate.
      inversion Hrun; subst. destruct (IH _ _ _ Hrest) as [Hlen Hall].
      split; [simpl; rewrite Hlen; reflexivity |].
      intros [| i] v' Hi; simpl in Hi.
      * inversion Hi; subst. rewrite Hj. reflexivity.
      * exact (Hall i v' Hi).
    + destruct (DecodeValueList_loop l ref) as [[slots' final'] | |] eqn:Hrest;
        try discriminate.
      inversion Hrun; subst. destruct (IH _ _ _ Hrest) as [Hlen Hall].
      split; [simpl; rewrite Hlen; reflexivity |].
      intros [| i] v' Hi; simpl in Hi.
      * inversion Hi; subst. rewrite Hj. exists val. split; [reflexivity |].
        rewrite <- (DecodeValue_without_json v' ref Hj). exact Hv.
      * exact (Hall i v' Hi).
Qed.

Lemma DecodeValueList_loop_app (l1 l2 : list (option EncodedValue)) :
  forall ref slots final,
    DecodeValueList_loop (l1 ++ l2) ref = Ret (slots, final) ->
    exists s1 ref1 s2,
      DecodeValueList_loop l1 ref = Ret (s1, ref1) /\
      DecodeValueList_loop l2 ref1 = Ret (s2, final) /\
      slots = (s1 ++ s2)%list.
Proof.
  induction l1 as [| v l1 IH]; intros ref slots final Hrun.
  - exists [], ref, slots. repeat split. exact Hrun.
  - simpl in Hrun. simpl.
    destruct (DecodeValue v ref) as [val | err | msg]; try discriminate.
    destruct (is_json v).
    + destruct (DecodeValueList_loop (l1 ++ l2) val) as [[slots' final'] | |] eqn:Hrest;
        try discriminate.
      inversion Hrun; subst.
      destruct (IH _ _ _ Hrest) as (s1 & ref1 & s2 & H1 & H2 & ->).
      rewrite H1. exists (None :: s1), ref1, s2. repeat split. exact H2.
    + destruct (DecodeValueList_loop (l1 ++ l2) ref) as [[slots' final'] | |] eqn:Hrest;
        try discriminate.
      inversion Hrun; subst.
      destruct (IH _ _ _ Hrest) as (s1 & ref1 & s2 & H1 & H2 & ->).
      rewrite H1. exists (Some val :: s1), ref1, s2. repeat split. exact H2.
Qed.

(** Elements without the JSON tag leave the template as it is. *)
Lemma DecodeValueList_loop_no_json (l : list (option EncodedValue)) :
  Forall (fun e => is_json e = false) l ->
  forall ref slots final,
    DecodeValueList_loop l ref = Ret (slots, final) -> final = ref.
Proof.
  induction 1 as [| v l Hv Hl IH]; intros ref slots final Hrun.
  - inversion Hrun. reflexivity.
  - simpl in Hrun. rewrite Hv in Hrun.
    destruct (DecodeValue v ref) as [val | err | msg]; try discriminate.
    destruct (DecodeValueList_loop l ref) as [[slots' final'] | |] eqn:Hrest;
      try discriminate.
    inversion Hrun; subst. exact (IH _ _ _ Hrest).
Qed.

(** X6 (DecodeValueList): The list that [DecodeValueList] returns has
    one value for each element; an element without the JSON tag is decoded
    on its own, and all the positions of elements with the JSON tag hold
    one and the same object, the template: it is what [DecodeValue] made
    of the last element with the JSON tag, unmarshalled into the template
    as the loop over the elements before it left it, which is the template
    as it was passed in when none of them carries the JSON tag. *)
Theorem DecodeValueList_shares_template (lst : option EncodedValueList)
    (ref : GoValue Other) vals :
  DecodeValueList lst ref = Ret vals ->
  length vals = length (match lst with Some l => Element l | None => [] end) /\
  exists final,
    (forall (i : nat) v,
       (match lst with Some l => Element l | None => [] end) !! i = Some v ->
       if is_json v then vals !! i = Some final
       else exists val, vals !! i = Some val /\ DecodeValue v V_nil = Ret val) /\
    (forall before v after,
       (match lst with Some l => Element l | None => [] end)
       = (before ++ v :: after)%list ->
       is_json v = true ->
       Forall (fun e => is_json e = false) after ->
       exists slots ref',
         DecodeValueList_loop before ref = Ret (slots, ref') /\
         (Forall (fun e => is_json e = false) before -> ref' = ref) /\
         DecodeValue v ref' = Ret final).
Proof.
  unfold DecodeValueList. intros Hrun.
  destruct (DecodeValueList_loop (match lst with Some l => Element l | None => [] end) ref)
    as [[slots final] | |] eqn:Hloop; try discriminate.
  inversion Hrun; subst. destruct (DecodeValueList_loop_slots _ _ _ _ Hloop) as [Hlen Hall].
  split; [rewrite length_map; exact Hlen |].
  exists final. split.
  - intros i v Hi. specialize (Hall i v Hi).
    rewrite list_lookup_fmap.
    destruct (is_json v).
    + rewrite Hall. reflexivity.
    + destruct Hall as (val & -> & Hval). exists val. split; [reflexivity | exact Hval].
  - intros before v after Heq Hj Hafter. rewrite Heq in Hloop.
    destruct (DecodeValueList_loop_app before (v :: after) _ _ _ Hloop)
      as (s1 & ref1 & s2 & H1 & H2 & _).
    exists s1, ref1. split; [exact H1 |]. split.
    + intros Hbefore. exact (DecodeValueList_loop_no_json before Hbefore _ _ _ H1).
    + simpl in H2. rewrite Hj in H2.
      destruct (DecodeValue v ref1) as [val | err | msg]; try discriminate.
      destruct (DecodeValueList_loop after val) as [[slots' final'] | |] eqn:Hrest;
        try discriminate.
      inversion H2; subst.
      rewrite (DecodeValueList_loop_no_json after Hafter _ _ _ Hrest). reflexivity.
Qed.

(** X7 (decodedFunctionResults): [decodedFunctionResults] decodes the results one by one without a
    template: when they all decode, it returns their values in order; a
    result with the JSON tag, which needs a template, makes it fail. *)
Theorem decodedFunctionResults_elementwise (results : list (option EncodedValue)) :
  (forall values,
     Forall2 (fun entry value => DecodeValue entry V_nil = Ret value) results values ->
     decodedFunctionResults results = Ret values) /\
  (Exists (fun entry => is_json entry = true) results ->
   exists err, decodedFunctionResults results = Fail err).
Proof.
  split.
  - induction 1 as [| entry value results values He Hrest IH]; [reflexivity |].
    simpl. rewrite He, IH. reflexivity.
  - induction results as [| entry results IH]; intros Hex; [inversion Hex |].
    simpl.
    destruct (DecodeValue entry V_nil) as [value | err | msg] eqn:He.
    + inversion Hex as [? ? Hj | ? ? Hrest]; subst.
      * destruct (DecodeValue_json_without_pointer entry V_nil Hj) as (err & Herr);
          [discriminate | congruence].
      * destruct (IH Hrest) as (err & ->). eauto.
    + eauto.
    + exfalso. exact (DecodeValue_no_panic _ _ _ He).
Qed.

(** *** Batches *)

Local Abbreviation PutAll_failures :=
  (PutAll_failures Other json_Unmarshal Other_hashable Other_eq fmt_v).
Local Abbreviation PutAll_results :=
  (PutAll_results Other json_Unmarshal Other_hashable Other_eq fmt_v).

Lemma holds_nonempty {V : Type} (m : list (GoValue Other * V)) k :
  holds m k -> (length m =? 0)%nat = false.
Proof. intros (k' & v & Hin & _). destruct m; [destruct Hin | reflexivity]. Qed.

(** When the keys and the values of all entries decode, the loop over the
    entries leaves the failures as they are. *)
Lemma GetAll_entries_all_decoded (entries : list Entry) :
  Forall (fun entry => key_ok (Entry_Key entry)
                       /\ exists v, DecodeValue (Entry_Value entry) V_nil = Ret v)
    entries ->
  forall decodedEntries decodedFailures,
  exists decodedEntries',
    GetAll_entries entries decodedEntries decodedFailures
      = Ret (decodedEntries', decodedFailures) /\
    (forall k, holds decodedEntries k -> holds decodedEntries' k) /\
    (forall entry key, In entry entries ->
       DecodeValue (Entry_Key entry) V_nil = Ret key -> holds decodedEntries' key).
Proof.
  induction 1 as [| entry rest [(key & Hkey & Hhash) (v & Hv)] Hrest IH]; intros de df.
  - exists de. split; [reflexivity |]. split; [auto | intros ? ? []].
  - simpl. rewrite Hkey, Hv. unfold store. rewrite Hhash.
    destruct (IH (mapassign de key v) df) as (de' & Hrun & Hde & Hall).
    exists de'. split; [exact Hrun |].
    split; [intros k Hk; apply Hde, mapassign_holds_old, Hk |].
    intros entry' key' [<- | Hin] Hkey'.
    + rewrite Hkey in Hkey'. inversion Hkey'; subst. apply Hde, mapassign_holds_new.
    + apply (Hall entry'); assumption.
Qed.

(** X8 (GetAll): [GetAll] never returns a failure map that is there
    but empty; when the key of every entry decodes to a value that a map
    can hold, the value of every entry decodes and the server reports no
    failure, the failure map is nil and every key is in the success map. *)
Theorem GetAll_failures_nil_when_none (r : GetAllResponse) :
  (forall decodedEntries decodedFailures,
     GetAll_results (Some r) = Ret (decodedEntries, Some decodedFailures) ->
     decodedFailures <> []) /\
  (Forall (fun entry => key_ok (Entry_Key entry)
                        /\ exists v, DecodeValue (Entry_Value entry) V_nil = Ret v)
     (Entries r) ->
   Failures r = [] ->
   exists decodedEntries,
     GetAll_results (Some r) = Ret (decodedEntries, None) /\
     forall entry key, In entry (Entries r) ->
       DecodeValue (Entry_Key entry) V_nil = Ret key -> holds decodedEntries key).
Proof.
  split.
  - intros de df. unfold GetAll_results.
    destruct (GetAll_entries (Entries r) [] []) as [[de1 df1] | |]; try discriminate.
    destruct (GetAll_failures (Failures r) df1) as [df2 | |]; try discriminate.
    destruct df2 as [| kv df2]; simpl; [discriminate |].
    intros H. inversion H; subst. discriminate.
  - intros Hall Hnone.
    destruct (GetAll_entries_all_decoded (Entries r) Hall [] []) as (de & Hrun & _ & Hkeys).
    exists de. unfold GetAll_results. rewrite Hrun, Hnone. simpl.
    split; [reflexivity | exact Hkeys].
Qed.

Lemma PutAll_failures_complete (failedKeys : list KeyedError) :
  Forall (fun k => key_ok (KeyedError_Key k) /\ KeyedError_Error k <> None) failedKeys ->
  forall failures,
  exists failures',
    PutAll_failures failedKeys failures = Ret failures' /\
    (forall k, holds failures k -> holds failures' k) /\
    (forall k key, In k failedKeys ->
       DecodeValue (KeyedError_Key k) V_nil = Ret key -> holds failures' key).
Proof.
  induction 1 as [| k rest [(key & Hkey & Hhash) Herr] Hrest IH]; intros df.
  - exists df. split; [reflexivity |]. split; [auto | intros ? ? []].
  - simpl. rewrite Hkey.
    destruct (KeyedError_Error k) as [e |]; [| congruence].
    unfold store. rewrite Hhash.
    match goal with
    | |- context [mapassign df key ?e] =>
        destruct (IH (mapassign df key e)) as (df' & Hrun & Hdf & Hall)
    end.
    exists df'. split; [exact Hrun |].
    split; [intros k0 Hk; apply Hdf, mapassign_holds_old, Hk |].
    intros k' key' [<- | Hin] Hkey'.
    + rewrite Hkey in Hkey'. inversion Hkey'; subst. apply Hdf, mapassign_holds_new.
    + apply (Hall k'); assumption.
Qed.

Lemma PutAll_failures_key_failure (before after : list KeyedError) (k : KeyedError) err :
  Forall (fun k => key_ok (KeyedError_Key k) /\ KeyedError_Error k <> None) before ->
  DecodeValue (KeyedError_Key k) V_nil = Fail err ->
  forall failures,
    PutAll_failures (before ++ k :: after) failures
    = Fail (errors_New ("unable to decode failed PutAll response key: " ++ Error err)).
Proof.
  intros Hbefore Hfail.
  induction Hbefore as [| k0 rest [(key & Hkey & Hhash) Herr] Hrest IH]; intros df.
  - simpl. rewrite Hfail. reflexivity.
  - simpl. rewrite Hkey.
    destruct (KeyedError_Error k0) as [e |]; [| congruence].
    unfold store. rewrite Hhash. apply IH.
Qed.

Lemma PutAll_failures_skip (before rest : list KeyedError) :
  Forall (fun k => key_ok (KeyedError_Key k) /\ KeyedError_Error k <> None) before ->
  forall failures,
  exists failures',
    PutAll_failures (before ++ rest) failures = PutAll_failures rest failures'.
Proof.
  induction 1 as [| k0 before [(key & Hkey & Hhash) Herr] Hbefore IH]; intros df.
  - exists df. reflexivity.
  - simpl. rewrite Hkey.
    destruct (KeyedError_Error k0) as [e |]; [| congruence].
    unfold store. rewrite Hhash. apply IH.
Qed.

(** X9 (PutAll): What [PutAll] makes of the response: no failed key, or
    a response of another kind, gives no failure map at all; failed keys
    that all decode to values that a map can hold and all carry their
    error are all in the failure map, which is then there; the first
    failed key that does not decode turns the whole call into an error;
    the first that comes without its error, and the first that decodes to
    a value that a map cannot hold, a slice of bytes, end the call in a
    panic. *)
Theorem PutAll_failures_reported :
  PutAll_results None = Ret None /\
  PutAll_results (Some {| FailedKeys := [] |}) = Ret None /\
  (forall r,
     FailedKeys r <> [] ->
     Forall (fun k => key_ok (KeyedError_Key k) /\ KeyedError_Error k <> None)
       (FailedKeys r) ->
     exists failures,
       PutAll_results (Some r) = Ret (Some failures) /\
       forall k key, In k (FailedKeys r) ->
         DecodeValue (KeyedError_Key k) V_nil = Ret key -> holds failures key) /\
  (forall r before k after err,
     FailedKeys r = (before ++ k :: after)%list ->
     Forall (fun k => key_ok (KeyedError_Key k) /\ KeyedError_Error k <> None) before ->
     DecodeValue (KeyedError_Key k) V_nil = Fail err ->
     PutAll_results (Some r)
     = Fail (errors_New ("unable to decode failed PutAll response key: " ++ Error err))) /\
  (forall r before k after key,
     FailedKeys r = (before ++ k :: after)%list ->
     Forall (fun k => key_ok (KeyedError_Key k) /\ KeyedError_Error k <> None) before ->
     DecodeValue (KeyedError_Key k) V_nil = Ret key ->
     (KeyedError_Error k = None -> PutAll_results (Some r) = Panic nil_dereference) /\
     (KeyedError_Error k <> None -> hashable Other Other_hashable key = false ->
      PutAll_results (Some r) = Panic unhashable)).
Proof.
  split; [reflexivity |]. split; [reflexivity |]. split; [| split].
  - intros r Hne Hall.
    destruct (PutAll_failures_complete (FailedKeys r) Hall []) as (f & Hrun & _ & Hkeys).
    exists f. unfold PutAll_results. rewrite Hrun.
    destruct (FailedKeys r) as [| k rest] eqn:Hk; [congruence |].
    inversion Hall as [| ? ? [(key & Hkey & _) _] _]; subst.
    rewrite (holds_nonempty f key (Hkeys k key (or_introl eq_refl) Hkey)).
    split; [reflexivity | exact Hkeys].
  - intros r before k after err Heq Hbefore Hfail.
    unfold PutAll_results. rewrite Heq.
    rewrite (PutAll_failures_key_failure before after k err Hbefore Hfail).
    reflexivity.
  - intros r before k after key Heq Hbefore Hkey.
    destruct (PutAll_failures_skip before (k :: after) Hbefore []) as (df & Hskip).
    unfold PutAll_results. rewrite Heq, Hskip. simpl. rewrite Hkey.
    split.
    + intros ->. reflexivity.
    + intros He Hhash. destruct (KeyedError_Error k) as [e |]; [| congruence].
      unfold store. rewrite Hhash. reflexivity.
Qed.

(** *** The round trip of a table *)

Local Abbreviation QueryTableResult_columns :=
  (QueryTableResult_columns Other json_Unmarshal fmt_v).
Local Abbreviation QueryTableResult_table :=
  (QueryTableResult_table Other json_Unmarshal fmt_v).

Lemma DecodeValueList_encoded (vs : list (GoValue Other)) evs ref :
  Forall (fun v => same_type_kind v = true /\ well_typed v) vs ->
  Forall2 encoded_as vs evs ->
  DecodeValueList (Some {| Element := evs |}) ref = Ret vs.
Proof.
  intros Hvs Henc. unfold DecodeValueList. simpl.
  rewrite (DecodeValueList_loop_roundtrip vs Hvs evs ref Henc).
  rewrite map_map. simpl. rewrite map_id. reflexivity.
Qed.

(** The loop of [QueryTableResult] on columns that were encoded from the
    entries of a table, read from index [i] on. *)
Lemma QueryTableResult_columns_encoded (entries : list (string * list (GoValue Other))) :
  forall (i : nat) rows ref (acc : list (string * list (GoValue Other))),
    Forall (fun kv => Forall (fun v => same_type_kind v = true /\ well_typed v) (snd kv))
      entries ->
    (forall (j : nat) k vs, entries !! j = Some (k, vs) ->
       exists evs, rows !! (i + j)%nat = Some (Some {| Element := evs |})
                   /\ Forall2 encoded_as vs evs) ->
    QueryTableResult_columns (entries.*1) i rows ref (list_to_map acc)
    = Ret (list_to_map (rev entries ++ acc)%list).
Proof.
  induction entries as [| [k vs] entries IH]; intros i rows ref acc Hgood Hrows.
  - reflexivity.
  - inversion Hgood as [| ? ? Hvs Hrest]; subst. simpl in Hvs.
    destruct (Hrows 0%nat k vs eq_refl) as (evs & Hrow & Henc).
    rewrite Nat.add_0_r in Hrow.
    simpl. rewrite Hrow, (DecodeValueList_encoded vs evs ref Hvs Henc).
    change (<[k := vs]> (list_to_map acc)
              : gmap string (list (GoValue Other)))
      with (list_to_map ((k, vs) :: acc) : gmap string (list (GoValue Other))).
    rewrite <- app_assoc.
    apply (IH (S i) rows ref ((k, vs) :: acc) Hrest).
    intros j k' vs' Hj. specialize (Hrows (S j) k' vs' Hj).
    replace (S i + j)%nat with (i + S j)%nat by lia. exact Hrows.
Qed.

(** X10 (EncodeTable, QueryTableResult): The round trip of a table: a table whose values are of type [int32],
    [int64], [byte], [bool], [float64], [float32], [[]byte] or [string]
    is encoded by [EncodeTable], in whatever order the map is walked, to a
    table that the decoding of [QueryTableResult] turns back into the
    same mapping from column name to values. *)
Theorem table_roundtrip (table : gmap string (list (GoValue Other)))
    (order : list (string * list (GoValue Other))) (ref : GoValue Other) :
  order ≡ₚ map_to_list table ->
  (forall name vs, table !! name = Some vs ->
     Forall (fun v => same_type_kind v = true /\ well_typed v) vs) ->
  exists t, EncodeTable_order table order = Ret t /\
            QueryTableResult_table (Some t) ref = Ret table.
Proof.
  intros Hperm Hgood.
  assert (Hlen : length order = size table).
  { rewrite Hperm. apply length_map_to_list. }
  assert (Hgood' : Forall (fun kv => Forall (fun v => same_type_kind v = true
                                                      /\ well_typed v) (snd kv)) order).
  { apply List.Forall_forall. intros [k vs] Hin. simpl.
    apply (Hgood k). apply elem_of_map_to_list. rewrite <- Hperm.
    apply list_elem_of_In. exact Hin. }
  destruct (EncodeTable_range_ok order 0
              (replicate (size table) "") (replicate (size table) None))
    as (names & cols & Hrun & Hn & Hc & Hnew & _).
  { rewrite !length_replicate. reflexivity. }
  { rewrite length_replicate. lia. }
  { eapply List.Forall_impl; [| exact Hgood']. intros [k vs] Hvs. simpl in *.
    eapply List.Forall_impl; [| exact Hvs]. intros v [Hk _].
    apply EncodeValue_scalar. destruct v; try discriminate; reflexivity. }
  rewrite length_replicate in Hn.
  assert (Hnames : names = order.*1).
  { apply list_eq. intros i. rewrite list_lookup_fmap.
    destruct (order !! i) as [[k vs] |] eqn:Hi; simpl.
    - exact (proj1 (Hnew i k vs Hi)).
    - apply lookup_ge_None. apply lookup_ge_None in Hi. lia. }
  exists {| FieldName := names; Row := cols |}.
  unfold EncodeTable_order. rewrite Hrun. split; [reflexivity |].
  unfold QueryTableResult_table. cbn [FieldName Row]. rewrite Hnames.
  change (∅ : gmap string (list (GoValue Other)))
    with (list_to_map [] : gmap string (list (GoValue Other))).
  rewrite (QueryTableResult_columns_encoded order 0 cols ref [] Hgood').
  - rewrite app_nil_r. f_equal.
    transitivity (list_to_map (map_to_list table) : gmap string (list (GoValue Other)));
      [| apply list_to_map_to_list].
    symmetry. apply list_to_map_proper; [apply NoDup_fst_map_to_list |].
    rewrite <- Hperm. apply Permutation_rev.
  - intros j k vs Hj. exact (proj2 (Hnew j k vs Hj)).
Qed.

End CodecProperties.

Lemma scalar_roundtrip_witness :
  Sample.roundtrip (V_byte 200) (V_other (Sample.Array2 0 0)) = Ret (V_byte 200) /\
  Sample.roundtrip (V_int 4294967301) V_nil = Ret (V_int32 5).
Proof.
  split.
  - apply (scalar_roundtrip Sample.json_Marshal Sample.json_Unmarshal Sample.fmt_v
             (V_byte 200) (V_other (Sample.Array2 0 0))).
    + simpl. unfold in_uint8. lia.
    + reflexivity.
  - apply (proj2 (scalar_roundtrip Sample.json_Marshal Sample.json_Unmarshal Sample.fmt_v
                    (V_int 4294967301) V_nil
                    ltac:(simpl; unfold in_int64; lia)) 4294967301 eq_refl).
Defined.

(** C1 as stated fails: the [int16] 7 and the [int] 2^32 + 5 are scalars of
    supported kinds, and neither comes back as itself. *)
Lemma scalar_roundtrip_int_int16_differ :
  (well_typed (V_int16 7 : GoValue Sample.other) /\
   Sample.roundtrip (V_int16 7) V_nil = Ret (V_int32 7) /\
   Sample.roundtrip (V_int16 7) V_nil <> Ret (V_int16 7)) /\
  (well_typed (V_int 4294967301 : GoValue Sample.other) /\
   Sample.roundtrip (V_int 4294967301) V_nil = Ret (V_int32 5) /\
   Sample.roundtrip (V_int 4294967301) V_nil <> Ret (V_int 4294967301)).
Proof.
  repeat split; try discriminate; simpl; unfold in_int16, in_int64; lia.
Qed.

(** The scenario of the spec: k2's value does not decode, so k1 and k3 are
    in the success map and k2 alone is in the failure map. *)
Example GetAll_k1_k2_k3 :
  Sample.GetAll_results (Some Sample.value_fails)
  = Ret ([ (V_string "k1", V_string "v1"); (V_string "k3", V_string "v3") ],
         Some [ (V_string "k2",
                 errors_New "unable to decode GetAll value for key: %v: json: Unmarshal(nil)") ]).
Proof. reflexivity. Qed.



(** The table of the spec, walked in the order a, b. *)
Example EncodeTable_a_b :
  Sample.EncodeTable_order Sample.int_table
    [ ("a", [V_int32 1; V_int32 2]); ("b", [V_int32 3; V_int32 4]) ]
  = Ret {| FieldName := ["a"; "b"];
           Row := [ Some {| Element := [ Some {| Value := Some (EncodedValue_IntResult 1) |};
                                         Some {| Value := Some (EncodedValue_IntResult 2) |} ] |};
                    Some {| Element := [ Some {| Value := Some (EncodedValue_IntResult 3) |};
                                         Some {| Value := Some (EncodedValue_IntResult 4) |} ] |} ] |}.
Proof. vm_compute. reflexivity. Qed.

Lemma int_table_encodable name vs :
  Sample.int_table !! name = Some vs ->
  Forall (encodable Sample.other Sample.json_Marshal) vs.
Proof.
  unfold Sample.int_table. intros H.
  apply lookup_insert_Some in H as [[_ <-] | [_ H]].
  - repeat constructor; eexists; reflexivity.
  - apply lookup_singleton_Some in H as [_ <-].
    repeat constructor; eexists; reflexivity.
Qed.

Lemma EncodeTable_parallel_columns_witness :
  exists t,
    Sample.EncodeTable_order Sample.int_table (map_to_list Sample.int_table) = Ret t /\
    length (FieldName t) = size Sample.int_table /\
    length (Row t) = size Sample.int_table.
Proof.
  destruct (proj1 (EncodeTable_parallel_columns Sample.json_Marshal
                     Sample.int_table (map_to_list Sample.int_table)
                     (Permutation_refl _)) int_table_encodable)
    as (t & Hrun & Hn & Hc & _).
  exists t. split; [exact Hrun | split; assumption].
Defined.

(** C7 as stated fails: for the table whose one column holds a channel,
    [EncodeTable] returns the error of the JSON encoder and no arrays. *)
Lemma EncodeTable_channel_fails :
  Sample.EncodeTable Sample.channel_table
    (Fail (errors_New "json: unsupported type: chan int")) /\
  forall result, Sample.EncodeTable Sample.channel_table result ->
                 result = Fail (errors_New "json: unsupported type: chan int").
Proof.
  assert (Hlist : map_to_list Sample.channel_table
                  = [("a", [V_other Sample.Chan])]).
  { apply map_to_list_singleton. }
  assert (Hsize : size Sample.channel_table = 1%nat).
  { apply map_size_singleton. }
  assert (Hrun : Sample.EncodeTable_order Sample.channel_table
                   [("a", [V_other Sample.Chan])]
                 = Fail (errors_New "json: unsupported type: chan int")).
  { unfold Sample.EncodeTable_order, EncodeTable_order. rewrite Hsize. reflexivity. }
  split.
  - exists [("a", [V_other Sample.Chan])]. rewrite Hlist. split; [reflexivity | exact Hrun].
  - intros result (order & Hperm & <-).
    rewrite Hlist in Hperm. apply Permutation_singleton_r in Hperm. subst order.
    exact Hrun.
Qed.

(** ** The message exchange *)

Lemma has_colon_app s t : has_colon (s ++ ": " ++ t) = true.
Proof.
  induction s as [| c s IH]; simpl; [reflexivity |].
  rewrite IH. apply orb_true_r.
Qed.

(** The message of a [*net.OpError] is never the message of [io.EOF]. *)
Lemma OpError_not_EOF op net src addr err :
  is_EOF (net_OpError op net src addr err) = false.
Proof.
  unfold is_EOF. apply String.eqb_neq. intros H.
  assert (Hc : has_colon (Error (net_OpError op net src addr err)) = true).
  { simpl. apply has_colon_app. }
  rewrite H in Hc. discriminate.
Qed.

Lemma io_EOF_is_EOF : is_EOF io_EOF = true.
Proof. reflexivity. Qed.

Lemma io_ErrUnexpectedEOF_not_EOF : is_EOF io_ErrUnexpectedEOF = false.
Proof. reflexivity. Qed.



(** X11 (doOperationWithConnection): An error that the server reports is returned as an error made of its
    message and code, and is never taken for retryable; a response of
    another kind is returned as it is. *)
Theorem server_error_not_retried (x : Exchange) :
  writeMessage (encoded x) (written x) = None ->
  (forall e, response x = inl (Message_ErrorResponse (Some e)) ->
     doOperationWithConnection x
     = Fail (errors_New (Message e ++ " (" ++ pretty (ErrorCode e) ++ ")")) /\
     retried (doOperationWithConnection x) = false) /\
  (forall m, response x = inl m ->
     (forall e, m <> Message_ErrorResponse e) ->
     doOperationWithConnection x = Ret m).
Proof.
  intros Hw. unfold doOperationWithConnection. rewrite Hw. split.
  - intros e ->. split; reflexivity.
  - intros m -> Hm. destruct m; try reflexivity. exfalso. eapply Hm. reflexivity.
Qed.

Lemma server_error_not_retried_witness :
  doOperationWithConnection (fst (SampleNet.refusing 7%nat (Message_Other "GetRequest") 0%nat))
  = Fail (errors_New "region not found (5)").
Proof.
  apply (proj1 (server_error_not_retried
                  (fst (SampleNet.refusing 7%nat (Message_Other "GetRequest") 0%nat))
                  eq_refl)
           {| Message := "region not found"; ErrorCode := 5 |} eq_refl).
Defined.

(** ** The counters *)

Lemma to_int64_range k : in_int64 (to_int64 k).
Proof.
  unfold in_int64, to_int64.
  pose proof (Z.mod_pos_bound (k + 2 ^ 63) (2 ^ 64)). lia.
Qed.

Lemma to_int64_add k d : to_int64 (to_int64 k + d) = to_int64 (k + d).
Proof.
  unfold to_int64. f_equal.
  replace ((k + 2 ^ 63) mod 2 ^ 64 - 2 ^ 63 + d + 2 ^ 63)
    with ((k + 2 ^ 63) mod 2 ^ 64 + d) by lia.
  rewrite Zplus_mod_idemp_l. f_equal. lia.
Qed.

(** An increment followed by a decrement restores the counter. *)
Lemma to_int64_up_down k : in_int64 k -> to_int64 (to_int64 (k + 1) + -1) = k.
Proof.
  intros H. rewrite to_int64_add.
  replace (k + 1 + -1) with k by lia. apply to_int64_id, H.
Qed.

(** ** The connection pool *)

Section PoolProperties.

Variable World : Type.
Variable dial : serverConnectionProvider -> World -> option net_Conn * World.
Variable handshake_io : net_Conn -> World -> option error * World.
Variable authenticate_io : net_Conn -> string -> string -> World -> option error * World.
Variable exchange : net_Conn -> v1_Message -> World -> Exchange * World.

Local Abbreviation State := (State World).
Local Abbreviation GetGeodeConnection := (GetGeodeConnection World dial).
Local Abbreviation handshake := (handshake World handshake_io).
Local Abbreviation authenticate := (authenticate World authenticate_io).
Local Abbreviation ask_providers := (ask_providers World dial).
Local Abbreviation select_connection := (select_connection World dial).
Local Abbreviation setup_connection := (setup_connection World handshake_io authenticate_io).
Local Abbreviation discardConnection := (discardConnection World).
Local Abbreviation GetConnection := (GetConnection World dial handshake_io authenticate_io).
Local Abbreviation ReturnConnection := (ReturnConnection World).
Local Abbreviation DiscardConnection := (DiscardConnection World).
Local Abbreviation AddConnection := (AddConnection World).
Local Abbreviation AddServer := (AddServer World).
Local Abbreviation AddCredentials := (AddCredentials World).
Local Abbreviation AddLocator := (AddLocator World).
Local Abbreviation doOperation :=
  (doOperation World dial handshake_io authenticate_io exchange).
Local Abbreviation pool_wf := (pool_wf World).

Lemma frame_refl (s : State) : frame s s [].
Proof.
  unfold frame. rewrite app_nil_r. repeat split; auto.
Qed.

Lemma frame_trans (s1 s2 s3 : State) t1 t2 :
  frame s1 s2 t1 -> frame s2 s3 t2 -> frame s1 s3 (t1 ++ t2).
Proof.
  intros (Ha & Hd & Hl & Hh & Ht) (Ha' & Hd' & Hl' & Hh' & Ht').
  unfold frame. rewrite Ha', Hd', Ht', Ht, app_assoc.
  repeat split; auto; try lia.
  - destruct (Hh' p ltac:(lia)) as [-> _]. apply Hh. assumption.
  - destruct (Hh' p ltac:(lia)) as [_ ->]. apply Hh. assumption.
Qed.

Lemma is_setup_inner t : forallb is_setup t = true -> forallb is_inner t = true.
Proof.
  induction t as [| e t IH]; simpl; [reflexivity |].
  intros [He Ht]%andb_true_iff. rewrite (IH Ht), andb_true_r.
  destruct e; try discriminate; reflexivity.
Qed.

(** Storing a connection that keeps the transport and the in-use flag of
    the one it replaces. *)
Lemma insert_same_flags (h : list GeodeConnection) c g p :
  inUse g = inUse (h !!! c) -> rawConn g = rawConn (h !!! c) ->
  inUse (<[c := g]> h !!! p) = inUse (h !!! p) /\
  rawConn (<[c := g]> h !!! p) = rawConn (h !!! p).
Proof.
  intros Hi Hr. rewrite list_lookup_total_insert.
  case_decide as H; [destruct H as [-> _] |]; auto.
Qed.

Lemma handshake_frame gConn (s : State) :
  exists t, frame s (snd (handshake gConn s)) t /\
            pool (snd (handshake gConn s)) = pool s /\
            connectionsCreated (snd (handshake gConn s)) = connectionsCreated s /\
            length (heap (snd (handshake gConn s))) = length (heap s) /\
            forallb is_setup t = true.
Proof.
  unfold handshake.
  destruct (handshakeDone (heap s !!! gConn)).
  - exists []. simpl. split; [apply frame_refl | auto].
  - destruct (handshake_io _ _) as [[err |] w]; exists [Handshake gConn]; simpl;
      unfold frame; simpl; rewrite ?length_insert; repeat split; auto;
      intros; apply insert_same_flags; reflexivity.
Qed.

Lemma authenticate_frame gConn user pass (s : State) :
  exists t, frame s (snd (authenticate gConn user pass s)) t /\
            pool (snd (authenticate gConn user pass s)) = pool s /\
            connectionsCreated (snd (authenticate gConn user pass s))
            = connectionsCreated s /\
            length (heap (snd (authenticate gConn user pass s))) = length (heap s) /\
            forallb is_setup t = true.
Proof.
  unfold authenticate.
  destruct (authenticationDone (heap s !!! gConn)).
  - exists []. simpl. split; [apply frame_refl | auto].
  - destruct (authenticate_io _ _ _ _) as [[err |] w]; exists [Authenticate gConn]; simpl;
      unfold frame; simpl; rewrite ?length_insert; repeat split; auto;
      intros; apply insert_same_flags; reflexivity.
Qed.

Lemma setup_connection_frame gConn (s : State) :
  exists t, frame s (snd (setup_connection gConn s)) t /\
            pool (snd (setup_connection gConn s)) = pool s /\
            connectionsCreated (snd (setup_connection gConn s)) = connectionsCreated s /\
            length (heap (snd (setup_connection gConn s))) = length (heap s) /\
            forallb is_setup t = true.
Proof.
  unfold setup_connection.
  destruct (handshake_frame gConn s) as (t1 & Hf1 & Hp1 & Hc1 & Hl1 & Ht1).
  destruct (handshake gConn s) as [[err |] s1]; simpl in *.
  - exists t1. auto.
  - destruct (authenticationEnabled (pool s1)).
    + destruct (authenticate_frame gConn (username (pool s1)) (password (pool s1)) s1)
        as (t2 & Hf2 & Hp2 & Hc2 & Hl2 & Ht2).
      exists (t1 ++ t2)%list. split; [exact (frame_trans _ _ _ _ _ Hf1 Hf2) |].
      rewrite Hp2, Hc2, Hl2, forallb_app, Ht1, Ht2. auto.
    + exists t1. simpl. auto.
Qed.

Lemma remove_first_not_mem gConn l : mem gConn l = false -> remove_first gConn l = l.
Proof.
  induction l as [| c l IH]; simpl; [reflexivity |].
  destruct (Nat.eqb gConn c); simpl; [discriminate |].
  intros H. rewrite (IH H). reflexivity.
Qed.

Lemma mem_In gConn l : mem gConn l = true <-> In gConn l.
Proof.
  unfold mem. rewrite existsb_exists. split.
  - intros (c & Hin & ->%Nat.eqb_eq). exact Hin.
  - intros Hin. exists gConn. split; [exact Hin | apply Nat.eqb_refl].
Qed.

Lemma remove_first_In gConn l c : In c (remove_first gConn l) -> In c l.
Proof.
  induction l as [| c' l IH]; simpl; [auto |].
  destruct (Nat.eqb gConn c'); simpl; [auto |].
  intros [H | H]; auto.
Qed.

(** In a list without duplicates, removing the first occurrence removes
    the pointer. *)
Lemma remove_first_NoDup gConn l :
  NoDup l -> NoDup (remove_first gConn l) /\ ~ In gConn (remove_first gConn l).
Proof.
  induction 1 as [| c l Hc Hl IH]; simpl.
  - split; [constructor | auto].
  - destruct (Nat.eqb gConn c) eqn:E.
    + apply Nat.eqb_eq in E. subst c. split; [exact Hl |].
      rewrite <- list_elem_of_In. exact Hc.
    + apply Nat.eqb_neq in E. destruct IH as [IH1 IH2]. split.
      * constructor; [| exact IH1].
        rewrite list_elem_of_In. intros Hin. apply Hc.
        rewrite list_elem_of_In. exact (remove_first_In _ _ _ Hin).
      * simpl. intros [H | H]; [congruence | auto].
Qed.

Lemma discardConnection_frame gConn (s : State) :
  frame s (discardConnection gConn s)
    ((if mem gConn (recentConnections (pool s))
      then [Store field_recentConnections] else [])
     ++ [Close (rawConn (heap s !!! gConn))]) /\
  heap (discardConnection gConn s) = heap s /\
  connectionsCreated (discardConnection gConn s) = connectionsCreated s /\
  recentConnections (pool (discardConnection gConn s))
  = remove_first gConn (recentConnections (pool s)) /\
  providers (pool (discardConnection gConn s)) = providers (pool s).
Proof.
  unfold discardConnection.
  destruct (mem gConn (recentConnections (pool s))) eqn:Hm; simpl.
  - unfold frame. simpl. rewrite <- app_assoc. repeat split; auto.
  - rewrite (remove_first_not_mem _ _ Hm). unfold frame. simpl. repeat split; auto.
Qed.

Lemma GetGeodeConnection_spec p (s : State) :
  frame s (snd (GetGeodeConnection p s)) [Dial p] /\
  pool (snd (GetGeodeConnection p s)) = pool s /\
  connectionsCreated (snd (GetGeodeConnection p s)) = connectionsCreated s /\
  match fst (GetGeodeConnection p s) with
  | None => heap (snd (GetGeodeConnection p s)) = heap s
  | Some c =>
      c = length (heap s) /\
      exists g, heap (snd (GetGeodeConnection p s)) = (heap s ++ [g])%list
                /\ inUse g = false
  end.
Proof.
  unfold GetGeodeConnection.
  destruct (dial p (world s)) as [[c |] w]; simpl.
  - unfold frame. simpl. rewrite length_app. repeat split; auto; try lia.
    + rewrite lookup_total_app_l by assumption. reflexivity.
    + rewrite lookup_total_app_l by assumption. reflexivity.
    + eexists. split; reflexivity.
  - unfold frame. simpl. repeat split; auto.
Qed.

Lemma store_providers_frame l (s : State) :
  frame s (store_providers World l s) [Store field_providers].
Proof. unfold frame. simpl. repeat split; auto. Qed.

Lemma store_recentConnections_frame l (s : State) :
  frame s (store_recentConnections World l s) [Store field_recentConnections].
Proof. unfold frame. simpl. repeat split; auto. Qed.

(** The loop over the providers changes the list of providers only: it
    leaves the counters, the recent connections and the credentials alone,
    and ends on the first provider that yields a connection, which is new
    in the heap and not in use. *)
Lemma ask_providers_spec (n : nat) :
  forall s : State,
    (n <= length (providers (pool s)))%nat ->
    exists t,
      frame s (snd (ask_providers n s)) t /\
      forallb is_inner t = true /\
      connectionsCreated (snd (ask_providers n s)) = connectionsCreated s /\
      recentConnections (pool (snd (ask_providers n s))) = recentConnections (pool s) /\
      match fst (ask_providers n s) with
      | Ret None => heap (snd (ask_providers n s)) = heap s
      | Ret (Some c) =>
          c = length (heap s) /\
          exists g, heap (snd (ask_providers n s)) = (heap s ++ [g])%list
                    /\ inUse g = false
      | _ => False
      end.
Proof.
  induction n as [| i IH]; intros s Hn.
  - exists []. simpl. split; [apply frame_refl | auto].
  - simpl.
    destruct (providers (pool s) !! i) as [p |] eqn:Hp.
    2:{ apply lookup_ge_None in Hp. lia. }
    destruct (GetGeodeConnection_spec p s) as (Hf & Hpool & Hc & Hres).
    destruct (GetGeodeConnection p s) as [[c |] s1]; simpl in *.
    + exists [Dial p]. split; [exact Hf |]. split; [reflexivity |].
      split; [exact Hc |]. split; [rewrite Hpool; reflexivity | exact Hres].
    + match goal with
      | |- context [ask_providers i ?s2] =>
          destruct (IH s2) as (t & Hf2 & Ht & Hc2 & Hr2 & Hres2)
      end.
      { simpl. rewrite Hpool, length_app, length_take, length_drop. lia. }
      exists ([Dial p] ++ Store field_providers :: t)%list.
      split.
      { eapply frame_trans; [exact Hf |].
        exact (frame_trans _ _ _ _ _ (store_providers_frame _ _) Hf2). }
      split; [simpl; exact Ht |].
      split; [rewrite Hc2; simpl; exact Hc |].
      split; [rewrite Hr2; simpl; rewrite Hpool; reflexivity |].
      simpl in Hres2. rewrite Hres in Hres2. exact Hres2.
Qed.

(** The scan keeps the last connection that is not in use. *)
Lemma scan_recent_spec (h : list GeodeConnection) (l : list pointer) :
  forall acc,
    match scan_recent h l acc with
    | Some c =>
        (acc = Some c /\ Forall (fun c' => inUse (h !!! c') = true) l) \/
        (exists before after,
            l = (before ++ c :: after)%list /\
            inUse (h !!! c) = false /\
            Forall (fun c' => inUse (h !!! c') = true) after)
    | None => acc = None /\ Forall (fun c' => inUse (h !!! c') = true) l
    end.
Proof.
  induction l as [| c l IH]; intros acc; simpl.
  - destruct acc; [left |]; split; auto.
  - destruct (inUse (h !!! c)) eqn:Hc; simpl.
    + specialize (IH acc). destruct (scan_recent h l acc) as [c' |].
      * destruct IH as [[-> Hall] | (before & after & -> & Hidle & Hall)].
        -- left. split; [reflexivity | constructor; assumption].
        -- right. exists (c :: before), after. auto.
      * destruct IH as [-> Hall]. split; [reflexivity | constructor; assumption].
    + specialize (IH (Some c)). destruct (scan_recent h l (Some c)) as [c' |].
      * right. destruct IH as [[Heq Hall] | (before & after & -> & Hidle & Hall)].
        -- inversion Heq; subst. exists [], l. auto.
        -- exists (c :: before), after. auto.
      * destruct IH as [Heq _]. discriminate.
Qed.

Lemma scan_recent_None_iff (h : list GeodeConnection) (l : list pointer) :
  scan_recent h l None = None <-> Forall (fun c => inUse (h !!! c) = true) l.
Proof.
  split.
  - intros H. pose proof (scan_recent_spec h l None) as Hs. rewrite H in Hs. apply Hs.
  - intros Hall. pose proof (scan_recent_spec h l None) as Hs.
    destruct (scan_recent h l None) as [c |]; [| reflexivity].
    destruct Hs as [[Heq _] | (before & after & -> & Hidle & _)]; [discriminate |].
    apply Forall_app in Hall as [_ Hall]. inversion Hall; subst. congruence.
Qed.

(** The choice of a connection: what it leaves alone, and what it yields. *)
Lemma select_connection_spec (s : State) :
  exists t,
    frame s (snd (select_connection s)) t /\
    forallb is_inner t = true /\
    match fst (select_connection s) with
    | Ret (Some c) =>
        In c (recentConnections (pool (snd (select_connection s)))) /\
        (pool_wf s ->
         pool_wf (snd (select_connection s)) /\
         (c < length (heap (snd (select_connection s))))%nat /\
         inUse (heap (snd (select_connection s)) !!! c) = false)
    | Ret None =>
        scan_recent (heap s) (recentConnections (pool s)) None = None /\
        connectionsCreated (snd (select_connection s)) = connectionsCreated s /\
        recentConnections (pool (snd (select_connection s))) = recentConnections (pool s)
    | _ => False
    end.
Proof.
  unfold select_connection.
  pose proof (scan_recent_spec (heap s) (recentConnections (pool s)) None) as Hscan.
  destruct (scan_recent (heap s) (recentConnections (pool s)) None) as [c |].
  - exists []. simpl. split; [apply frame_refl |]. split; [reflexivity |].
    destruct Hscan as [[Heq _] | (before & after & Hl & Hidle & _)]; [discriminate |].
    assert (Hin : In c (recentConnections (pool s))).
    { rewrite Hl. apply in_or_app. right. left. reflexivity. }
    split; [exact Hin |]. intros [Hnd Hlt]. split; [split; assumption |].
    split; [| exact Hidle].
    rewrite List.Forall_forall in Hlt. apply Hlt, Hin.
  - destruct (ask_providers_spec (length (providers (pool s))) s (le_n _))
      as (t & Hf & Ht & Hc & Hr & Hres).
    destruct (ask_providers (length (providers (pool s))) s) as [[[c |] | err | msg] s1];
      simpl in *; try contradiction.
    + exists (t ++ [Store field_recentConnections])%list.
      split.
      { eapply frame_trans; [exact Hf |].
        pose proof (store_recentConnections_frame
                      (recentConnections (pool s1) ++ [c])%list s1) as Hf2.
        destruct Hf2 as (Ha & Hd & Hl & Hh & Htr).
        unfold frame. simpl in *. repeat split; auto. }
      split; [rewrite forallb_app, Ht; reflexivity |].
      destruct Hres as (-> & g & Hheap & Hg).
      split; [apply in_or_app; right; left; reflexivity |].
      intros [Hnd Hlt]. unfold pool_wf. simpl. rewrite Hr, Hheap, length_app. simpl.
      split; [split |].
      * apply NoDup_app. split; [exact Hnd |]. split; [| apply NoDup_singleton].
        intros x Hx Hx'. apply list_elem_of_In in Hx.
        rewrite List.Forall_forall in Hlt. specialize (Hlt x Hx).
        apply list_elem_of_In in Hx'. destruct Hx' as [<- | []]. lia.
      * apply Forall_app. split.
        -- eapply List.Forall_impl; [| exact Hlt]. simpl. intros; lia.
        -- constructor; [lia | constructor].
      * split; [lia |]. rewrite list_lookup_total_middle by reflexivity. exact Hg.
    + exists t. split; [exact Hf |]. split; [exact Ht |].
      split; [apply Hscan |]. split; assumption.
Qed.

Lemma emit_frame e (s : State) : frame s (emit World e s) [e].
Proof. unfold frame. simpl. repeat split; auto. Qed.

Lemma emit_trace e (s : State) : trace (emit World e s) = (trace s ++ [e])%list.
Proof. reflexivity. Qed.
Lemma emit_discarded e (s : State) :
  discardedConnections (emit World e s) = discardedConnections s.
Proof. reflexivity. Qed.
Lemma emit_active e (s : State) : activeConnections (emit World e s) = activeConnections s.
Proof. reflexivity. Qed.
Lemma emit_heap e (s : State) : heap (emit World e s) = heap s.
Proof. reflexivity. Qed.
Lemma emit_pool e (s : State) : pool (emit World e s) = pool s.
Proof. reflexivity. Qed.

Lemma is_inner_not_lock t :
  forallb is_inner t = true -> forallb (fun e => negb (is_lock e)) t = true.
Proof.
  induction t as [| e t IH]; simpl; [reflexivity |].
  intros [He Ht]%andb_true_iff. rewrite (IH Ht), andb_true_r.
  unfold is_inner in He. apply andb_true_iff in He. apply He.
Qed.

Lemma discard_events_inner b c :
  forallb is_inner ((if b : bool then [Store field_recentConnections] else []) ++ [Close c])
  = true.
Proof. destruct b; reflexivity. Qed.

(** [GetConnection] as a whole: it takes the lock, works, and releases the
    lock; it never panics and never touches the counter of discarded
    connections; it counts a connection in use exactly when it returns
    one, and when it returns none it has marked none. *)
Lemma GetConnection_spec (s : State) :
  exists t,
    trace (snd (GetConnection s)) = (trace s ++ Lock :: t ++ [Unlock])%list /\
    forallb (fun e => negb (is_lock e)) t = true /\
    discardedConnections (snd (GetConnection s)) = discardedConnections s /\
    (length (heap s) <= length (heap (snd (GetConnection s))))%nat /\
    match fst (GetConnection s) with
    | Ret gConn =>
        activeConnections (snd (GetConnection s)) = to_int64 (activeConnections s + 1)
    | Fail _ =>
        activeConnections (snd (GetConnection s)) = activeConnections s /\
        forallb is_inner t = true /\
        (forall p, (p < length (heap s))%nat ->
                   inUse (heap (snd (GetConnection s)) !!! p) = inUse (heap s !!! p))
    | Panic _ => False
    end.
Proof.
  unfold GetConnection.
  pose proof (emit_frame Lock s) as Hf0.
  destruct (select_connection_spec (emit World Lock s)) as (t1 & Hf1 & Ht1 & Hres).
  destruct (select_connection (emit World Lock s)) as [[[c |] | err | msg] s1];
    simpl in Hf1, Hres; try contradiction.
  - destruct (setup_connection_frame c s1) as (t2 & Hf2 & _ & _ & _ & Ht2).
    apply is_setup_inner in Ht2.
    destruct (setup_connection c s1) as [[err |] s2]; simpl in Hf2.
    + destruct (discardConnection_frame c s2) as (Hf3 & _).
      pose proof (frame_trans _ _ _ _ _ (frame_trans _ _ _ _ _
                    (frame_trans _ _ _ _ _ Hf0 Hf1) Hf2) Hf3) as Hf.
      destruct Hf as (Ha & Hd & Hl & Hh & Htr).
      exists (t1 ++ t2 ++ (if mem c (recentConnections (pool s2))
                           then [Store field_recentConnections] else [])
                 ++ [Close (rawConn (heap s2 !!! c))])%list.
      cbn [fst snd].
      rewrite emit_trace, emit_discarded, emit_heap, emit_active.
      split; [rewrite Htr, <- !app_assoc; reflexivity |].
      assert (Hin : forallb is_inner
                      (t1 ++ t2 ++ (if mem c (recentConnections (pool s2))
                                    then [Store field_recentConnections] else [])
                          ++ [Close (rawConn (heap s2 !!! c))]) = true).
      { rewrite forallb_app, Ht1, forallb_app, Ht2. simpl. apply discard_events_inner. }
      split; [apply is_inner_not_lock, Hin |].
      split; [exact Hd |]. split; [exact Hl |].
      split; [exact Ha |]. split; [exact Hin |].
      intros p Hp. apply Hh. simpl. exact Hp.
    + pose proof (frame_trans _ _ _ _ _ (frame_trans _ _ _ _ _ Hf0 Hf1) Hf2) as Hf.
      destruct Hf as (Ha & Hd & Hl & Hh & Htr).
      exists (t1 ++ t2 ++ [Store (field_inUse c)])%list. simpl.
      split; [rewrite Htr, <- !app_assoc; reflexivity |].
      split.
      { rewrite !forallb_app, (is_inner_not_lock _ Ht1), (is_inner_not_lock _ Ht2).
        reflexivity. }
      split; [exact Hd |].
      split; [rewrite length_insert; exact Hl |].
      rewrite Ha. reflexivity.
  - pose proof (frame_trans _ _ _ _ _ Hf0 Hf1) as Hf.
    destruct Hf as (Ha & Hd & Hl & Hh & Htr).
    exists t1. simpl.
    split; [rewrite Htr, <- !app_assoc; reflexivity |].
    split; [apply is_inner_not_lock, Ht1 |].
    split; [exact Hd |]. split; [exact Hl |].
    split; [exact Ha |]. split; [exact Ht1 |].
    intros p Hp. apply Hh. simpl. exact Hp.
Qed.

(** Providers that yield nothing are asked one after the other, the last
    one first, and each is taken off the list. *)
Lemma ask_providers_exhausted (n : nat) :
  forall s : State,
    n = length (providers (pool s)) ->
    (forall p w, In p (providers (pool s)) -> fst (dial p w) = None) ->
    fst (ask_providers n s) = Ret None /\
    providers (pool (snd (ask_providers n s))) = [] /\
    length (filter (fun e => is_dial e) (trace (snd (ask_providers n s))))
    = (length (filter (fun e => is_dial e) (trace s)) + n)%nat.
Proof.
  induction n as [| i IH]; intros s Hn Hnone.
  - simpl. split; [reflexivity |]. split; [| lia].
    symmetry in Hn. apply length_zero_iff_nil in Hn. exact Hn.
  - simpl.
    destruct (providers (pool s) !! i) as [p |] eqn:Hp.
    2:{ apply lookup_ge_None in Hp. lia. }
    assert (Hin : In p (providers (pool s))).
    { apply list_elem_of_In. exact (list_elem_of_lookup_2 _ _ _ Hp). }
    unfold GetGeodeConnection.
    pose proof (Hnone p (world s) Hin) as Hd.
    destruct (dial p (world s)) as [[c |] w]; simpl in Hd; [discriminate |].
    match goal with
    | |- context [ask_providers i ?s2] => destruct (IH s2) as (Hr & Hps & Hcount)
    end.
    + simpl. rewrite length_app, length_take, length_drop. lia.
    + simpl. intros q w' Hq. apply Hnone.
      apply in_app_or in Hq as [Hq | Hq].
      * apply list_elem_of_In in Hq. apply list_elem_of_In.
        exact (subseteq_take _ _ _ Hq).
      * apply list_elem_of_In in Hq. apply list_elem_of_In.
        exact (subseteq_drop _ _ _ Hq).
    + split; [exact Hr |]. split; [exact Hps |].
      rewrite Hcount. simpl. rewrite !filter_app, !length_app. simpl. lia.
Qed.

(** C4: when no recent connection is idle and every provider yields
    nothing, [GetConnection] fails with the error "no connections
    available", having asked every provider once, and the list of providers
    of the pool is empty afterwards. *)
Theorem GetConnection_exhausted (s : State) :
  Forall (fun c => inUse (heap s !!! c) = true) (recentConnections (pool s)) ->
  (forall p w, In p (providers (pool s)) -> fst (dial p w) = None) ->
  fst (GetConnection s) = Fail (errors_New "no connections available") /\
  providers (pool (snd (GetConnection s))) = [] /\
  length (filter (fun e => is_dial e) (trace (snd (GetConnection s))))
  = (length (filter (fun e => is_dial e) (trace s))
     + length (providers (pool s)))%nat.
Proof.
  intros Hbusy Hnone.
  apply scan_recent_None_iff in Hbusy.
  unfold GetConnection, select_connection. simpl heap. simpl pool. rewrite Hbusy.
  destruct (ask_providers_exhausted (length (providers (pool s)))
              (emit World Lock s) eq_refl Hnone) as (Hr & Hps & Hcount).
  simpl pool in *.
  destruct (ask_providers (length (providers (pool s))) (emit World Lock s))
    as [r s1]; simpl in Hr, Hps, Hcount. subst r. simpl.
  split; [reflexivity |]. split; [exact Hps |].
  rewrite filter_app, length_app, Hcount. simpl.
  rewrite filter_app, length_app. simpl. lia.
Qed.

(** What [GetConnection] does once a connection is chosen and its setup
    fails: the error goes to the caller, the connection leaves the pool and
    its transport is closed, and no counter moves. *)
Lemma GetConnection_failure_effects (s : State) gConn s1 err s2 :
  pool_wf s ->
  select_connection (emit World Lock s) = (Ret (Some gConn), s1) ->
  setup_connection gConn s1 = (Some err, s2) ->
  GetConnection s = (Fail err, emit World Unlock (discardConnection gConn s2)) /\
  ~ In gConn (recentConnections (pool (snd (GetConnection s)))) /\
  In (Close (rawConn (heap s1 !!! gConn))) (trace (snd (GetConnection s))) /\
  inUse (heap (snd (GetConnection s)) !!! gConn) = false /\
  activeConnections (snd (GetConnection s)) = activeConnections s /\
  discardedConnections (snd (GetConnection s)) = discardedConnections s.
Proof.
  intros Hwf Hsel Hsetup.
  assert (Hrun : GetConnection s
                 = (Fail err, emit World Unlock (discardConnection gConn s2))).
  { unfold GetConnection. rewrite Hsel, Hsetup. reflexivity. }
  rewrite Hrun. cbn [fst snd]. split; [reflexivity |].
  destruct (select_connection_spec (emit World Lock s)) as (t1 & Hf1 & _ & Hres).
  rewrite Hsel in Hf1, Hres. cbn [fst snd] in Hf1, Hres.
  destruct Hres as (Hin & Hwf1). destruct (Hwf1 Hwf) as ((Hnd & _) & Hlt & Hidle).
  destruct (setup_connection_frame gConn s1) as (t2 & Hf2 & Hp2 & _ & _ & _).
  rewrite Hsetup in Hf2, Hp2. cbn [snd] in Hf2, Hp2.
  destruct (discardConnection_frame gConn s2) as (Hf3 & Hh3 & _ & Hr3 & _).
  rewrite emit_pool, emit_trace, emit_heap, emit_active, emit_discarded.
  destruct Hf1 as (Ha1 & Hd1 & _ & _ & _).
  destruct Hf2 as (Ha2 & Hd2 & _ & Hh2 & _).
  destruct Hf3 as (Ha3 & Hd3 & _ & _ & Htr3).
  destruct (Hh2 gConn Hlt) as [Hi2 Hc2].
  split; [rewrite Hr3, Hp2; apply remove_first_NoDup, Hnd |].
  split.
  { rewrite Htr3. apply in_or_app. left. apply in_or_app. right.
    apply in_or_app. right. left. rewrite Hc2. reflexivity. }
  split; [rewrite Hh3, Hi2; exact Hidle |].
  split; [rewrite Ha3, Ha2, Ha1; reflexivity | rewrite Hd3, Hd2, Hd1; reflexivity].
Qed.

(** The setup fails exactly when the handshake fails, or the pool has
    credentials and the authentication fails. *)
Lemma setup_connection_fails gConn (s1 s2 : State) err :
  (handshake gConn s1 = (Some err, s2) \/
   exists s1', handshake gConn s1 = (None, s1') /\
               authenticationEnabled (pool s1') = true /\
               authenticate gConn (username (pool s1')) (password (pool s1')) s1'
               = (Some err, s2)) ->
  setup_connection gConn s1 = (Some err, s2).
Proof.
  unfold setup_connection.
  intros [H | (s1' & H & Hen & Hau)]; rewrite H; [reflexivity |].
  rewrite Hen. exact Hau.
Qed.

(** C5: when the handshake on the chosen connection fails, or the pool has
    credentials and the authentication fails, [GetConnection] returns that
    error and nothing else: the connection is no longer among the recent
    connections, its transport is closed, it is not marked in use, and the
    count of connections in use is what it was. *)
Theorem GetConnection_setup_failure (s : State) gConn s1 err s2 :
  pool_wf s ->
  select_connection (emit World Lock s) = (Ret (Some gConn), s1) ->
  (handshake gConn s1 = (Some err, s2) \/
   exists s1', handshake gConn s1 = (None, s1') /\
               authenticationEnabled (pool s1') = true /\
               authenticate gConn (username (pool s1')) (password (pool s1')) s1'
               = (Some err, s2)) ->
  fst (GetConnection s) = Fail err /\
  ~ In gConn (recentConnections (pool (snd (GetConnection s)))) /\
  In (Close (rawConn (heap s1 !!! gConn))) (trace (snd (GetConnection s))) /\
  inUse (heap (snd (GetConnection s)) !!! gConn) = false /\
  (forall p, (p < length (heap s))%nat ->
             inUse (heap (snd (GetConnection s)) !!! p) = inUse (heap s !!! p)) /\
  activeConnections (snd (GetConnection s)) = activeConnections s.
Proof.
  intros Hwf Hsel Hfail. apply setup_connection_fails in Hfail.
  destruct (GetConnection_failure_effects s gConn s1 err s2 Hwf Hsel Hfail)
    as (Hrun & Hout & Hclose & Hidle & Hactive & _).
  split; [rewrite Hrun; reflexivity |].
  split; [exact Hout |]. split; [exact Hclose |]. split; [exact Hidle |].
  split; [| exact Hactive].
  destruct (GetConnection_spec s) as (t & _ & _ & _ & _ & Hcase).
  rewrite Hrun in Hcase. cbn [fst] in Hcase. rewrite <- Hrun in Hcase.
  apply Hcase.
Qed.

(** C10: a connection that [GetConnection] discards because its handshake
    or its authentication failed leaves the recent connections and has its
    transport closed, and the counter of discarded connections stays as it
    was; [GetConnection] never moves that counter, nor does
    [ReturnConnection] or one of the [Add] operations; [DiscardConnection]
    adds one to it. *)
Theorem discardedConnections_only_by_DiscardConnection :
  (forall (s : State) gConn s1 err s2,
     pool_wf s ->
     select_connection (emit World Lock s) = (Ret (Some gConn), s1) ->
     (handshake gConn s1 = (Some err, s2) \/
      exists s1', handshake gConn s1 = (None, s1') /\
                  authenticationEnabled (pool s1') = true /\
                  authenticate gConn (username (pool s1')) (password (pool s1')) s1'
                  = (Some err, s2)) ->
     ~ In gConn (recentConnections (pool (snd (GetConnection s)))) /\
     In (Close (rawConn (heap s1 !!! gConn))) (trace (snd (GetConnection s))) /\
     discardedConnections (snd (GetConnection s)) = discardedConnections s) /\
  (forall s : State,
     discardedConnections (snd (GetConnection s)) = discardedConnections s) /\
  (forall gConn (s : State),
     discardedConnections (DiscardConnection gConn s)
     = to_int64 (discardedConnections s + 1)) /\
  (forall gConn (s : State),
     discardedConnections (ReturnConnection gConn s) = discardedConnections s) /\
  (forall c done (s : State),
     discardedConnections (AddConnection c done s) = discardedConnections s) /\
  (forall h p (s : State),
     discardedConnections (AddServer h p s) = discardedConnections s) /\
  (forall u p (s : State),
     discardedConnections (AddCredentials u p s) = discardedConnections s).
Proof.
  split.
  { intros s gConn s1 err s2 Hwf Hsel Hfail. apply setup_connection_fails in Hfail.
    destruct (GetConnection_failure_effects s gConn s1 err s2 Hwf Hsel Hfail)
      as (_ & Hout & Hclose & _ & _ & Hd).
    auto. }
  split.
  { intros s. destruct (GetConnection_spec s) as (t & _ & _ & Hd & _). exact Hd. }
  split.
  { intros gConn s. unfold DiscardConnection. cbn [discardedConnections discardedConnections_Add].
    rewrite emit_discarded.
    destruct (discardConnection_frame gConn (emit World Lock s)) as ((_ & Hd & _) & _).
    rewrite Hd. reflexivity. }
  repeat split; reflexivity.
Qed.

Lemma is_setup_not_dial t :
  forallb is_setup t = true -> forallb (fun e => negb (is_dial e)) t = true.
Proof.
  induction t as [| e t IH]; simpl; [reflexivity |].
  intros [He Ht]%andb_true_iff. rewrite (IH Ht), andb_true_r.
  destruct e; try discriminate; reflexivity.
Qed.

(** C6: when some recent connection is idle, [GetConnection] picks the
    last idle one of the scan, which is the only connection it can return
    (it returns it unless the setup of that connection fails); it asks no
    provider, and it leaves the list of providers and the counter of
    created connections as they were. *)
Theorem GetConnection_reuses_last_idle (s : State) :
  Exists (fun c => inUse (heap s !!! c) = false) (recentConnections (pool s)) ->
  exists before c after t,
    recentConnections (pool s) = (before ++ c :: after)%list /\
    inUse (heap s !!! c) = false /\
    Forall (fun c' => inUse (heap s !!! c') = true) after /\
    select_connection (emit World Lock s) = (Ret (Some c), emit World Lock s) /\
    match fst (setup_connection c (emit World Lock s)) with
    | None => fst (GetConnection s) = Ret c
    | Some err => fst (GetConnection s) = Fail err
    end /\
    trace (snd (GetConnection s)) = (trace s ++ t)%list /\
    forallb (fun e => negb (is_dial e)) t = true /\
    providers (pool (snd (GetConnection s))) = providers (pool s) /\
    connectionsCreated (snd (GetConnection s)) = connectionsCreated s.
Proof.
  intros Hidle.
  pose proof (scan_recent_spec (heap s) (recentConnections (pool s)) None) as Hscan.
  destruct (scan_recent (heap s) (recentConnections (pool s)) None) as [c |] eqn:Hs.
  2:{ destruct Hscan as [_ Hall]. exfalso.
      apply List.Exists_exists in Hidle as (c & Hin & Hc).
      rewrite List.Forall_forall in Hall. specialize (Hall c Hin). congruence. }
  destruct Hscan as [[Heq _] | (before & after & Hl & Hc & Hafter)]; [discriminate |].
  assert (Hsel : select_connection (emit World Lock s)
                 = (Ret (Some c), emit World Lock s)).
  { unfold select_connection. simpl heap. simpl pool. rewrite Hs. reflexivity. }
  destruct (setup_connection_frame c (emit World Lock s))
    as (t2 & Hf2 & Hp2 & Hc2 & _ & Ht2).
  apply is_setup_not_dial in Ht2.
  destruct Hf2 as (_ & _ & _ & _ & Htr2).
  destruct (setup_connection c (emit World Lock s)) as [[err |] s2] eqn:Hsetup;
    cbn [fst snd] in *.
  - assert (Hrun : GetConnection s
                   = (Fail err, emit World Unlock (discardConnection c s2))).
    { unfold GetConnection. rewrite Hsel, Hsetup. reflexivity. }
    rewrite Hrun. cbn [fst snd].
    destruct (discardConnection_frame c s2) as ((_ & _ & _ & _ & Htr3) & _ & Hc3 & _ & Hp3).
    exists before, c, after.
    exists (Lock :: t2 ++ ((if mem c (recentConnections (pool s2))
                            then [Store field_recentConnections] else [])
                           ++ [Close (rawConn (heap s2 !!! c))]) ++ [Unlock])%list.
    split; [exact Hl |]. split; [exact Hc |]. split; [exact Hafter |].
    split; [exact Hsel |]. split; [rewrite Hsetup; reflexivity |].
    rewrite emit_trace, emit_pool, Htr3, Htr2, Hp3, Hp2, emit_trace, emit_pool.
    split; [rewrite <- !app_assoc; reflexivity |].
    split.
    { cbn [forallb is_dial negb andb]. rewrite !forallb_app, Ht2. simpl.
      match goal with |- context [if ?b then _ else _] => destruct b end; reflexivity. }
    split; [reflexivity |].
    change (connectionsCreated (discardConnection c s2) = connectionsCreated s).
    rewrite Hc3, Hc2. reflexivity.
  - assert (Hrun : GetConnection s
                   = (Ret c, emit World Unlock
                               (activeConnections_Add World 1
                                  (store_inUse World c true s2)))).
    { unfold GetConnection. rewrite Hsel, Hsetup. reflexivity. }
    rewrite Hrun. cbn [fst snd].
    exists before, c, after.
    exists (Lock :: t2 ++ [Store (field_inUse c); Unlock])%list.
    split; [exact Hl |]. split; [exact Hc |]. split; [exact Hafter |].
    split; [exact Hsel |]. split; [rewrite Hsetup; reflexivity |].
    simpl. rewrite Htr2, Hp2, Hc2. simpl.
    split; [rewrite <- !app_assoc; reflexivity |].
    split; [| split; reflexivity].
    rewrite forallb_app, Ht2. reflexivity.
Qed.

(** *** The lock *)

Lemma guarded_held t rest :
  forallb (fun e => negb (is_lock e)) t = true ->
  guarded true (t ++ rest) = guarded true rest.
Proof.
  induction t as [| e t IH]; simpl; [reflexivity |].
  intros [He Ht]%andb_true_iff.
  destruct e; simpl in He; try discriminate; simpl; auto.
Qed.

(** X18 (GetConnection, ReturnConnection, DiscardConnection): [GetConnection], [ReturnConnection] and [DiscardConnection] store into
    the pool and into the connections with the lock held. *)
Lemma locking_operations_guarded (s : State) gConn :
  (exists t, trace (snd (GetConnection s)) = (trace s ++ t)%list
             /\ guarded false t = true) /\
  (exists t, trace (ReturnConnection gConn s) = (trace s ++ t)%list
             /\ guarded false t = true) /\
  (exists t, trace (DiscardConnection gConn s) = (trace s ++ t)%list
             /\ guarded false t = true).
Proof.
  split; [| split].
  - destruct (GetConnection_spec s) as (t & Htr & Ht & _).
    exists (Lock :: t ++ [Unlock])%list. split; [exact Htr |].
    simpl. rewrite (guarded_held _ _ Ht). reflexivity.
  - exists [Lock; Store (field_inUse gConn); Unlock]. split; [| reflexivity].
    unfold ReturnConnection. simpl. rewrite <- !app_assoc. reflexivity.
  - destruct (discardConnection_frame gConn (emit World Lock s))
      as ((_ & _ & _ & _ & Htr) & _).
    exists (Lock :: ((if mem gConn (recentConnections (pool s))
                      then [Store field_recentConnections] else [])
                     ++ [Close (rawConn (heap s !!! gConn))]) ++ [Unlock])%list.
    split.
    + unfold DiscardConnection. cbn [trace discardedConnections_Add].
      rewrite emit_trace, Htr. simpl. rewrite <- !app_assoc. reflexivity.
    + simpl. destruct (mem gConn (recentConnections (pool s))); reflexivity.
Qed.

(** C8, where the code departs from it: [AddConnection], [AddServer] and
    [AddCredentials] store into the recent connections, the providers and
    the credentials of the pool without taking its lock. *)
Theorem Add_operations_store_without_lock (s : State) :
  (forall c done,
     trace (AddConnection c done s)
     = (trace s ++ [Store field_recentConnections])%list) /\
  (forall h p,
     trace (AddServer h p s) = (trace s ++ [Store field_providers])%list) /\
  (forall u p,
     trace (AddCredentials u p s) = (trace s ++ [Store field_credentials])%list) /\
  (forall f, guarded false [Store f] = false).
Proof. repeat split. Qed.

(** *** [doOperation] *)

Lemma ReturnConnection_effects gConn (s : State) :
  inUse (heap (ReturnConnection gConn s) !!! gConn) = false /\
  activeConnections (ReturnConnection gConn s) = to_int64 (activeConnections s + -1) /\
  trace (ReturnConnection gConn s)
  = (trace s ++ [Lock; Store (field_inUse gConn); Unlock])%list /\
  pool (ReturnConnection gConn s) = pool s /\
  discardedConnections (ReturnConnection gConn s) = discardedConnections s.
Proof.
  unfold ReturnConnection. simpl. rewrite <- !app_assoc.
  split; [| repeat split].
  rewrite list_lookup_total_insert. case_decide as H; [reflexivity |].
  rewrite list_lookup_total_alt.
  destruct (heap s !! gConn) eqn:Hl; [| reflexivity].
  apply lookup_lt_Some in Hl. exfalso. apply H. split; [reflexivity | exact Hl].
Qed.

Lemma DiscardConnection_effects gConn (s : State) :
  activeConnections (DiscardConnection gConn s) = activeConnections s /\
  discardedConnections (DiscardConnection gConn s) = to_int64 (discardedConnections s + 1) /\
  ~ (NoDup (recentConnections (pool s)) /\
     In gConn (recentConnections (pool (DiscardConnection gConn s)))) /\
  In (Close (rawConn (heap s !!! gConn))) (trace (DiscardConnection gConn s)).
Proof.
  destruct (discardConnection_frame gConn (emit World Lock s))
    as ((Ha & Hd & _ & _ & Htr) & _ & _ & Hr & _).
  unfold DiscardConnection.
  cbn [activeConnections discardedConnections pool trace discardedConnections_Add].
  rewrite emit_active, emit_discarded, emit_pool, emit_trace, Ha, Hd, Hr, Htr.
  split; [reflexivity |]. split; [reflexivity |]. split.
  - intros [Hnd Hin]. exact (proj2 (remove_first_NoDup gConn _ Hnd) Hin).
  - apply in_or_app. left. apply in_or_app. right. apply in_or_app. right.
    left. reflexivity.
Qed.

(** Whatever [doOperation] does, when it returns the counter of
    connections in use is back to where it was. *)
Lemma doOperation_active_balanced (fuel : nat) :
  forall request (s : State) r s',
    in_int64 (activeConnections s) ->
    doOperation fuel request s = Some (r, s') ->
    activeConnections s' = activeConnections s.
Proof.
  induction fuel as [| fuel IH]; intros request s r s' Hrange Hrun; [discriminate |].
  simpl in Hrun.
  destruct (GetConnection_spec s) as (t & _ & _ & _ & _ & Hcase).
  destruct (GetConnection s) as [[gConn | err | msg] s1]; cbn [fst snd] in Hcase.
  - destruct (exchange (rawConn (heap s1 !!! gConn)) request (world s1)) as [x w].
    assert (Hback : forall s2 : State,
               activeConnections s2 = activeConnections s1 ->
               activeConnections (ReturnConnection gConn s2) = activeConnections s).
    { intros s2 H2. destruct (ReturnConnection_effects gConn s2) as (_ & -> & _).
      rewrite H2, Hcase. apply to_int64_up_down, Hrange. }
    destruct (doOperationWithConnection x) as [m | err | msg].
    + inversion Hrun; subst. apply Hback. reflexivity.
    + destruct (is_RetryableError err).
      * match type of Hrun with
        | context [doOperation fuel request ?sd] =>
            destruct (doOperation fuel request sd) as [[r2 s2] |] eqn:Hinner;
            [| discriminate];
            pose proof (proj1 (DiscardConnection_effects gConn
                                 (emit World (RoundTrip (rawConn (heap s1 !!! gConn)))
                                    (set_world World w s1)))) as Hdis
        end.
        inversion Hrun; subst. apply Hback.
        rewrite (IH _ _ _ _ ltac:(rewrite Hdis; simpl; rewrite Hcase; apply to_int64_range) Hinner).
        exact Hdis.
      * inversion Hrun; subst. apply Hback.
        exact (proj1 (DiscardConnection_effects gConn _)).
    + inversion Hrun; subst. apply Hback. reflexivity.
  - inversion Hrun; subst. apply Hcase.
  - contradiction.
Qed.

(** C9: when [doOperation] has got a connection from the pool and
    returns, the last thing done is [ReturnConnection] on that connection,
    also when the round trip failed and [DiscardConnection] was called on
    it before: the connection is then not in use, the counter of
    connections in use has been decremented by the return, and over the
    whole call it is back to its value. *)
Theorem doOperation_returns_connection (fuel : nat) request (s : State) r s' gConn s1 :
  doOperation fuel request s = Some (r, s') ->
  GetConnection s = (Ret gConn, s1) ->
  exists s2,
    s' = ReturnConnection gConn s2 /\
    inUse (heap s' !!! gConn) = false /\
    activeConnections s' = to_int64 (activeConnections s2 + -1) /\
    (let c := rawConn (heap s1 !!! gConn) in
     let xw := exchange c request (world s1) in
     let s1' := emit World (RoundTrip c) (set_world World (snd xw) s1) in
     match doOperationWithConnection (fst xw) with
     | Fail err =>
         if is_RetryableError err
         then exists fuel',
                fuel = S fuel' /\
                doOperation fuel' request (DiscardConnection gConn s1') = Some (r, s2)
         else r = Fail err /\ s2 = DiscardConnection gConn s1'
     | Ret message => r = Ret message /\ s2 = s1'
     | Panic msg => r = Panic msg /\ s2 = s1'
     end) /\
    (in_int64 (activeConnections s) -> activeConnections s' = activeConnections s).
Proof.
  intros Hrun Hget.
  assert (Hbal := fun H => doOperation_active_balanced fuel request s r s' H Hrun).
  destruct fuel as [| fuel]; [discriminate |].
  simpl in Hrun. rewrite Hget in Hrun.
  cbv zeta.
  destruct (exchange (rawConn (heap s1 !!! gConn)) request (world s1)) as [x w].
  cbn [fst snd].
  destruct (doOperationWithConnection x) as [m | err | msg].
  - inversion Hrun; subst. eexists. split; [reflexivity |].
    destruct (ReturnConnection_effects gConn
                (emit World (RoundTrip (rawConn (heap s1 !!! gConn)))
                   (set_world World w s1))) as (Hi & Ha & _).
    repeat split; assumption.
  - destruct (is_RetryableError err).
    + match type of Hrun with
      | context [doOperation fuel request ?sd] =>
          destruct (doOperation fuel request sd) as [[r2 s2] |] eqn:Hinner;
          [| discriminate]
      end.
      inversion Hrun; subst. exists s2. split; [reflexivity |].
      destruct (ReturnConnection_effects gConn s2) as (Hi & Ha & _).
      split; [exact Hi |]. split; [exact Ha |]. split; [| exact Hbal].
      exists fuel. split; [reflexivity | exact Hinner].
    + inversion Hrun; subst. eexists. split; [reflexivity |].
      destruct (ReturnConnection_effects gConn
                  (DiscardConnection gConn
                     (emit World (RoundTrip (rawConn (heap s1 !!! gConn)))
                        (set_world World w s1)))) as (Hi & Ha & _).
      repeat split; assumption.
  - inversion Hrun; subst. eexists. split; [reflexivity |].
    destruct (ReturnConnection_effects gConn
                (emit World (RoundTrip (rawConn (heap s1 !!! gConn)))
                   (set_world World w s1))) as (Hi & Ha & _).
    repeat split; assumption.
Qed.

(** *** Where the connections of [GetConnection] come from *)

(** The chosen connection is an idle one of the pool, and then nothing has
    changed, or a new one, put last in the pool. *)
Lemma select_connection_origin (s : State) :
  match fst (select_connection s) with
  | Ret (Some c) =>
      (In c (recentConnections (pool s)) /\ inUse (heap s !!! c) = false /\
       snd (select_connection s) = s) \/
      (c = length (heap s) /\
       recentConnections (pool (snd (select_connection s)))
       = (recentConnections (pool s) ++ [c])%list /\
       connectionsCreated (snd (select_connection s))
       = to_int64 (connectionsCreated s + 1))
  | Ret None =>
      heap (snd (select_connection s)) = heap s /\
      recentConnections (pool (snd (select_connection s))) = recentConnections (pool s)
  | _ => False
  end.
Proof.
  unfold select_connection.
  pose proof (scan_recent_spec (heap s) (recentConnections (pool s)) None) as Hscan.
  destruct (scan_recent (heap s) (recentConnections (pool s)) None) as [c |].
  - cbn [fst snd]. left.
    destruct Hscan as [[Heq _] | (before & after & Hl & Hidle & _)]; [discriminate |].
    split; [| split; [exact Hidle | reflexivity]].
    rewrite Hl. apply in_or_app. right. left. reflexivity.
  - destruct (ask_providers_spec (length (providers (pool s))) s (le_n _))
      as (t & _ & _ & Hc & Hr & Hres).
    destruct (ask_providers (length (providers (pool s))) s) as [[[c |] | err | msg] s1];
      cbn [fst snd] in *; try contradiction.
    + right. destruct Hres as (-> & _). simpl. rewrite Hr, Hc. auto.
    + split; assumption.
Qed.

(** What [GetConnection] returns and what it leaves behind, for a pool
    whose pointers are distinct: the pool stays so; the pointers in it are
    those it had, and the new one if a provider was used; the connection
    returned was idle in the pool or is new, and is now in the pool and in
    use; the in-use flag of no other connection has changed. *)
Lemma GetConnection_origin (s : State) :
  pool_wf s ->
  pool_wf (snd (GetConnection s)) /\
  (length (heap s) <= length (heap (snd (GetConnection s))))%nat /\
  (forall p, In p (recentConnections (pool (snd (GetConnection s)))) ->
             In p (recentConnections (pool s)) \/ (length (heap s) <= p)%nat) /\
  match fst (GetConnection s) with
  | Ret c =>
      In c (recentConnections (pool (snd (GetConnection s)))) /\
      (c < length (heap (snd (GetConnection s))))%nat /\
      inUse (heap (snd (GetConnection s)) !!! c) = true /\
      ((In c (recentConnections (pool s)) /\ inUse (heap s !!! c) = false) \/
       c = length (heap s)) /\
      (forall p, (p < length (heap s))%nat -> p <> c ->
                 inUse (heap (snd (GetConnection s)) !!! p) = inUse (heap s !!! p))
  | Fail _ =>
      forall p, (p < length (heap s))%nat ->
                inUse (heap (snd (GetConnection s)) !!! p) = inUse (heap s !!! p)
  | Panic _ => False
  end.
Proof.
  intros Hwf.
  assert (Hwf0 : pool_wf (emit World Lock s)) by exact Hwf.
  unfold GetConnection.
  destruct (select_connection_spec (emit World Lock s)) as (t1 & Hf1 & _ & Hres).
  pose proof (select_connection_origin (emit World Lock s)) as Horigin.
  destruct Hf1 as (_ & _ & Hl1 & Hh1 & _).
  rewrite emit_heap in Hl1, Hh1.
  destruct (select_connection (emit World Lock s)) as [[[c |] | err | msg] s1];
    cbn [fst snd] in *; try contradiction.
  - destruct Hres as (Hin1 & Hres). destruct (Hres Hwf0) as ((Hnd1 & Hlt1) & Hc1 & Hidle1).
    assert (Hrec1 : forall p, In p (recentConnections (pool s1)) ->
                              In p (recentConnections (pool s))
                              \/ (length (heap s) <= p)%nat).
    { intros p Hp.
      destruct Horigin as [(_ & _ & ->) | (-> & Hr & _)]; [left; exact Hp |].
      rewrite Hr in Hp. apply in_app_or in Hp as [Hp | [<- | []]]; [left; exact Hp |].
      right. rewrite emit_heap. reflexivity. }
    assert (Hfrom : (In c (recentConnections (pool s)) /\ inUse (heap s !!! c) = false)
                    \/ c = length (heap s)).
    { destruct Horigin as [(Hin & Hidle & _) | (-> & _)]; [left | right]; auto. }
    destruct (setup_connection_frame c s1) as (t2 & Hf2 & Hp2 & _ & Hl2 & _).
    destruct Hf2 as (_ & _ & _ & Hh2 & _).
    destruct (setup_connection c s1) as [[err |] s2]; cbn [fst snd] in *.
    + destruct (discardConnection_frame c s2) as (_ & Hh3 & _ & Hr3 & _).
      unfold pool_wf.
      rewrite !emit_pool, !emit_heap, !Hh3, !Hr3, !Hp2, !Hl2.
      destruct (remove_first_NoDup c _ Hnd1) as [Hnd3 _].
      split; [| split; [exact Hl1 | split]].
      * split; [exact Hnd3 |].
        apply List.Forall_forall. intros p Hp.
        rewrite List.Forall_forall in Hlt1.
        apply Hlt1. exact (remove_first_In _ _ _ Hp).
      * intros p Hp. apply Hrec1. exact (remove_first_In _ _ _ Hp).
      * intros p Hp. destruct (Hh2 p ltac:(lia)) as [-> _].
        destruct (Hh1 p Hp) as [-> _]. reflexivity.
    + unfold pool_wf.
      cbn [heap pool emit activeConnections_Add store_inUse set_heap].
      rewrite !length_insert, !Hp2, !Hl2.
      split; [| split; [exact Hl1 | split; [exact Hrec1 |]]].
      * split; [exact Hnd1 | exact Hlt1].
      * split; [exact Hin1 |]. split; [exact Hc1 |].
        split; [rewrite list_lookup_total_insert_eq by lia; reflexivity |].
        split; [exact Hfrom |].
        intros p Hp Hne. rewrite list_lookup_total_insert_ne by congruence.
        destruct (Hh2 p ltac:(lia)) as [-> _].
        destruct (Hh1 p Hp) as [-> _]. reflexivity.
  - destruct Horigin as (Hh & Hr).
    unfold pool_wf. rewrite !emit_pool, !emit_heap, !Hh, !Hr.
    split; [exact Hwf0 |]. split; [reflexivity |].
    split; [intros p Hp; left; exact Hp |].
    intros p Hp. reflexivity.
Qed.

(** *** Runs of the public operations *)

Local Abbreviation call := (call World dial handshake_io authenticate_io).
Local Abbreviation calls := (calls World dial handshake_io authenticate_io).
Local Abbreviation checked_out := (checked_out World).
Local Abbreviation retired := (retired World).

Lemma NewPool_wf w : pool_wf (NewPool World w).
Proof. split; simpl; constructor. Qed.

Lemma AddConnection_wf c done (s : State) : pool_wf s -> pool_wf (AddConnection c done s).
Proof.
  intros [Hnd Hlt]. unfold pool_wf. simpl. rewrite length_app. simpl. split.
  - apply NoDup_app. split; [exact Hnd |]. split; [| apply NoDup_singleton].
    intros x Hx Hx'. apply list_elem_of_In in Hx.
    rewrite List.Forall_forall in Hlt. specialize (Hlt x Hx).
    apply list_elem_of_In in Hx'. destruct Hx' as [<- | []]. lia.
  - apply Forall_app. split.
    + eapply List.Forall_impl; [| exact Hlt]. simpl. intros; lia.
    + constructor; [lia | constructor].
Qed.

Lemma ReturnConnection_wf gConn (s : State) : pool_wf s -> pool_wf (ReturnConnection gConn s).
Proof.
  intros [Hnd Hlt]. unfold pool_wf. simpl. rewrite length_insert. split; assumption.
Qed.

Lemma DiscardConnection_wf gConn (s : State) :
  pool_wf s -> pool_wf (DiscardConnection gConn s).
Proof.
  intros [Hnd Hlt]. unfold pool_wf.
  destruct (discardConnection_frame gConn (emit World Lock s)) as (_ & Hh & _ & Hr & _).
  unfold DiscardConnection. cbn [pool heap discardedConnections_Add].
  rewrite !emit_pool, !emit_heap, Hh, Hr. rewrite emit_pool, emit_heap. split.
  - apply remove_first_NoDup, Hnd.
  - apply List.Forall_forall. intros p Hp.
    rewrite List.Forall_forall in Hlt. apply Hlt. exact (remove_first_In _ _ _ Hp).
Qed.

Lemma call_wf op (s : State) : pool_wf s -> pool_wf (snd (call op s)).
Proof.
  intros Hwf. destruct op; simpl.
  - apply AddConnection_wf, Hwf.
  - exact Hwf.
  - exact Hwf.
  - exact Hwf.
  - pose proof (proj1 (GetConnection_origin s Hwf)) as H.
    destruct (GetConnection s). exact H.
  - apply ReturnConnection_wf, Hwf.
  - apply DiscardConnection_wf, Hwf.
Qed.

(** Every pool that the public operations build from a new pool holds
    distinct connections, all of them in the heap. *)
Lemma calls_wf ops : forall s : State, pool_wf s -> pool_wf (snd (calls ops s)).
Proof.
  induction ops as [| op ops IH]; intros s Hwf; [exact Hwf |].
  simpl. pose proof (call_wf op s Hwf) as H1.
  destruct (call op s) as [r1 s1]. specialize (IH s1 H1).
  destruct (calls ops s1) as [r2 s2]. exact IH.
Qed.

Lemma DiscardConnection_heap gConn (s : State) :
  heap (DiscardConnection gConn s) = heap s.
Proof.
  destruct (discardConnection_frame gConn (emit World Lock s)) as (_ & Hh & _).
  unfold DiscardConnection. cbn [heap discardedConnections_Add].
  rewrite emit_heap, Hh, emit_heap. reflexivity.
Qed.

Lemma DiscardConnection_recent gConn (s : State) :
  recentConnections (pool (DiscardConnection gConn s))
  = remove_first gConn (recentConnections (pool s)).
Proof.
  destruct (discardConnection_frame gConn (emit World Lock s)) as (_ & _ & _ & Hr & _).
  unfold DiscardConnection. cbn [pool discardedConnections_Add].
  rewrite emit_pool, Hr, emit_pool. reflexivity.
Qed.

Lemma call_checked_out op (s : State) gConn :
  pool_wf s -> checked_out gConn s -> op <> Call_ReturnConnection gConn ->
  checked_out gConn (snd (call op s)) /\ ~ In (Ret gConn) (fst (call op s)).
Proof.
  intros Hwf [Hlt Hbusy] Hop. unfold checked_out.
  destruct op; unfold call; cbn [fst snd].
  - simpl. rewrite length_app, lookup_total_app_l by exact Hlt.
    split; [split; [lia | exact Hbusy] | auto].
  - split; [split; assumption | auto].
  - split; [split; assumption | auto].
  - split; [split; assumption | auto].
  - destruct (GetConnection_origin s Hwf) as (_ & Hl & _ & Hcase).
    destruct (GetConnection s) as [[c | err | msg] s1]; cbn [fst snd] in *.
    + destruct Hcase as (_ & _ & Hc & Hfrom & Hother).
      assert (Hne : gConn <> c).
      { intros <-. destruct Hfrom as [[_ Hidle] | Heq]; [congruence | lia]. }
      split; [split; [lia | rewrite (Hother gConn Hlt Hne); exact Hbusy] |].
      intros [Heq | []]. inversion Heq. congruence.
    + split; [split; [lia | rewrite (Hcase gConn Hlt); exact Hbusy] |].
      intros [Heq | []]. discriminate.
    + contradiction.
  - simpl. rewrite length_insert. split; [| auto]. split; [exact Hlt |].
    rewrite list_lookup_total_insert_ne by congruence. exact Hbusy.
  - rewrite DiscardConnection_heap. split; [split; assumption | auto].
Qed.

Lemma calls_checked_out ops gConn :
  forall s : State,
    pool_wf s -> checked_out gConn s ->
    Forall (fun op => op <> Call_ReturnConnection gConn) ops ->
    ~ In (Ret gConn) (fst (calls ops s)).
Proof.
  induction ops as [| op ops IH]; intros s Hwf Hbusy Hops; [simpl; auto |].
  inversion Hops as [| ? ? Hop Hrest]; subst.
  simpl.
  destruct (call_checked_out op s gConn Hwf Hbusy Hop) as [Hbusy1 Hnot1].
  pose proof (call_wf op s Hwf) as Hwf1.
  destruct (call op s) as [r1 s1]. cbn [fst snd] in *.
  specialize (IH s1 Hwf1 Hbusy1 Hrest).
  destruct (calls ops s1) as [r2 s2]. cbn [fst snd] in *.
  intros Hin. apply in_app_or in Hin as [Hin | Hin]; auto.
Qed.

Lemma call_retired op (s : State) gConn :
  pool_wf s -> retired gConn s ->
  retired gConn (snd (call op s)) /\ ~ In (Ret gConn) (fst (call op s)).
Proof.
  intros Hwf [Hlt Hout]. unfold retired.
  destruct op; unfold call; cbn [fst snd].
  - simpl. rewrite length_app. split; [| auto]. split; [lia |].
    intros Hin. apply in_app_or in Hin as [Hin | [Heq | []]]; [auto | lia].
  - split; [split; assumption | auto].
  - split; [split; assumption | auto].
  - split; [split; assumption | auto].
  - destruct (GetConnection_origin s Hwf) as (_ & Hl & Hrec & Hcase).
    assert (Hout1 : ~ In gConn (recentConnections (pool (snd (GetConnection s))))).
    { intros Hin. destruct (Hrec gConn Hin) as [H | H]; [auto | lia]. }
    destruct (GetConnection s) as [[c | err | msg] s1]; cbn [fst snd] in *.
    + split; [split; [lia | exact Hout1] |].
      intros [Heq | []]. inversion Heq; subst. apply Hout1, Hcase.
    + split; [split; [lia | exact Hout1] |]. intros [Heq | []]. discriminate.
    + contradiction.
  - simpl. rewrite length_insert. split; [split; assumption | auto].
  - rewrite DiscardConnection_heap, DiscardConnection_recent.
    split; [| auto]. split; [exact Hlt |].
    intros Hin. exact (Hout (remove_first_In _ _ _ Hin)).
Qed.

Lemma calls_retired ops gConn :
  forall s : State,
    pool_wf s -> retired gConn s -> ~ In (Ret gConn) (fst (calls ops s)).
Proof.
  induction ops as [| op ops IH]; intros s Hwf Hret; [simpl; auto |].
  simpl.
  destruct (call_retired op s gConn Hwf Hret) as [Hret1 Hnot1].
  pose proof (call_wf op s Hwf) as Hwf1.
  destruct (call op s) as [r1 s1]. cbn [fst snd] in *.
  specialize (IH s1 Hwf1 Hret1).
  destruct (calls ops s1) as [r2 s2]. cbn [fst snd] in *.
  intros Hin. apply in_app_or in Hin as [Hin | Hin]; auto.
Qed.

(** X12 (Pool): Every state that the public operations reach from a new pool holds
    distinct connections that are all in the heap. *)
Theorem reachable_pool_wf w ops : pool_wf (snd (calls ops (NewPool World w))).
Proof. apply calls_wf, NewPool_wf. Qed.

(** X13 (GetConnection): Exclusivity: a connection that [GetConnection] has returned is not
    returned again by any later [GetConnection], whatever is called on the
    pool in between, until [ReturnConnection] is called on it. *)
Theorem GetConnection_exclusive (s : State) gConn ops :
  pool_wf s ->
  fst (GetConnection s) = Ret gConn ->
  Forall (fun op => op <> Call_ReturnConnection gConn) ops ->
  ~ In (Ret gConn) (fst (calls ops (snd (GetConnection s)))).
Proof.
  intros Hwf Hget Hops.
  destruct (GetConnection_origin s Hwf) as (Hwf1 & _ & _ & Hcase).
  rewrite Hget in Hcase. destruct Hcase as (_ & Hlt & Hbusy & _).
  apply calls_checked_out; [exact Hwf1 | split; assumption | exact Hops].
Qed.

Lemma DiscardConnection_retired (s : State) gConn ops :
  pool_wf s ->
  (gConn < length (heap s))%nat ->
  ~ In (Ret gConn) (fst (calls ops (DiscardConnection gConn s))).
Proof.
  intros Hwf Hlt.
  apply calls_retired; [apply DiscardConnection_wf, Hwf |].
  unfold retired. rewrite DiscardConnection_heap, DiscardConnection_recent.
  split; [exact Hlt |]. apply remove_first_NoDup, Hwf.
Qed.

(** X14 (DiscardConnection): Permanence of a discard: after [DiscardConnection] on a connection, no
    later [GetConnection] returns it, whatever is called on the pool, and
    the transport of the connection is closed. *)
Theorem DiscardConnection_permanent (s : State) gConn ops :
  pool_wf s ->
  (gConn < length (heap s))%nat ->
  ~ In (Ret gConn) (fst (calls ops (DiscardConnection gConn s))) /\
  In (Close (rawConn (heap s !!! gConn))) (trace (DiscardConnection gConn s)).
Proof.
  intros Hwf Hlt. split.
  - exact (DiscardConnection_retired s gConn ops Hwf Hlt).
  - apply DiscardConnection_effects.
Qed.

(** *** Providers *)






(** *** Getting and returning *)

(** X16 (GetConnection, ReturnConnection): A connection got and returned is back in the pool and idle, the
    in-use flags of the connections are what they were before it was got,
    and so is the counter of connections in use. *)
Theorem GetConnection_then_ReturnConnection (s : State) gConn :
  pool_wf s ->
  fst (GetConnection s) = Ret gConn ->
  pool_wf (ReturnConnection gConn (snd (GetConnection s))) /\
  In gConn (recentConnections (pool (ReturnConnection gConn (snd (GetConnection s))))) /\
  inUse (heap (ReturnConnection gConn (snd (GetConnection s))) !!! gConn) = false /\
  (forall p, (p < length (heap s))%nat ->
             inUse (heap (ReturnConnection gConn (snd (GetConnection s))) !!! p)
             = inUse (heap s !!! p)) /\
  (in_int64 (activeConnections s) ->
   activeConnections (ReturnConnection gConn (snd (GetConnection s)))
   = activeConnections s).
Proof.
  intros Hwf Hget.
  destruct (GetConnection_origin s Hwf) as (Hwf1 & _ & _ & Hcase).
  destruct (GetConnection_spec s) as (t & _ & _ & _ & _ & Hact).
  rewrite Hget in Hcase, Hact.
  destruct Hcase as (Hin & Hlt & Hbusy & Hfrom & Hother).
  destruct (ReturnConnection_effects gConn (snd (GetConnection s)))
    as (Hidle & Ha & _ & Hp & _).
  split; [apply ReturnConnection_wf, Hwf1 |].
  split; [rewrite Hp; exact Hin |].
  split; [exact Hidle |].
  split.
  - intros p Hp'. destruct (decide (p = gConn)) as [-> | Hne].
    + rewrite Hidle. destruct Hfrom as [[_ Hwas] | ->]; [symmetry; exact Hwas | lia].
    + unfold ReturnConnection. simpl.
      rewrite list_lookup_total_insert_ne by congruence. exact (Hother p Hp' Hne).
  - intros Hrange. rewrite Ha, Hact. apply to_int64_up_down, Hrange.
Qed.

(** X17 (GetConnection): [GetConnection] never panics; it adds one to the counter of
    connections in use exactly when it returns a connection. *)
Theorem GetConnection_counts_active (s : State) :
  match fst (GetConnection s) with
  | Ret _ =>
      activeConnections (snd (GetConnection s)) = to_int64 (activeConnections s + 1)
  | Fail _ => activeConnections (snd (GetConnection s)) = activeConnections s
  | Panic _ => False
  end.
Proof.
  destruct (GetConnection_spec s) as (t & _ & _ & _ & _ & Hcase).
  destruct (fst (GetConnection s)); [exact Hcase | apply Hcase | exact Hcase].
Qed.

(** *** The pool makes no round trip *)

Lemma no_roundtrip_app t1 t2 :
  no_roundtrip (t1 ++ t2) = no_roundtrip t1 && no_roundtrip t2.
Proof. apply forallb_app. Qed.

Lemma no_roundtrip_setup t : forallb is_setup t = true -> no_roundtrip t = true.
Proof.
  induction t as [| e t IH]; [reflexivity |]. simpl.
  intros [He Ht]%andb_true_iff. rewrite (IH Ht), andb_true_r.
  destruct e; try discriminate; reflexivity.
Qed.

Lemma no_roundtrip_filter t :
  no_roundtrip t = true -> filter (fun e => is_roundtrip e) t = [].
Proof.
  induction t as [| e t IH]; [reflexivity |]. unfold no_roundtrip. simpl.
  intros [He Ht]%andb_true_iff. destruct e; try discriminate; simpl; exact (IH Ht).
Qed.

Lemma ask_providers_no_roundtrip (n : nat) :
  forall s : State,
  exists t, trace (snd (ask_providers n s)) = (trace s ++ t)%list
            /\ no_roundtrip t = true.
Proof.
  induction n as [| i IH]; intros s.
  - exists []. simpl. rewrite app_nil_r. auto.
  - simpl. destruct (providers (pool s) !! i) as [p |].
    2:{ exists []. simpl. rewrite app_nil_r. auto. }
    destruct (GetGeodeConnection_spec p s) as ((_ & _ & _ & _ & Ht) & _).
    destruct (GetGeodeConnection p s) as [[c |] s1]; cbn [fst snd] in *.
    + exists [Dial p]. auto.
    + match goal with
      | |- context [ask_providers i ?s2] => destruct (IH s2) as (t & Htr & Hno)
      end.
      exists (Dial p :: Store field_providers :: t). split.
      * rewrite Htr. simpl. rewrite Ht, <- !app_assoc. reflexivity.
      * exact Hno.
Qed.

Lemma select_connection_no_roundtrip (s : State) :
  exists t, trace (snd (select_connection s)) = (trace s ++ t)%list
            /\ no_roundtrip t = true.
Proof.
  unfold select_connection.
  destruct (scan_recent (heap s) (recentConnections (pool s)) None) as [c |].
  - exists []. simpl. rewrite app_nil_r. auto.
  - destruct (ask_providers_no_roundtrip (length (providers (pool s))) s)
      as (t & Htr & Hno).
    destruct (ask_providers (length (providers (pool s))) s) as [[[c |] | err | msg] s1];
      cbn [fst snd] in *.
    + exists (t ++ [Store field_recentConnections])%list. simpl.
      rewrite Htr, <- app_assoc, no_roundtrip_app, Hno. auto.
    + exists t. auto.
    + exists t. auto.
    + exists t. auto.
Qed.

(** [GetConnection] makes no round trip on any transport. *)
Lemma GetConnection_no_roundtrip (s : State) :
  filter (fun e => is_roundtrip e) (trace (snd (GetConnection s)))
  = filter (fun e => is_roundtrip e) (trace s).
Proof.
  unfold GetConnection.
  destruct (select_connection_no_roundtrip (emit World Lock s)) as (t1 & Htr1 & Hno1).
  rewrite emit_trace in Htr1.
  destruct (select_connection (emit World Lock s)) as [[[c |] | err | msg] s1];
    cbn [fst snd] in *.
  - destruct (setup_connection_frame c s1) as (t2 & (_ & _ & _ & _ & Htr2) & _ & _ & _ & Ht2).
    apply no_roundtrip_setup in Ht2.
    destruct (setup_connection c s1) as [[err |] s2]; cbn [fst snd] in *.
    + destruct (discardConnection_frame c s2) as ((_ & _ & _ & _ & Htr3) & _).
      rewrite emit_trace, Htr3, Htr2, Htr1, !filter_app.
      rewrite (no_roundtrip_filter _ Hno1), (no_roundtrip_filter _ Ht2). simpl.
      match goal with |- context [if ?b then _ else _] => destruct b end;
        simpl; rewrite ?app_nil_r; reflexivity.
    + simpl. rewrite Htr2, Htr1, !filter_app.
      rewrite (no_roundtrip_filter _ Hno1), (no_roundtrip_filter _ Ht2). simpl.
      rewrite ?app_nil_r. reflexivity.
  - rewrite emit_trace, Htr1, !filter_app, (no_roundtrip_filter _ Hno1). simpl.
    rewrite ?app_nil_r. reflexivity.
  - rewrite emit_trace, Htr1, !filter_app, (no_roundtrip_filter _ Hno1). simpl.
    rewrite ?app_nil_r. reflexivity.
  - rewrite emit_trace, Htr1, !filter_app, (no_roundtrip_filter _ Hno1). simpl.
    rewrite ?app_nil_r. reflexivity.
Qed.

Lemma ReturnConnection_no_roundtrip gConn (s : State) :
  filter (fun e => is_roundtrip e) (trace (ReturnConnection gConn s))
  = filter (fun e => is_roundtrip e) (trace s).
Proof.
  destruct (ReturnConnection_effects gConn s) as (_ & _ & -> & _).
  rewrite filter_app. simpl. apply app_nil_r.
Qed.

Lemma DiscardConnection_no_roundtrip gConn (s : State) :
  filter (fun e => is_roundtrip e) (trace (DiscardConnection gConn s))
  = filter (fun e => is_roundtrip e) (trace s).
Proof.
  destruct (discardConnection_frame gConn (emit World Lock s))
    as ((_ & _ & _ & _ & Htr) & _).
  unfold DiscardConnection. cbn [trace discardedConnections_Add].
  rewrite emit_trace, Htr, emit_trace, !filter_app. simpl.
  match goal with |- context [if ?b then _ else _] => destruct b end;
    simpl; rewrite ?app_nil_r; reflexivity.
Qed.

(** *** One attempt of [doOperation] *)

Local Abbreviation after_exchange := (after_exchange World exchange).

(** One level of [doOperation], once it has a connection. *)
Lemma doOperation_step fuel request (s : State) gConn s1 :
  GetConnection s = (Ret gConn, s1) ->
  doOperation (S fuel) request s
  = let c := rawConn (heap s1 !!! gConn) in
    match doOperationWithConnection (fst (exchange c request (world s1))) with
    | Panic msg => Some (Panic msg, ReturnConnection gConn (after_exchange c request s1))
    | Ret message =>
        Some (Ret message, ReturnConnection gConn (after_exchange c request s1))
    | Fail err =>
        if is_RetryableError err then
          match doOperation fuel request
                  (DiscardConnection gConn (after_exchange c request s1)) with
          | None => None
          | Some (r, s2) => Some (r, ReturnConnection gConn s2)
          end
        else Some (Fail err,
                   ReturnConnection gConn
                     (DiscardConnection gConn (after_exchange c request s1)))
    end.
Proof.
  intros Hget. simpl. rewrite Hget.
  unfold after_exchange.
  destruct (exchange (rawConn (heap s1 !!! gConn)) request (world s1)) as [x w].
  reflexivity.
Qed.

Lemma ReturnConnection_heap_length gConn (s : State) :
  length (heap (ReturnConnection gConn s)) = length (heap s).
Proof. unfold ReturnConnection. simpl. apply length_insert. Qed.

Lemma after_exchange_same c request (s : State) :
  heap (after_exchange c request s) = heap s /\
  pool (after_exchange c request s) = pool s /\
  activeConnections (after_exchange c request s) = activeConnections s /\
  discardedConnections (after_exchange c request s) = discardedConnections s /\
  trace (after_exchange c request s) = (trace s ++ [RoundTrip c])%list.
Proof. unfold after_exchange. simpl. auto. Qed.

Lemma after_exchange_wf c request (s : State) :
  pool_wf s -> pool_wf (after_exchange c request s).
Proof. intros H. exact H. Qed.

(** X19 (doOperation): An error of the round trip that is not retryable (a write error that
    is not a failed write, a read error that is not an end of stream, an
    error reported by the server) ends [doOperation] after that one round
    trip: the error is returned, the connection is out of the pool for
    good, its transport is closed, and the counter of discarded connections
    has gone up by one. *)
Theorem doOperation_fatal_error fuel request (s : State) gConn s1 err :
  pool_wf s ->
  GetConnection s = (Ret gConn, s1) ->
  doOperationWithConnection
    (fst (exchange (rawConn (heap s1 !!! gConn)) request (world s1))) = Fail err ->
  is_RetryableError err = false ->
  exists s',
    doOperation (S fuel) request s = Some (Fail err, s') /\
    (forall ops, ~ In (Ret gConn) (fst (calls ops s'))) /\
    In (Close (rawConn (heap s1 !!! gConn))) (trace s') /\
    filter (fun e => is_roundtrip e) (trace s')
    = (filter (fun e => is_roundtrip e) (trace s)
       ++ [RoundTrip (rawConn (heap s1 !!! gConn))])%list /\
    discardedConnections s' = to_int64 (discardedConnections s + 1).
Proof.
  intros Hwf Hget Hx Hfatal.
  rewrite (doOperation_step fuel request s gConn s1 Hget). cbv zeta.
  rewrite Hx, Hfatal. eexists. split; [reflexivity |].
  destruct (GetConnection_origin s Hwf) as (Hwf1 & _ & _ & Hcase).
  pose proof (GetConnection_no_roundtrip s) as Hrt.
  destruct (GetConnection_spec s) as (t & _ & _ & Hd & _).
  rewrite Hget in Hcase, Hrt, Hd, Hwf1. cbn [fst snd] in Hcase, Hrt, Hd, Hwf1.
  destruct Hcase as (_ & Hlt & _).
  destruct (after_exchange_same (rawConn (heap s1 !!! gConn)) request s1)
    as (Hh & Hp & _ & Hdx & Htx).
  pose proof (after_exchange_wf (rawConn (heap s1 !!! gConn)) request s1 Hwf1) as Hwfx.
  remember (after_exchange (rawConn (heap s1 !!! gConn)) request s1) as sx eqn:Hsx.
  destruct (ReturnConnection_effects gConn (DiscardConnection gConn sx))
    as (_ & _ & Htr' & Hp' & Hd').
  destruct (DiscardConnection_effects gConn sx) as (_ & Hdd & _ & Hclose).
  split.
  { intros ops. apply calls_retired.
    - apply ReturnConnection_wf, DiscardConnection_wf, Hwfx.
    - split.
      + rewrite ReturnConnection_heap_length, DiscardConnection_heap, Hh. exact Hlt.
      + rewrite Hp', DiscardConnection_recent. apply remove_first_NoDup, Hwfx. }
  split.
  { rewrite Htr'. apply in_or_app. left. rewrite Hh in Hclose. exact Hclose. }
  split.
  { rewrite ReturnConnection_no_roundtrip, DiscardConnection_no_roundtrip.
    rewrite Htx, filter_app, Hrt. reflexivity. }
  rewrite Hd', Hdd, Hdx, Hd. reflexivity.
Qed.

(** X20 (doOperation): A round trip that succeeds ends [doOperation] with the message of
    the server: the connection is back in the pool and idle, its transport
    is not closed, nothing is discarded, and one round trip was made. *)
Theorem doOperation_success fuel request (s : State) gConn s1 message :
  pool_wf s ->
  GetConnection s = (Ret gConn, s1) ->
  doOperationWithConnection
    (fst (exchange (rawConn (heap s1 !!! gConn)) request (world s1))) = Ret message ->
  exists s',
    doOperation (S fuel) request s = Some (Ret message, s') /\
    pool_wf s' /\
    In gConn (recentConnections (pool s')) /\
    inUse (heap s' !!! gConn) = false /\
    trace s' = (trace s1 ++ [RoundTrip (rawConn (heap s1 !!! gConn)); Lock;
                             Store (field_inUse gConn); Unlock])%list /\
    filter (fun e => is_roundtrip e) (trace s')
    = (filter (fun e => is_roundtrip e) (trace s)
       ++ [RoundTrip (rawConn (heap s1 !!! gConn))])%list /\
    discardedConnections s' = discardedConnections s.
Proof.
  intros Hwf Hget Hx.
  rewrite (doOperation_step fuel request s gConn s1 Hget). cbv zeta.
  rewrite Hx. eexists. split; [reflexivity |].
  destruct (GetConnection_origin s Hwf) as (Hwf1 & _ & _ & Hcase).
  pose proof (GetConnection_no_roundtrip s) as Hrt.
  destruct (GetConnection_spec s) as (t & _ & _ & Hd & _).
  rewrite Hget in Hcase, Hrt, Hd, Hwf1. cbn [fst snd] in Hcase, Hrt, Hd, Hwf1.
  destruct Hcase as (Hin & _).
  destruct (after_exchange_same (rawConn (heap s1 !!! gConn)) request s1)
    as (Hh & Hp & _ & Hdx & Htx).
  pose proof (after_exchange_wf (rawConn (heap s1 !!! gConn)) request s1 Hwf1) as Hwfx.
  remember (after_exchange (rawConn (heap s1 !!! gConn)) request s1) as sx eqn:Hsx.
  destruct (ReturnConnection_effects gConn sx) as (Hidle & _ & Htr' & Hp' & Hd').
  split; [apply ReturnConnection_wf, Hwfx |].
  split; [rewrite Hp', Hp; exact Hin |].
  split; [exact Hidle |].
  split; [rewrite Htr', Htx, <- app_assoc; reflexivity |].
  split.
  { rewrite ReturnConnection_no_roundtrip, Htx, filter_app, Hrt. reflexivity. }
  rewrite Hd', Hdx, Hd. reflexivity.
Qed.

(** X21 (doOperation): A retryable error (a failed write, an end of stream on reading) makes
    [doOperation] discard the connection and start over on the pool as it
    is then: the result is the result of that second run, which cannot get
    the discarded connection again. *)
Theorem doOperation_retry fuel request (s : State) gConn s1 err r s' :
  pool_wf s ->
  GetConnection s = (Ret gConn, s1) ->
  doOperationWithConnection
    (fst (exchange (rawConn (heap s1 !!! gConn)) request (world s1))) = Fail err ->
  is_RetryableError err = true ->
  doOperation (S fuel) request s = Some (r, s') ->
  exists s2,
    doOperation fuel request
      (DiscardConnection gConn
         (after_exchange (rawConn (heap s1 !!! gConn)) request s1)) = Some (r, s2) /\
    s' = ReturnConnection gConn s2 /\
    fst (GetConnection
           (DiscardConnection gConn
              (after_exchange (rawConn (heap s1 !!! gConn)) request s1))) <> Ret gConn /\
    discardedConnections
      (DiscardConnection gConn
         (after_exchange (rawConn (heap s1 !!! gConn)) request s1))
    = to_int64 (discardedConnections s + 1).
Proof.
  intros Hwf Hget Hx Hretry Hrun.
  rewrite (doOperation_step fuel request s gConn s1 Hget) in Hrun. cbv zeta in Hrun.
  rewrite Hx, Hretry in Hrun.
  destruct (GetConnection_origin s Hwf) as (Hwf1 & _ & _ & Hcase).
  destruct (GetConnection_spec s) as (t & _ & _ & Hd & _).
  rewrite Hget in Hcase, Hd, Hwf1. cbn [fst snd] in Hcase, Hd, Hwf1.
  destruct Hcase as (_ & Hlt & _).
  destruct (after_exchange_same (rawConn (heap s1 !!! gConn)) request s1)
    as (Hh & Hp & _ & Hdx & Htx).
  pose proof (after_exchange_wf (rawConn (heap s1 !!! gConn)) request s1 Hwf1) as Hwfx.
  remember (after_exchange (rawConn (heap s1 !!! gConn)) request s1) as sx eqn:Hsx.
  destruct (doOperation fuel request (DiscardConnection gConn sx)) as [[r2 s2] |];
    [| discriminate].
  inversion Hrun; subst r s'. exists s2.
  split; [reflexivity |]. split; [reflexivity |]. split.
  - pose proof (DiscardConnection_retired sx gConn [Call_GetConnection] Hwfx
                  ltac:(rewrite Hh; exact Hlt)) as Hperm.
    intros Heq. apply Hperm. simpl.
    destruct (GetConnection (DiscardConnection gConn sx)) as [r1 s3].
    cbn [fst] in *. left. exact Heq.
  - destruct (DiscardConnection_effects gConn sx) as (_ & Hdd & _).
    rewrite Hdd, Hdx, Hd. reflexivity.
Qed.

End PoolProperties.

(** ** The sample network *)

Lemma GetConnection_exhausted_witness :
  fst (SampleNet.GetConnection SampleNet.no_server)
  = Fail (errors_New "no connections available") /\
  providers (pool (snd (SampleNet.GetConnection SampleNet.no_server))) = [].
Proof.
  destruct (GetConnection_exhausted SampleNet.World SampleNet.dial
              SampleNet.handshake_io SampleNet.authenticate_io SampleNet.no_server)
    as (Hfail & Hempty & _).
  - constructor.
  - intros p w [<- | [<- | []]]; reflexivity.
  - split; assumption.
Defined.

Lemma bad_handshake_wf : pool_wf SampleNet.World SampleNet.bad_handshake.
Proof.
  split; simpl.
  - apply NoDup_singleton.
  - repeat constructor.
Qed.

Lemma GetConnection_setup_failure_witness :
  fst (SampleNet.GetConnection SampleNet.bad_handshake)
  = Fail (errors_New "handshake refused") /\
  ~ In 0%nat (recentConnections
                (pool (snd (SampleNet.GetConnection SampleNet.bad_handshake)))).
Proof.
  destruct (GetConnection_setup_failure SampleNet.World SampleNet.dial
              SampleNet.handshake_io SampleNet.authenticate_io
              SampleNet.bad_handshake 0%nat
              (emit SampleNet.World Lock SampleNet.bad_handshake)
              (errors_New "handshake refused")
              (snd (handshake SampleNet.World SampleNet.handshake_io 0%nat
                      (emit SampleNet.World Lock SampleNet.bad_handshake))))
    as (Hfail & Hout & _).
  - exact bad_handshake_wf.
  - reflexivity.
  - left. reflexivity.
  - split; assumption.
Defined.

Lemma bad_password_wf : pool_wf SampleNet.World SampleNet.bad_password.
Proof.
  split; simpl.
  - apply NoDup_singleton.
  - repeat constructor.
Qed.

Lemma discardedConnections_only_by_DiscardConnection_witness :
  ~ In 0%nat (recentConnections
                (pool (snd (SampleNet.GetConnection SampleNet.bad_password)))) /\
  discardedConnections (snd (SampleNet.GetConnection SampleNet.bad_password))
  = discardedConnections SampleNet.bad_password.
Proof.
  destruct (proj1 (discardedConnections_only_by_DiscardConnection SampleNet.World
                     SampleNet.dial SampleNet.handshake_io SampleNet.authenticate_io)
              SampleNet.bad_password 0%nat
              (emit SampleNet.World Lock SampleNet.bad_password)
              (errors_New "authentication failed")
              (snd (authenticate SampleNet.World SampleNet.authenticate_io 0%nat
                      "user" "guess"
                      (emit SampleNet.World Lock SampleNet.bad_password))))
    as (Hout & _ & Hcount).
  - exact bad_password_wf.
  - reflexivity.
  - right. exists (emit SampleNet.World Lock SampleNet.bad_password).
    split; [reflexivity |]. split; reflexivity.
  - split; assumption.
Defined.

(** Of three idle connections the last one added is returned. *)
Example GetConnection_three_connections :
  fst (SampleNet.GetConnection SampleNet.three_connections) = Ret 2%nat.
Proof. reflexivity. Qed.

Lemma GetConnection_reuses_last_idle_witness :
  exists before c after t,
    recentConnections (pool SampleNet.three_connections) = (before ++ c :: after)%list /\
    inUse (heap SampleNet.three_connections !!! c) = false /\
    Forall (fun c' => inUse (heap SampleNet.three_connections !!! c') = true) after /\
    trace (snd (SampleNet.GetConnection SampleNet.three_connections))
    = (trace SampleNet.three_connections ++ t)%list /\
    forallb (fun e => negb (is_dial e)) t = true.
Proof.
  destruct (GetConnection_reuses_last_idle SampleNet.World SampleNet.dial
              SampleNet.handshake_io SampleNet.authenticate_io
              SampleNet.three_connections)
    as (before & c & after & t & Hl & Hc & Hafter & _ & _ & Htr & Ht & _).
  - apply Exists_cons_hd. reflexivity.
  - exists before, c, after, t. repeat split; assumption.
Defined.

(** A request on the pool of three connections: the first round trip ends
    in an end of stream, the second is answered. *)
Lemma doOperation_returns_connection_witness :
  match doOperation SampleNet.World SampleNet.dial SampleNet.handshake_io
          SampleNet.authenticate_io SampleNet.exchange
          2 (Message_Other "PutRequest") SampleNet.three_connections with
  | Some (r, s') =>
      r = Ret (Message_Other "PutResponse") /\
      inUse (heap s' !!! 2%nat) = false /\
      activeConnections s' = 0
  | None => False
  end.
Proof.
  assert (Hget : GetConnection SampleNet.World SampleNet.dial SampleNet.handshake_io
                   SampleNet.authenticate_io SampleNet.three_connections
                 = (Ret 2%nat,
                    snd (GetConnection SampleNet.World SampleNet.dial
                           SampleNet.handshake_io SampleNet.authenticate_io
                           SampleNet.three_connections)))
    by (vm_compute; reflexivity).
  destruct (doOperation SampleNet.World SampleNet.dial SampleNet.handshake_io
              SampleNet.authenticate_io SampleNet.exchange
              2 (Message_Other "PutRequest") SampleNet.three_connections)
    as [[r s'] |] eqn:Hrun;
    [| vm_compute in Hrun; discriminate].
  pose proof (doOperation_returns_connection SampleNet.World SampleNet.dial
                SampleNet.handshake_io SampleNet.authenticate_io SampleNet.exchange
                2 (Message_Other "PutRequest") SampleNet.three_connections r s' 2%nat
                _ Hrun Hget) as (s2 & _ & Hidle & _ & _ & Hbal).
  split; [| split].
  - vm_compute in Hrun. inversion Hrun. reflexivity.
  - exact Hidle.
  - apply Hbal. change (in_int64 0). unfold in_int64. lia.
Defined.

(** ** Samples of the codec *)

Lemma roundtrip_int16_witness :
  Sample.roundtrip (V_int16 (-7)) V_nil = Ret (V_int32 (-7)).
Proof.
  apply (roundtrip_int16 Sample.json_Marshal Sample.json_Unmarshal Sample.fmt_v (-7) V_nil).
  unfold in_int16. lia.
Defined.

Lemma DecodeValue_template_only_for_json_witness :
  Sample.DecodeValue (Sample.str "hello") (V_other (Sample.Array2 1 2))
  = Sample.DecodeValue (Sample.str "hello") V_nil.
Proof.
  apply (DecodeValue_template_only_for_json Sample.json_Unmarshal Sample.fmt_v
           (Sample.str "hello") (V_other (Sample.Array2 1 2)) eq_refl).
Defined.

Lemma EncodeList_elementwise_witness :
  (exists evs, EncodeList Sample.other Sample.json_Marshal
                 (Some [V_string "a"; V_int32 1]) = Ret evs) /\
  EncodeList Sample.other Sample.json_Marshal
    (Some [V_string "a"; V_other Sample.Chan; V_int32 1])
  = Fail (errors_New "json: unsupported type: chan int").
Proof.
  destruct (EncodeList_elementwise Sample.json_Marshal) as (_ & Hok & Hfail).
  split.
  - destruct (Hok [V_string "a"; V_int32 1]) as (evs & Hrun & _).
    + repeat constructor; eexists; reflexivity.
    + exists evs. exact Hrun.
  - apply (Hfail [V_string "a"] [V_int32 1] (V_other Sample.Chan)).
    + repeat constructor; eexists; reflexivity.
    + reflexivity.
Defined.

Lemma list_roundtrip_witness :
  exists evl,
    EncodeValueList Sample.other Sample.json_Marshal
      (Some [V_byte 255; V_string "a"; V_int64 (-1)]) = Ret evl /\
    DecodeValueList Sample.other Sample.json_Unmarshal Sample.fmt_v (Some evl) V_nil
    = Ret [V_byte 255; V_string "a"; V_int64 (-1)].
Proof.
  destruct (list_roundtrip Sample.json_Marshal Sample.json_Unmarshal Sample.fmt_v
              [V_byte 255; V_string "a"; V_int64 (-1)])
    as (evl & Hrun & _ & Hback).
  - repeat constructor; simpl; unfold in_uint8, in_int64; lia.
  - exists evl. split; [exact Hrun | apply Hback].
Defined.

(** Two JSON arrays decoded into one template: both positions show the
    second array. *)
Example DecodeValueList_mixed :
  SamplePointer.DecodeValueList (Some SamplePointer.mixed)
    (V_other (SamplePointer.ArrayPtr 0 0))
  = Ret [ V_other (SamplePointer.ArrayPtr 3 4); V_string "s";
          V_other (SamplePointer.ArrayPtr 3 4) ].
Proof. reflexivity. Qed.

Lemma DecodeValueList_shares_template_witness :
  exists final,
    (forall (i : nat) v,
       Element SamplePointer.mixed !! i = Some v ->
       if is_json v
       then [ V_other (SamplePointer.ArrayPtr 3 4); V_string "s";
              V_other (SamplePointer.ArrayPtr 3 4) ] !! i = Some final
       else exists val,
              [ V_other (SamplePointer.ArrayPtr 3 4); V_string "s";
                V_other (SamplePointer.ArrayPtr 3 4) ] !! i = Some val /\
              DecodeValue SamplePointer.other SamplePointer.json_Unmarshal
                SamplePointer.fmt_v v V_nil = Ret val) /\
    (forall before v after,
       Element SamplePointer.mixed = (before ++ v :: after)%list ->
       is_json v = true ->
       Forall (fun e => is_json e = false) after ->
       exists slots ref',
         DecodeValueList_loop SamplePointer.other SamplePointer.json_Unmarshal
           SamplePointer.fmt_v before (V_other (SamplePointer.ArrayPtr 0 0))
         = Ret (slots, ref') /\
         (Forall (fun e => is_json e = false) before ->
          ref' = V_other (SamplePointer.ArrayPtr 0 0)) /\
         DecodeValue SamplePointer.other SamplePointer.json_Unmarshal
           SamplePointer.fmt_v v ref' = Ret final).
Proof.
  exact (proj2 (DecodeValueList_shares_template SamplePointer.json_Unmarshal
                  SamplePointer.fmt_v (Some SamplePointer.mixed)
                  (V_other (SamplePointer.ArrayPtr 0 0)) _ eq_refl)).
Defined.

Lemma decodedFunctionResults_elementwise_witness :
  decodedFunctionResults Sample.other Sample.json_Unmarshal Sample.fmt_v
    [Sample.str "a"; Sample.str "b"] = Ret [V_string "a"; V_string "b"] /\
  exists err,
    decodedFunctionResults Sample.other Sample.json_Unmarshal Sample.fmt_v
      [Sample.str "a"; Sample.json "[1,2]"] = Fail err.
Proof.
  split.
  - apply (proj1 (decodedFunctionResults_elementwise Sample.json_Unmarshal Sample.fmt_v
                    [Sample.str "a"; Sample.str "b"])).
    repeat constructor.
  - apply (proj2 (decodedFunctionResults_elementwise Sample.json_Unmarshal Sample.fmt_v
                    [Sample.str "a"; Sample.json "[1,2]"])).
    apply Exists_cons_tl, Exists_cons_hd. reflexivity.
Defined.

(** The answer to a [GetAll] of k1 and k2 that the server could fulfil. *)
Lemma GetAll_failures_nil_when_none_witness :
  exists decodedEntries,
    Sample.GetAll_results
      (Some {| Entries := [ {| Entry_Key := Sample.str "k1"; Entry_Value := Sample.str "v1" |};
                            {| Entry_Key := Sample.str "k2"; Entry_Value := Sample.str "v2" |} ];
               Failures := [] |})
    = Ret (decodedEntries, None).
Proof.
  destruct (proj2 (GetAll_failures_nil_when_none Sample.json_Unmarshal Sample.hashable
                     Sample.eq Sample.fmt_v
                     {| Entries := [ {| Entry_Key := Sample.str "k1";
                                        Entry_Value := Sample.str "v1" |};
                                     {| Entry_Key := Sample.str "k2";
                                        Entry_Value := Sample.str "v2" |} ];
                        Failures := [] |}))
    as (de & Hrun & _).
  - repeat constructor; try (eexists; split; reflexivity); eexists; reflexivity.
  - reflexivity.
  - exists de. exact Hrun.
Defined.

Lemma PutAll_failures_reported_witness :
  (exists failures,
     PutAll_results Sample.other Sample.json_Unmarshal Sample.hashable Sample.eq
       Sample.fmt_v
       (Some {| FailedKeys :=
                  [ {| KeyedError_Key := Sample.str "k1";
                       KeyedError_Error :=
                         Some {| Message := "denied"; ErrorCode := 3 |} |} ] |})
     = Ret (Some failures)) /\
  PutAll_results Sample.other Sample.json_Unmarshal Sample.hashable Sample.eq
    Sample.fmt_v
    (Some {| FailedKeys :=
               [ {| KeyedError_Key := Sample.binary [Byte.x6b];
                    KeyedError_Error :=
                      Some {| Message := "denied"; ErrorCode := 3 |} |} ] |})
  = Panic unhashable.
Proof.
  destruct (PutAll_failures_reported Sample.json_Unmarshal Sample.hashable
              Sample.eq Sample.fmt_v) as (_ & _ & Hsome & _ & Hpanic).
  split.
  - destruct (Hsome {| FailedKeys :=
                         [ {| KeyedError_Key := Sample.str "k1";
                              KeyedError_Error :=
                                Some {| Message := "denied"; ErrorCode := 3 |} |} ] |})
      as (f & Hrun & _).
    + discriminate.
    + repeat constructor; try discriminate. eexists; split; reflexivity.
    + exists f. exact Hrun.
  - apply (proj2 (Hpanic {| FailedKeys :=
                              [ {| KeyedError_Key := Sample.binary [Byte.x6b];
                                   KeyedError_Error :=
                                     Some {| Message := "denied"; ErrorCode := 3 |} |} ] |}
                    []
                    {| KeyedError_Key := Sample.binary [Byte.x6b];
                       KeyedError_Error := Some {| Message := "denied"; ErrorCode := 3 |} |}
                    [] (V_bytes [Byte.x6b]) eq_refl (List.Forall_nil _) eq_refl)).
    + discriminate.
    + reflexivity.
Defined.

Lemma int_table_same_type name vs :
  Sample.int_table !! name = Some vs ->
  Forall (fun v : GoValue Sample.other => same_type_kind v = true /\ well_typed v) vs.
Proof.
  unfold Sample.int_table. intros H.
  apply lookup_insert_Some in H as [[_ <-] | [_ H]].
  - repeat constructor; simpl; unfold in_int32; lia.
  - apply lookup_singleton_Some in H as [_ <-].
    repeat constructor; simpl; unfold in_int32; lia.
Qed.

Lemma table_roundtrip_witness :
  exists t,
    Sample.EncodeTable_order Sample.int_table (map_to_list Sample.int_table) = Ret t /\
    QueryTableResult_table Sample.other Sample.json_Unmarshal Sample.fmt_v (Some t) V_nil
    = Ret Sample.int_table.
Proof.
  exact (table_roundtrip Sample.json_Marshal Sample.json_Unmarshal Sample.fmt_v
           Sample.int_table (map_to_list Sample.int_table) V_nil
           (Permutation_refl _) int_table_same_type).
Defined.

(** ** Samples of the pool *)

Lemma three_connections_wf : pool_wf SampleNet.World SampleNet.three_connections.
Proof.
  unfold SampleNet.three_connections, SampleNet.AddConnection.
  repeat apply AddConnection_wf. apply NewPool_wf.
Qed.

Lemma GetConnection_exclusive_witness :
  ~ In (Ret 2%nat)
      (fst (calls SampleNet.World SampleNet.dial SampleNet.handshake_io
              SampleNet.authenticate_io
              [Call_GetConnection; Call_DiscardConnection 2%nat; Call_GetConnection]
              (snd (GetConnection SampleNet.World SampleNet.dial SampleNet.handshake_io
                      SampleNet.authenticate_io SampleNet.three_connections)))).
Proof.
  apply (GetConnection_exclusive SampleNet.World SampleNet.dial SampleNet.handshake_io
           SampleNet.authenticate_io SampleNet.three_connections 2%nat).
  - exact three_connections_wf.
  - vm_compute. reflexivity.
  - repeat constructor; discriminate.
Defined.

Lemma DiscardConnection_permanent_witness :
  ~ In (Ret 1%nat)
      (fst (calls SampleNet.World SampleNet.dial SampleNet.handshake_io
              SampleNet.authenticate_io
              [Call_GetConnection; Call_ReturnConnection 1%nat; Call_GetConnection]
              (DiscardConnection SampleNet.World 1%nat SampleNet.three_connections))).
Proof.
  apply (DiscardConnection_permanent SampleNet.World SampleNet.dial SampleNet.handshake_io
           SampleNet.authenticate_io SampleNet.three_connections 1%nat).
  - exact three_connections_wf.
  - vm_compute. lia.
Defined.


Lemma GetConnection_then_ReturnConnection_witness :
  inUse (heap (ReturnConnection SampleNet.World 2%nat
                 (snd (GetConnection SampleNet.World SampleNet.dial SampleNet.handshake_io
                         SampleNet.authenticate_io SampleNet.three_connections)))
         !!! 2%nat) = false.
Proof.
  assert (Hget : fst (GetConnection SampleNet.World SampleNet.dial SampleNet.handshake_io
                        SampleNet.authenticate_io SampleNet.three_connections)
                 = Ret 2%nat) by (vm_compute; reflexivity).
  exact (proj1 (proj2 (proj2 (GetConnection_then_ReturnConnection SampleNet.World
                                SampleNet.dial SampleNet.handshake_io
                                SampleNet.authenticate_io SampleNet.three_connections
                                2%nat three_connections_wf Hget)))).
Defined.

Lemma GetConnection_three_connections_run :
  GetConnection SampleNet.World SampleNet.dial SampleNet.handshake_io
    SampleNet.authenticate_io SampleNet.three_connections
  = (Ret 2%nat,
     snd (GetConnection SampleNet.World SampleNet.dial SampleNet.handshake_io
            SampleNet.authenticate_io SampleNet.three_connections)).
Proof. vm_compute. reflexivity. Qed.

Lemma doOperation_fatal_error_witness :
  exists s',
    doOperation SampleNet.World SampleNet.dial SampleNet.handshake_io
      SampleNet.authenticate_io SampleNet.refusing
      1 (Message_Other "GetRequest") SampleNet.three_connections
    = Some (Fail (errors_New "region not found (5)"), s') /\
    discardedConnections s' = 1.
Proof.
  destruct (doOperation_fatal_error SampleNet.World SampleNet.dial SampleNet.handshake_io
              SampleNet.authenticate_io SampleNet.refusing
              0 (Message_Other "GetRequest") SampleNet.three_connections 2%nat _
              (errors_New "region not found (5)")
              three_connections_wf GetConnection_three_connections_run)
    as (s' & Hrun & _ & _ & _ & Hd).
  - vm_compute. reflexivity.
  - reflexivity.
  - exists s'. split; [exact Hrun |]. rewrite Hd. reflexivity.
Defined.

Lemma doOperation_success_witness :
  exists s',
    doOperation SampleNet.World SampleNet.dial SampleNet.handshake_io
      SampleNet.authenticate_io SampleNet.answering
      1 (Message_Other "PutRequest") SampleNet.three_connections
    = Some (Ret (Message_Other "PutResponse"), s') /\
    inUse (heap s' !!! 2%nat) = false /\
    discardedConnections s' = 0.
Proof.
  destruct (doOperation_success SampleNet.World SampleNet.dial SampleNet.handshake_io
              SampleNet.authenticate_io SampleNet.answering
              0 (Message_Other "PutRequest") SampleNet.three_connections 2%nat _
              (Message_Other "PutResponse")
              three_connections_wf GetConnection_three_connections_run)
    as (s' & Hrun & _ & _ & Hidle & _ & _ & Hd).
  - vm_compute. reflexivity.
  - exists s'. split; [exact Hrun |]. split; [exact Hidle |]. rewrite Hd. reflexivity.
Defined.

(** The first round trip ends in an end of stream: the second attempt is
    not made on the discarded connection. *)
Lemma doOperation_retry_witness :
  fst (GetConnection SampleNet.World SampleNet.dial SampleNet.handshake_io
         SampleNet.authenticate_io
         (DiscardConnection SampleNet.World 2%nat
            (after_exchange SampleNet.World SampleNet.exchange
               (rawConn (heap (snd (GetConnection SampleNet.World SampleNet.dial
                                      SampleNet.handshake_io SampleNet.authenticate_io
                                      SampleNet.three_connections)) !!! 2%nat))
               (Message_Other "PutRequest")
               (snd (GetConnection SampleNet.World SampleNet.dial SampleNet.handshake_io
                       SampleNet.authenticate_io SampleNet.three_connections)))))
  <> Ret 2%nat.
Proof.
  destruct (doOperation SampleNet.World SampleNet.dial SampleNet.handshake_io
              SampleNet.authenticate_io SampleNet.exchange
              2 (Message_Other "PutRequest") SampleNet.three_connections)
    as [[r s'] |] eqn:Hrun;
    [| vm_compute in Hrun; discriminate].
  destruct (doOperation_retry SampleNet.World SampleNet.dial SampleNet.handshake_io
              SampleNet.authenticate_io SampleNet.exchange
              1 (Message_Other "PutRequest") SampleNet.three_connections 2%nat _
              (RetryableError io_EOF) r s'
              three_connections_wf GetConnection_three_connections_run)
    as (s2 & _ & _ & Hother & _).
  - vm_compute. reflexivity.
  - reflexivity.
  - exact Hrun.
  - exact Hother.
Defined.

(** ** Reading a message *)

Section FramingFacts.

Variable World : Type.
Variable net_Read : net_Conn -> nat -> World -> (list Byte.byte * option error) * World.
Variable io_ReadFull : net_Conn -> nat -> World -> (list Byte.byte * option error) * World.
Variable DecodeVarint : list Byte.byte -> Z * Z.
Variable DecodeMessage : list Byte.byte -> v1_Message + error.
Variable maxAlloc : Z.

Local Abbreviation read_more := (read_more World io_ReadFull).
Local Abbreviation messageLength_of := (messageLength_of DecodeVarint).
Local Abbreviation readRawMessage :=
  (readRawMessage World net_Read io_ReadFull DecodeVarint maxAlloc).
Local Abbreviation readResponse :=
  (readResponse World net_Read io_ReadFull DecodeVarint DecodeMessage maxAlloc).
Local Abbreviation ReadFull_fills := (ReadFull_fills World io_ReadFull).
Local Abbreviation frame_of := (frame_of DecodeVarint).

Lemma read_more_enough (fuel : nat) (connection : net_Conn) (data : list Byte.byte)
    (len : Z) (w : World) :
  len <= Z.of_nat (length data) ->
  read_more fuel connection data len w = Some (Ret data, w).
Proof.
  intros Hle. destruct fuel; simpl;
    (destruct (Z.ltb_spec (Z.of_nat (length data)) len); [lia | reflexivity]).
Qed.

Lemma read_more_spec (fuel : nat) (connection : net_Conn) (data : list Byte.byte)
    (len : Z) (w : World) :
  ReadFull_fills ->
  exists r w', read_more (S fuel) connection data len w = Some (r, w') /\
    (forall msg, r <> Panic msg) /\
    forall out, r = Ret out ->
      data `prefix_of` out /\
      Z.of_nat (length out) = Z.max (Z.of_nat (length data)) len.
Proof.
  intros Hfull. simpl.
  destruct (Z.ltb_spec (Z.of_nat (length data)) len) as [Hlt | Hge].
  - destruct (io_ReadFull connection (Z.to_nat (len - Z.of_nat (length data))) w)
      as [[got err] w1] eqn:Hread.
    destruct err as [err |].
    + exists (Fail err), w1. split; [reflexivity |]. split; discriminate.
    + apply Hfull in Hread.
      exists (Ret (data ++ got)%list), w1. split.
      * apply read_more_enough. rewrite length_app, Hread. lia.
      * split; [discriminate |]. intros out [= <-]. split.
        -- now apply prefix_app_r.
        -- rewrite length_app, Hread. lia.
  - exists (Ret data), w. split; [reflexivity |]. split; [discriminate |].
    intros out [= <-]. split; [reflexivity | lia].
Qed.

Lemma readRawMessage_spec (fuel : nat) (connection : net_Conn) (w : World) :
  ReadFull_fills ->
  exists r w', readRawMessage (S fuel) connection w = Some (r, w') /\
    (forall msg, r = Panic msg ->
       exists chunk w1,
         net_Read connection 4096%nat w = ((chunk, None), w1) /\
         maxAlloc < messageLength_of chunk /\ 4096 < messageLength_of chunk) /\
    forall out, r = Ret out ->
      exists chunk w1,
        net_Read connection 4096%nat w = ((chunk, None), w1) /\
        frame_of chunk out /\
        (messageLength_of chunk <= 4096 \/ messageLength_of chunk <= maxAlloc).
Proof.
  intros Hfull. unfold readRawMessage.
  destruct (net_Read connection 4096%nat w) as [[chunk err] w1] eqn:Hread.
  destruct err as [err |].
  - exists (Fail err), w1. split; [reflexivity |]. split; discriminate.
  - cbv zeta.
    destruct (Z.ltb_spec 4096 (messageLength_of chunk)) as [Hbig | Hsmall];
      [destruct (Z.ltb_spec maxAlloc (messageLength_of chunk)) as [Hover | Hfits] |];
      cbn [andb].
    + exists (Panic makeslice_cap_out_of_range), w1. split; [reflexivity |].
      split; [| discriminate]. intros msg _. now exists chunk, w1.
    + destruct (read_more_spec fuel connection chunk (messageLength_of chunk) w1 Hfull)
        as (r & w' & Hrun & Hpanic & Hout).
      exists r, w'. split; [exact Hrun |]. split.
      * intros msg ->. now destruct (Hpanic msg).
      * intros out Hr. exists chunk, w1. split; [reflexivity |].
        split; [now apply Hout | now right].
    + destruct (read_more_spec fuel connection chunk (messageLength_of chunk) w1 Hfull)
        as (r & w' & Hrun & Hpanic & Hout).
      exists r, w'. split; [exact Hrun |]. split.
      * intros msg ->. now destruct (Hpanic msg).
      * intros out Hr. exists chunk, w1. split; [reflexivity |].
        split; [now apply Hout | now left].
Qed.

(** X22 (readRawMessage): when [io.ReadFull] keeps its promise, the loop
    of [readRawMessage] runs at most once, so that the function returns.
    The bytes it returns start with those of the first read and have the
    length announced by the varint, or are the bytes of the first read
    alone when that read brought as many or more. It panics only on a
    length above 4096 that is more than the runtime grants to a slice. *)
Theorem readRawMessage_frames (fuel : nat) (connection : net_Conn) (w : World) :
  ReadFull_fills ->
  exists r w', readRawMessage (S fuel) connection w = Some (r, w') /\
    (forall msg, r = Panic msg ->
       exists chunk w1,
         net_Read connection 4096%nat w = ((chunk, None), w1) /\
         maxAlloc < messageLength_of chunk /\ 4096 < messageLength_of chunk) /\
    forall out, r = Ret out ->
      exists chunk w1,
        net_Read connection 4096%nat w = ((chunk, None), w1) /\
        frame_of chunk out /\
        (messageLength_of chunk <= 4096 \/ messageLength_of chunk <= maxAlloc).
Proof.
  apply readRawMessage_spec.
Qed.

(** X23 (readResponse): when [io.ReadFull] keeps its promise,
    [readResponse] returns, and a response it returns is what
    [DecodeMessage] makes of one frame: the bytes of the first read,
    continued up to the length announced. *)
Theorem readResponse_decodes_frame (fuel : nat) (connection : net_Conn) (w : World) :
  ReadFull_fills ->
  exists r w', readResponse (S fuel) connection w = Some (r, w') /\
    forall response, r = Ret response ->
      exists chunk w1 out,
        net_Read connection 4096%nat w = ((chunk, None), w1) /\
        frame_of chunk out /\ DecodeMessage out = inl response.
Proof.
  intros Hfull. unfold readResponse.
  destruct (readRawMessage_spec fuel connection w Hfull)
    as (r & w' & Hrun & Hpanic & Hout).
  rewrite Hrun. destruct r as [out | err | msg].
  - destruct (Hout out eq_refl) as (chunk & w1 & Hread & Hframe & _).
    destruct (DecodeMessage out) as [response | err] eqn:Hdecode.
    + exists (Ret response), w'. split; [reflexivity |].
      intros response' [= <-]. now exists chunk, w1, out.
    + exists (Fail err), w'. split; [reflexivity | discriminate].
  - exists (Fail err), w'. split; [reflexivity | discriminate].
  - exists (Panic msg), w'. split; [reflexivity | discriminate].
Qed.

End FramingFacts.

Lemma SampleStream_ReadFull_fills :
  ReadFull_fills SampleStream.World SampleStream.io_ReadFull.
Proof.
  intros connection n w got w'. unfold SampleStream.io_ReadFull.
  destruct (Nat.leb_spec n (length w)) as [Hle | Hgt]; [| discriminate].
  intros [= <- <-]. rewrite length_take. lia.
Qed.

Lemma readRawMessage_frames_witness :
  ReadFull_fills SampleStream.World SampleStream.io_ReadFull /\
  exists r w', SampleStream.readRawMessage 1 0%nat SampleStream.stream = Some (r, w') /\
    (forall msg, r = Panic msg ->
       exists chunk w1,
         SampleStream.net_Read 0%nat 4096%nat SampleStream.stream = ((chunk, None), w1) /\
         SampleStream.maxAlloc < messageLength_of SampleStream.DecodeVarint chunk /\
         4096 < messageLength_of SampleStream.DecodeVarint chunk) /\
    forall out, r = Ret out ->
      exists chunk w1,
        SampleStream.net_Read 0%nat 4096%nat SampleStream.stream = ((chunk, None), w1) /\
        frame_of SampleStream.DecodeVarint chunk out /\
        (messageLength_of SampleStream.DecodeVarint chunk <= 4096
         \/ messageLength_of SampleStream.DecodeVarint chunk <= SampleStream.maxAlloc).
Proof.
  split; [exact SampleStream_ReadFull_fills |].
  exact (readRawMessage_frames SampleStream.World SampleStream.net_Read
           SampleStream.io_ReadFull SampleStream.DecodeVarint SampleStream.maxAlloc
           0 0%nat SampleStream.stream SampleStream_ReadFull_fills).
Defined.

Lemma readResponse_decodes_frame_witness :
  ReadFull_fills SampleStream.World SampleStream.io_ReadFull /\
  exists r w', SampleStream.readResponse 1 0%nat SampleStream.stream = Some (r, w') /\
    forall response, r = Ret response ->
      exists chunk w1 out,
        SampleStream.net_Read 0%nat 4096%nat SampleStream.stream = ((chunk, None), w1) /\
        frame_of SampleStream.DecodeVarint chunk out /\
        SampleStream.DecodeMessage out = inl response.
Proof.
  split; [exact SampleStream_ReadFull_fills |].
  exact (readResponse_decodes_frame SampleStream.World SampleStream.net_Read
           SampleStream.io_ReadFull SampleStream.DecodeVarint
           SampleStream.DecodeMessage SampleStream.maxAlloc 0 0%nat
           SampleStream.stream SampleStream_ReadFull_fills).
Defined.

(** The sample stream: the first read brings two bytes, the second the
    two that the length of three and its one byte of varint still want;
    the byte of the next message stays on the connection. *)
Example readRawMessage_stream :
  SampleStream.readRawMessage 1 0%nat SampleStream.stream
  = Some (Ret [Byte.x03; Byte.x0a; Byte.x0b; Byte.x0c], [Byte.x02]).
Proof. vm_compute. reflexivity. Qed.

(** ** The operations on a region *)

Section FacadeFacts.

Variable Other : Type.
Variable json_Marshal : Other -> string + error.
Variable json_Unmarshal : string -> Other -> Other + error.
Variable Other_hashable : Other -> bool.
Variable Other_eq : Other -> Other -> bool.
Variable fmt_v : forall A : Type, A -> string.

Variable World : Type.
Variable dial : serverConnectionProvider -> World -> option net_Conn * World.
Variable handshake_io : net_Conn -> World -> option error * World.
Variable authenticate_io : net_Conn -> string -> string -> World -> option error * World.
Variable exchange : net_Conn -> v1_Message -> World -> Exchange * World.

Variable Message_PutRequest : string -> EncodedValue -> EncodedValue -> v1_Message.
Variable Message_PutIfAbsentRequest : string -> EncodedValue -> EncodedValue -> v1_Message.
Variable Message_RemoveRequest : string -> EncodedValue -> v1_Message.
Variable Message_GetAllRequest : string -> list (option EncodedValue) -> v1_Message.

Local Abbreviation State := (State World).
Local Abbreviation EncodeValue := (EncodeValue Other json_Marshal).
Local Abbreviation EncodeList_loop := (EncodeList_loop Other json_Marshal).
Local Abbreviation encodable := (encodable Other json_Marshal).
Local Abbreviation doOperation :=
  (doOperation World dial handshake_io authenticate_io exchange).
Local Abbreviation send := (send World dial handshake_io authenticate_io exchange).
Local Abbreviation encode_entry := (encode_entry Other json_Marshal).
Local Abbreviation Put :=
  (Put Other json_Marshal World dial handshake_io authenticate_io exchange
     Message_PutRequest).
Local Abbreviation PutIfAbsent :=
  (PutIfAbsent Other json_Marshal World dial handshake_io authenticate_io exchange
     Message_PutIfAbsentRequest).
Local Abbreviation Remove :=
  (Remove Other json_Marshal World dial handshake_io authenticate_io exchange
     Message_RemoveRequest).
Local Abbreviation GetAll :=
  (GetAll Other json_Marshal json_Unmarshal Other_hashable Other_eq fmt_v
     World dial handshake_io authenticate_io exchange Message_GetAllRequest).

Lemma EncodeList_loop_first_failure (l1 : list (GoValue Other)) (x : GoValue Other)
    (l2 : list (GoValue Other)) (err : error) :
  Forall encodable l1 ->
  EncodeValue x = Fail err ->
  forall acc, EncodeList_loop (l1 ++ x :: l2)%list acc = Fail err.
Proof.
  intros Hall Hx. induction Hall as [| y l1 [e He] _ IH]; intros acc; simpl.
  - rewrite Hx. reflexivity.
  - rewrite He. apply IH.
Qed.

Lemma send_active_balanced (fuel : nat) (request : v1_Message) (s : State) r s' :
  in_int64 (activeConnections s) ->
  send fuel request s = Some (r, s') ->
  activeConnections s' = activeConnections s.
Proof.
  intros Hrange. unfold send.
  destruct (doOperation fuel request s) as [[r1 s1] |] eqn:Hrun; [| discriminate].
  pose proof (doOperation_active_balanced World dial handshake_io authenticate_io
                exchange fuel request s r1 s1 Hrange Hrun) as Hbal.
  destruct r1; intros [= <- <-]; exact Hbal.
Qed.

(** X24 (Put, PutIfAbsent, Remove): the key is encoded first and the
    value second; the error of the first of them that does not encode is
    returned as it is, whatever the bound on the attempts, and the pool
    and the network are as they were: no lock is taken, no server is
    dialled and nothing is sent. *)
Theorem entry_rejected_before_traffic (fuel : nat) (region : string)
    (k v : GoValue Other) (err : error) (s : State) :
  EncodeValue k = Fail err \/ (encodable k /\ EncodeValue v = Fail err) ->
  Put fuel region k v s = Some (Fail err, s) /\
  PutIfAbsent fuel region k v s = Some (Fail err, s) /\
  (EncodeValue k = Fail err -> Remove fuel region k s = Some (Fail err, s)).
Proof.
  intros Hbad.
  assert (Hentry : encode_entry k v = Fail err).
  { unfold encode_entry. destruct Hbad as [Hk | [[e Hk] Hv]].
    - rewrite Hk. reflexivity.
    - rewrite Hk, Hv. reflexivity. }
  unfold Put, PutIfAbsent, Remove. rewrite Hentry.
  split; [reflexivity |]. split; [reflexivity |].
  intros Hk. rewrite Hk. reflexivity.
Qed.

(** X25 (GetAll): keys that are no slice and no array, and a slice with a
    key that does not encode, are refused before the pool is used: the
    error is that of the first such key, the keys before it having been
    encoded, and the state is unchanged. *)
Theorem GetAll_first_bad_key (fuel : nat) (region : string)
    (l1 : list (GoValue Other)) (x : GoValue Other) (l2 : list (GoValue Other))
    (err : error) (s : State) :
  Forall encodable l1 ->
  EncodeValue x = Fail err ->
  GetAll fuel region (Some (l1 ++ x :: l2)%list) s = Some (Fail err, s) /\
  GetAll fuel region None s
  = Some (Fail (errors_New "keys must be a slice or array"), s).
Proof.
  intros Hall Hx. split; [| reflexivity].
  unfold GetAll. rewrite (EncodeList_loop_first_failure l1 x l2 err Hall Hx).
  reflexivity.
Qed.

(** X26 (Put, PutIfAbsent, Remove, GetAll): an operation that returns,
    with a result, an error or a panic, has returned every connection it
    took: the count of connections in use is what it was before the
    call. *)
Theorem operations_restore_active_count (fuel : nat) (region : string)
    (k v : GoValue Other) (keys : option (list (GoValue Other))) (s : State) :
  in_int64 (activeConnections s) ->
  (forall r s', Put fuel region k v s = Some (r, s') ->
                activeConnections s' = activeConnections s) /\
  (forall r s', PutIfAbsent fuel region k v s = Some (r, s') ->
                activeConnections s' = activeConnections s) /\
  (forall r s', Remove fuel region k s = Some (r, s') ->
                activeConnections s' = activeConnections s) /\
  (forall r s', GetAll fuel region keys s = Some (r, s') ->
                activeConnections s' = activeConnections s).
Proof.
  intros Hrange. repeat split; intros r s'.
  - unfold Put. destruct (encode_entry k v) as [[key value] | err | msg].
    + apply send_active_balanced, Hrange.
    + now intros [= <- <-].
    + now intros [= <- <-].
  - unfold PutIfAbsent. destruct (encode_entry k v) as [[key value] | err | msg].
    + apply send_active_balanced, Hrange.
    + now intros [= <- <-].
    + now intros [= <- <-].
  - unfold Remove. destruct (EncodeValue k) as [key | err | msg].
    + apply send_active_balanced, Hrange.
    + now intros [= <- <-].
    + now intros [= <- <-].
  - unfold GetAll. destruct keys as [l |]; [| now intros [= <- <-]].
    destruct (EncodeList_loop l []) as [encodedKeys | err | msg];
      [| now intros [= <- <-] | now intros [= <- <-]].
    destruct (doOperation fuel (Message_GetAllRequest region encodedKeys) s)
      as [[r1 s1] |] eqn:Hrun; [| discriminate].
    pose proof (doOperation_active_balanced World dial handshake_io authenticate_io
                  exchange fuel _ s r1 s1 Hrange Hrun) as Hbal.
    destruct r1; intros [= <- <-]; exact Hbal.
Qed.

End FacadeFacts.

Lemma entry_rejected_before_traffic_witness :
  SampleFacade.Put 3 "r" (V_string "k") (V_other Sample.Chan) SampleNet.two_servers
  = Some (Fail (errors_New "json: unsupported type: chan int"), SampleNet.two_servers) /\
  SampleFacade.PutIfAbsent 3 "r" (V_string "k") (V_other Sample.Chan) SampleNet.two_servers
  = Some (Fail (errors_New "json: unsupported type: chan int"), SampleNet.two_servers) /\
  (Sample.EncodeValue (V_string "k") = Fail (errors_New "json: unsupported type: chan int") ->
   SampleFacade.Remove 3 "r" (V_string "k") SampleNet.two_servers
   = Some (Fail (errors_New "json: unsupported type: chan int"), SampleNet.two_servers)).
Proof.
  apply (entry_rejected_before_traffic Sample.other Sample.json_Marshal SampleNet.World
           SampleNet.dial SampleNet.handshake_io SampleNet.authenticate_io
           SampleNet.exchange SampleFacade.Message_PutRequest
           SampleFacade.Message_PutIfAbsentRequest SampleFacade.Message_RemoveRequest).
  right. split.
  - eexists. reflexivity.
  - reflexivity.
Defined.

Lemma GetAll_first_bad_key_witness :
  SampleFacade.GetAll 3 "r"
    (Some [V_string "a"; V_int 1; V_other Sample.Chan; V_string "b"])
    SampleNet.two_servers
  = Some (Fail (errors_New "json: unsupported type: chan int"), SampleNet.two_servers) /\
  SampleFacade.GetAll 3 "r" None SampleNet.two_servers
  = Some (Fail (errors_New "keys must be a slice or array"), SampleNet.two_servers).
Proof.
  apply (GetAll_first_bad_key Sample.other Sample.json_Marshal Sample.json_Unmarshal
           Sample.hashable Sample.eq Sample.fmt_v SampleNet.World
           SampleNet.dial SampleNet.handshake_io SampleNet.authenticate_io
           SampleNet.exchange SampleFacade.Message_GetAllRequest
           3 "r" [V_string "a"; V_int 1] (V_other Sample.Chan) [V_string "b"]).
  - repeat constructor; eexists; reflexivity.
  - reflexivity.
Defined.

Lemma operations_restore_active_count_witness :
  in_int64 (activeConnections SampleNet.three_connections) /\
  (forall r s', SampleFacade.Put 2 "r" (V_string "k") (V_int 1)
                  SampleNet.three_connections = Some (r, s') ->
                activeConnections s' = activeConnections SampleNet.three_connections) /\
  (forall r s', SampleFacade.PutIfAbsent 2 "r" (V_string "k") (V_int 1)
                  SampleNet.three_connections = Some (r, s') ->
                activeConnections s' = activeConnections SampleNet.three_connections) /\
  (forall r s', SampleFacade.Remove 2 "r" (V_string "k")
                  SampleNet.three_connections = Some (r, s') ->
                activeConnections s' = activeConnections SampleNet.three_connections) /\
  (forall r s', SampleFacade.GetAll 2 "r" (Some [V_string "k"])
                  SampleNet.three_connections = Some (r, s') ->
                activeConnections s' = activeConnections SampleNet.three_connections).
Proof.
  assert (Hrange : in_int64 (activeConnections SampleNet.three_connections)).
  { split; [vm_compute; discriminate | vm_compute; reflexivity]. }
  split; [exact Hrange |].
  exact (operations_restore_active_count Sample.other Sample.json_Marshal
           Sample.json_Unmarshal Sample.hashable Sample.eq Sample.fmt_v SampleNet.World
           SampleNet.dial SampleNet.handshake_io SampleNet.authenticate_io
           SampleNet.exchange SampleFacade.Message_PutRequest
           SampleFacade.Message_PutIfAbsentRequest SampleFacade.Message_RemoveRequest
           SampleFacade.Message_GetAllRequest
           2 "r" (V_string "k") (V_int 1) (Some [V_string "k"])
           SampleNet.three_connections Hrange).
Defined.

(** On the sample network the first round trip ends in an end of stream
    and the second is answered: [Put] returns no error, with one
    connection discarded and none in use. *)
Example Put_three_connections :
  match SampleFacade.Put 2 "r" (V_string "k") (V_int 1) SampleNet.three_connections with
  | Some (r, s') =>
      r = Ret tt /\ activeConnections s' = 0 /\ discardedConnections s' = 1
  | None => False
  end.
Proof. vm_compute. repeat split. Qed.
